(** * Soundboard: the saved-sounds session store, the audio element
    registry and the fade helpers.

    A shallow embedding of
    - [src/context/SavedSoundsContext.tsx] (the [SavedSoundsProvider] store),
    - [api/sounds] ([getOrCreateAudioElement], [addSoundToCachedMap],
      [removeSoundFromCachedMap], the [useSoundsByIds] query function),
    - [utils/audioFade] ([fadeIn], [fadeOut]),
    - [src/App.tsx] (the drag-and-drop handler [handleDragEnd]),
    - [SoundTile.tsx] and [LibrarySoundItem.tsx] (the play toggles and the
      local state of a library item).

    Conventions of the embedding.
    - JavaScript numbers are rationals ([Q]); clock readings ([Date.now()])
      and array indices are integers ([Z]).
    - [HTMLAudioElement]s and [SavedSound] objects are mutable and shared:
      they live in two heaps (lists indexed by reference), and maps hold
      references.
    - A JavaScript [Map] is an association list in insertion order.
    - A React event handler is a function on the store; it is followed by
      the re-render of the provider ([render]) exactly when one of its state
      setters produced a new state.
    - What the browser decides is a parameter ([Runtime]): the collation,
      [JSON.parse], the serialisation of a locator into the [src] of an
      audio element, and whether [localStorage.setItem] throws.  Whether
      the promise of [play()] resolves is an argument of the two toggles.
    - An audio element accepts a volume in [0, 1] only.  The interval
      callback of a fade is modelled with the assignment that raises; the
      handlers and effects are modelled for volumes in range, and the
      statements about a volume they apply assume volumes in [0, 100]. *)

From Stdlib Require Import QArith Qminmax Lqa Sorted.
From Stdlib Require OrderedTypeEx.
From stdpp Require Import base option list gmap strings sorting.

Set Warnings "-register-all".

Local Open Scope Q_scope.
Local Open Scope stdpp_scope.
Local Open Scope list_scope.

(** ** The host runtime *)

(** JSON values as [JSON.parse] produces them. *)
Inductive json :=
  | JNull
  | JBool (b : bool)
  | JNum (q : Q)
  | JStr (s : string)
  | JArr (items : list json)
  | JObj (fields : list (string * json)).

(** What the browser supplies:
    - the collation behind [a.localeCompare(b)];
    - [JSON.parse] ([None] when it throws a [SyntaxError]);
    - the URL parser and serialiser: [resolveURL url] is what the [src] of
      an element constructed by [new Audio(url)] reads, the locator parsed
      against the base URL of the document and serialised again (a relative
      path is made absolute, a space is percent-encoded, and so on);
    - whether [localStorage.setItem(STORAGE_KEY, JSON.stringify(value))]
      throws (the quota is exceeded, the storage is disabled). *)
Class Runtime := {
  localeCompare : string → string → comparison;
  JSON_parse : string → option json;
  resolveURL : string → string;
  setItem_throws : json → bool
}.

(** The outcome of [localStorage.getItem(STORAGE_KEY)]. *)
Inductive getItem_result :=
  | GetItemThrows
  | GetItemNull
  | GetItemString (stored : string).

(** [value.key] for a parsed JSON value: [undefined] unless the value is an
    object that has the key. *)
Fixpoint assoc_get {A} (key : string) (fields : list (string * A)) : option A :=
  match fields with
  | [] => None
  | (k, v) :: rest => if decide (k = key) then Some v else assoc_get key rest
  end.

Definition json_field (key : string) (value : json) : option json :=
  match value with
  | JObj fields => assoc_get key fields
  | _ => None
  end.

(** JavaScript truthiness of a parsed JSON value. *)
Definition json_truthy (value : json) : bool :=
  match value with
  | JNull => false
  | JBool b => b
  | JNum q => negb (Qeq_bool q 0)
  | JStr s => negb (bool_decide (s = EmptyString))
  | JArr _ => true
  | JObj _ => true
  end.

(** [typeof value === 'object'] together with truthiness. *)
Definition json_is_object (value : json) : bool :=
  match value with
  | JArr _ | JObj _ => true
  | _ => false
  end.

(** ** The persisted record *)

Record SoundMetadata := {
  md_volume : option Q;
  md_loop : option bool
}.

(** The record returned by [getStoredSounds]: [metadata] is whatever JSON
    value passed the check. *)
Record StoredSounds := {
  stored_savedSounds : list string;
  stored_metadata : json;
  stored_masterVolume : Q
}.

Definition defaultStoredSounds : StoredSounds :=
  {| stored_savedSounds := []; stored_metadata := JObj []; stored_masterVolume := 100 |}.

Definition json_strings (items : list json) : list string :=
  omap (λ item, match item with JStr s => Some s | _ => None end) items.

Definition getStoredSounds `{Runtime} (item : getItem_result) : StoredSounds :=
  match item with
  | GetItemThrows => defaultStoredSounds
  | GetItemNull => defaultStoredSounds
  | GetItemString stored =>
      if bool_decide (stored = EmptyString) then defaultStoredSounds
      else
        match JSON_parse stored with
        | None => defaultStoredSounds
        | Some parsed =>
            if json_truthy parsed then
              match json_field "savedSounds" parsed with
              | Some (JArr items) =>
                  {| stored_savedSounds := json_strings items;
                     stored_metadata :=
                       match json_field "metadata" parsed with
                       | Some m => if json_is_object m then m else JObj []
                       | None => JObj []
                       end;
                     stored_masterVolume :=
                       match json_field "masterVolume" parsed with
                       | Some (JNum q) => q
                       | _ => 100
                       end |}
              | _ => defaultStoredSounds
              end
            else defaultStoredSounds
        end
  end.

(** The metadata table read through its declared type
    [{ [soundId]: SoundMetadata }].  The code keeps [parsed.metadata] as it
    is, whatever its entries are; the embedding covers tables whose entries
    have that type (as every table written by [saveToStorage] has), and
    reads a field of another shape as absent. *)
Definition metadata_entry (value : json) : SoundMetadata :=
  {| md_volume := match json_field "volume" value with Some (JNum q) => Some q | _ => None end;
     md_loop := match json_field "loop" value with Some (JBool b) => Some b | _ => None end |}.

Definition metadata_table (value : json) : gmap string SoundMetadata :=
  match value with
  | JObj fields =>
      foldr (λ kv table, <[kv.1 := metadata_entry kv.2]> table) ∅ fields
  | _ => ∅
  end.

(** ** Audio elements and the objects that refer to them *)

(** The part of an [HTMLAudioElement] the program touches.  [audio_src] is
    what [audio.src] reads: the resolved, serialised URL of the element. *)
Record Audio := {
  audio_src : string;
  audio_volume : Q;
  audio_loop : bool;
  audio_paused : bool
}.

(** [new Audio(url)] *)
Definition newAudio `{Runtime} (url : string) : Audio :=
  {| audio_src := resolveURL url; audio_volume := 1; audio_loop := false;
     audio_paused := true |}.

Definition audio_pause (a : Audio) : Audio :=
  {| audio_src := audio_src a; audio_volume := audio_volume a;
     audio_loop := audio_loop a; audio_paused := true |}.

(** [audio.volume = v], for a [v] the element accepts.  The setter of a real
    element raises an [IndexSizeError] when [v] is outside [0, 1], which
    ends the handler, effect or callback that made the assignment.  The
    interval callback of a fade is modelled with that outcome ([fadeTick]);
    the handlers and effects of the provider, of a tile and of a library
    item are modelled for volumes in range, and a statement about a volume
    they apply carries the range as a hypothesis. *)
Definition audio_set_volume (v : Q) (a : Audio) : Audio :=
  {| audio_src := audio_src a; audio_volume := v;
     audio_loop := audio_loop a; audio_paused := audio_paused a |}.

Definition audio_set_loop (l : bool) (a : Audio) : Audio :=
  {| audio_src := audio_src a; audio_volume := audio_volume a;
     audio_loop := l; audio_paused := audio_paused a |}.

Record Sound := {
  sound_id : string;
  sound_name : string;
  sound_url : string;
  sound_category : option string;
  sound_type : option string
}.

(** [SavedSound]: [saved_audio] is a reference into the audio heap. *)
Record SavedSound := {
  saved_id : string;
  saved_name : string;
  saved_url : string;
  saved_category : string;
  saved_type : string;
  saved_audio : nat;
  saved_volume : option Q
}.

Definition saved_set_volume (v : Q) (s : SavedSound) : SavedSound :=
  {| saved_id := saved_id s; saved_name := saved_name s; saved_url := saved_url s;
     saved_category := saved_category s; saved_type := saved_type s;
     saved_audio := saved_audio s; saved_volume := Some v |}.

(** A [Map<string, SavedSound>] held by the query cache.  Such a map is
    never mutated after it is stored, so it is a value; [map_identity]
    stands for its object identity, which [useMemo] compares. *)
Record CachedMap := {
  map_identity : nat;
  map_entries : list (string * nat)
}.

(** [map.set(key, value)] and [map.delete(key)] on the entries. *)
Fixpoint assoc_set {A} (key : string) (value : A) (entries : list (string * A))
  : list (string * A) :=
  match entries with
  | [] => [(key, value)]
  | (k, v) :: rest =>
      if decide (k = key) then (k, value) :: rest
      else (k, v) :: assoc_set key value rest
  end.

Definition assoc_delete {A} (key : string) (entries : list (string * A))
  : list (string * A) :=
  filter (λ kv, kv.1 ≠ key) entries.

(** What [saveToStorage] serialises. *)
Record SavedSoundsStorage := {
  storage_savedSounds : list string;
  storage_metadata : gmap string SoundMetadata;
  storage_masterVolume : option Q
}.

(** ** The store *)

(** [localStorage] is the record that the session last wrote under
    [STORAGE_KEY]; it is [None] as long as the session has written none, and
    the item is then as the session found it at startup. *)
Record Store := {
  savedSoundIds : list string;                     (* useState *)
  masterVolume : Q;                                (* useState *)
  metadataRef : gmap string SoundMetadata;         (* useRef *)
  localStorage : option SavedSoundsStorage;        (* the item written under STORAGE_KEY *)
  audioElementRegistry : gmap string nat;
  audios : list Audio;                             (* heap of audio elements *)
  savedSoundObjects : list SavedSound;             (* heap of SavedSound objects *)
  queryCache : gmap (list string) CachedMap;       (* ['savedSounds', sortedIds] *)
  nextIdentity : nat;
  memoDeps : option (option nat * Q)               (* dependencies of the last useMemo run *)
}.

Definition with_savedSoundIds (ids : list string) (st : Store) : Store :=
  {| savedSoundIds := ids; masterVolume := masterVolume st;
     metadataRef := metadataRef st; localStorage := localStorage st;
     audioElementRegistry := audioElementRegistry st; audios := audios st;
     savedSoundObjects := savedSoundObjects st; queryCache := queryCache st;
     nextIdentity := nextIdentity st; memoDeps := memoDeps st |}.

Definition with_masterVolume (volume : Q) (st : Store) : Store :=
  {| savedSoundIds := savedSoundIds st; masterVolume := volume;
     metadataRef := metadataRef st; localStorage := localStorage st;
     audioElementRegistry := audioElementRegistry st; audios := audios st;
     savedSoundObjects := savedSoundObjects st; queryCache := queryCache st;
     nextIdentity := nextIdentity st; memoDeps := memoDeps st |}.

Definition with_metadataRef (table : gmap string SoundMetadata) (st : Store) : Store :=
  {| savedSoundIds := savedSoundIds st; masterVolume := masterVolume st;
     metadataRef := table; localStorage := localStorage st;
     audioElementRegistry := audioElementRegistry st; audios := audios st;
     savedSoundObjects := savedSoundObjects st; queryCache := queryCache st;
     nextIdentity := nextIdentity st; memoDeps := memoDeps st |}.

Definition with_localStorage (item : option SavedSoundsStorage) (st : Store) : Store :=
  {| savedSoundIds := savedSoundIds st; masterVolume := masterVolume st;
     metadataRef := metadataRef st; localStorage := item;
     audioElementRegistry := audioElementRegistry st; audios := audios st;
     savedSoundObjects := savedSoundObjects st; queryCache := queryCache st;
     nextIdentity := nextIdentity st; memoDeps := memoDeps st |}.

Definition with_audioElementRegistry (registry : gmap string nat) (st : Store) : Store :=
  {| savedSoundIds := savedSoundIds st; masterVolume := masterVolume st;
     metadataRef := metadataRef st; localStorage := localStorage st;
     audioElementRegistry := registry; audios := audios st;
     savedSoundObjects := savedSoundObjects st; queryCache := queryCache st;
     nextIdentity := nextIdentity st; memoDeps := memoDeps st |}.

Definition with_audios (heap : list Audio) (st : Store) : Store :=
  {| savedSoundIds := savedSoundIds st; masterVolume := masterVolume st;
     metadataRef := metadataRef st; localStorage := localStorage st;
     audioElementRegistry := audioElementRegistry st; audios := heap;
     savedSoundObjects := savedSoundObjects st; queryCache := queryCache st;
     nextIdentity := nextIdentity st; memoDeps := memoDeps st |}.

Definition with_savedSoundObjects (heap : list SavedSound) (st : Store) : Store :=
  {| savedSoundIds := savedSoundIds st; masterVolume := masterVolume st;
     metadataRef := metadataRef st; localStorage := localStorage st;
     audioElementRegistry := audioElementRegistry st; audios := audios st;
     savedSoundObjects := heap; queryCache := queryCache st;
     nextIdentity := nextIdentity st; memoDeps := memoDeps st |}.

Definition with_queryCache (cache : gmap (list string) CachedMap) (st : Store) : Store :=
  {| savedSoundIds := savedSoundIds st; masterVolume := masterVolume st;
     metadataRef := metadataRef st; localStorage := localStorage st;
     audioElementRegistry := audioElementRegistry st; audios := audios st;
     savedSoundObjects := savedSoundObjects st; queryCache := cache;
     nextIdentity := nextIdentity st; memoDeps := memoDeps st |}.

Definition with_nextIdentity (n : nat) (st : Store) : Store :=
  {| savedSoundIds := savedSoundIds st; masterVolume := masterVolume st;
     metadataRef := metadataRef st; localStorage := localStorage st;
     audioElementRegistry := audioElementRegistry st; audios := audios st;
     savedSoundObjects := savedSoundObjects st; queryCache := queryCache st;
     nextIdentity := n; memoDeps := memoDeps st |}.

Definition with_memoDeps (deps : option (option nat * Q)) (st : Store) : Store :=
  {| savedSoundIds := savedSoundIds st; masterVolume := masterVolume st;
     metadataRef := metadataRef st; localStorage := localStorage st;
     audioElementRegistry := audioElementRegistry st; audios := audios st;
     savedSoundObjects := savedSoundObjects st; queryCache := queryCache st;
     nextIdentity := nextIdentity st; memoDeps := deps |}.

(** The expression [(volume / 100) * (masterVolume / 100)] written to
    [audio.volume] by the provider. *)
Definition effectiveVolume (volume master : Q) : Q :=
  (volume / 100) * (master / 100).

Definition write_audio (f : Audio → Audio) (audio : nat) (st : Store) : Store :=
  with_audios (alter f audio (audios st)) st.

Definition write_saved (f : SavedSound → SavedSound) (ref : nat) (st : Store) : Store :=
  with_savedSoundObjects (alter f ref (savedSoundObjects st)) st.

(** [sound.audio.<field> = ...] for the object behind [ref]. *)
Definition write_sound_audio (f : Audio → Audio) (ref : nat) (st : Store) : Store :=
  match savedSoundObjects st !! ref with
  | Some sound => write_audio f (saved_audio sound) st
  | None => st
  end.

(** [[...ids].sort((a, b) => a.localeCompare(b))]: a stable sort. *)
Fixpoint sort_insert `{Runtime} (x : string) (sorted : list string) : list string :=
  match sorted with
  | [] => [x]
  | y :: rest =>
      match localeCompare x y with
      | Gt => y :: sort_insert x rest
      | _ => x :: y :: rest
      end
  end.

Definition sortIds `{Runtime} (ids : list string) : list string :=
  foldr sort_insert [] ids.

(** ** The audio element registry ([api/sounds]) *)

(** The test [audio.src !== url] compares the serialised URL of the
    registered element with the locator as it was passed. *)
Definition getOrCreateAudioElement `{Runtime} (soundId url : string) (st : Store)
  : nat * Store :=
  match audioElementRegistry st !! soundId with
  | None =>
      let audio := length (audios st) in
      (audio,
       with_audioElementRegistry (<[soundId := audio]> (audioElementRegistry st))
         (with_audios (audios st ++ [newAudio url]) st))
  | Some audio =>
      if bool_decide (audio_src <$> audios st !! audio = Some url) then (audio, st)
      else
        (* URL changed, create new one *)
        let st1 := write_audio audio_pause audio st in
        let audio' := length (audios st1) in
        (audio',
         with_audioElementRegistry (<[soundId := audio']> (audioElementRegistry st1))
           (with_audios (audios st1 ++ [newAudio url]) st1))
  end.

(** [client.setQueryData(['savedSounds', key], map)] *)
Definition setQueryData (key : list string) (map : CachedMap) (st : Store) : Store :=
  with_queryCache (<[key := map]> (queryCache st)) st.

(** [client.getQueryData(['savedSounds', key]) || new Map()] *)
Definition cachedEntries (key : list string) (st : Store) : list (string * nat) :=
  from_option map_entries [] (queryCache st !! key).

Definition addSoundToCachedMap `{Runtime} (sound : Sound) (currentIds : list string)
    (metadata : option SoundMetadata) (st : Store) : Store :=
  let newIds := currentIds ++ [sound_id sound] in
  let newSortedIds := sortIds newIds in
  let currentSortedIds := sortIds currentIds in
  let currentMap := cachedEntries currentSortedIds st in
  let existingSound :=
    assoc_get (sound_id sound) currentMap ≫= (λ ref, savedSoundObjects st !! ref) in
  let '(audio, volume, loop, st0) :=
    match existingSound with
    | Some existing =>
        (* Reuse existing audio element *)
        (saved_audio existing,
         default (default 100 (saved_volume existing)) (metadata ≫= md_volume),
         default (from_option audio_loop false (audios st !! saved_audio existing))
                 (metadata ≫= md_loop),
         st)
    | None =>
        (* Create new audio element using registry *)
        let '(audio, st0) := getOrCreateAudioElement (sound_id sound) (sound_url sound) st in
        (audio, default 100 (metadata ≫= md_volume), default false (metadata ≫= md_loop), st0)
    end in
  let st1 := write_audio (audio_set_volume (volume / 100)) audio st0 in
  let st2 := write_audio (audio_set_loop loop) audio st1 in
  let ref := length (savedSoundObjects st2) in
  let object :=
    {| saved_id := sound_id sound; saved_name := sound_name sound;
       saved_url := sound_url sound;
       saved_category := default EmptyString (sound_category sound);
       saved_type := default EmptyString (sound_type sound);
       saved_audio := audio; saved_volume := Some volume |} in
  let st3 := with_savedSoundObjects (savedSoundObjects st2 ++ [object]) st2 in
  let newMap :=
    {| map_identity := nextIdentity st3;
       map_entries := assoc_set (sound_id sound) ref currentMap |} in
  let st4 := setQueryData newSortedIds newMap (with_nextIdentity (S (nextIdentity st3)) st3) in
  if bool_decide (currentIds = []) then st4
  else setQueryData currentSortedIds newMap st4.

Definition removeSoundFromCachedMap `{Runtime} (soundId : string) (currentIds : list string)
    (st : Store) : Store :=
  (* Pause the audio element if it exists; it is kept in the registry *)
  let st1 :=
    match audioElementRegistry st !! soundId with
    | Some audio => write_audio audio_pause audio st
    | None => st
    end in
  let newIds := filter (λ id, id ≠ soundId) currentIds in
  let newSortedIds := sortIds newIds in
  let currentSortedIds := sortIds currentIds in
  let currentMap := cachedEntries currentSortedIds st1 in
  let newMap :=
    {| map_identity := nextIdentity st1;
       map_entries := assoc_delete soundId currentMap |} in
  let st2 := setQueryData newSortedIds newMap (with_nextIdentity (S (nextIdentity st1)) st1) in
  if bool_decide (currentIds = []) then st2
  else setQueryData currentSortedIds newMap st2.

(** ** What [saveToStorage] writes, as a JSON value *)

(** The value [JSON.stringify] serialises for a metadata entry and for the
    whole record: a field that is [undefined] is left out. *)
Definition metadata_json (metadata : SoundMetadata) : json :=
  JObj (from_option (λ volume, [("volume", JNum volume)]) [] (md_volume metadata)
        ++ from_option (λ loop, [("loop", JBool loop)]) [] (md_loop metadata)).

Definition storage_json (data : SavedSoundsStorage) : json :=
  JObj ([("savedSounds", JArr (JStr <$> storage_savedSounds data));
         ("metadata",
          JObj (prod_map id metadata_json <$> map_to_list (storage_metadata data)))]
        ++ from_option (λ master, [("masterVolume", JNum master)]) []
             (storage_masterVolume data)).

(** ** The provider ([SavedSoundsContext.tsx]) *)

(** [saveToStorage]: when [localStorage.setItem] throws, the error is caught
    and logged, and the item stays as it was. *)
Definition saveToStorage `{Runtime} (data : SavedSoundsStorage) (st : Store) : Store :=
  with_localStorage
    (if setItem_throws (storage_json data) then localStorage st else Some data) st.

(** [useSoundsByIds(savedSoundIds).data] *)
Definition savedSoundsMapData `{Runtime} (st : Store) : option CachedMap :=
  queryCache st !! sortIds (savedSoundIds st).

(** The memoised [savedSoundsMap]: a copy of the query data, or an empty
    map while there is none. *)
Definition savedSoundsMap `{Runtime} (st : Store) : list (string * nat) :=
  from_option map_entries [] (savedSoundsMapData st).

(** One iteration of the [map.forEach] inside [useMemo]. *)
Definition applyMetadata (master : Q) (st : Store) (entry : string * nat) : Store :=
  match savedSoundObjects st !! entry.2 with
  | None => st
  | Some sound =>
      let soundMetadata := metadataRef st !! entry.1 in
      let baseVolume :=
        default (default 100 (saved_volume sound)) (soundMetadata ≫= md_volume) in
      let st1 := write_saved (saved_set_volume baseVolume) entry.2 st in
      let st2 :=
        write_audio (audio_set_volume (effectiveVolume baseVolume master))
          (saved_audio sound) st1 in
      write_audio (audio_set_loop (default false (soundMetadata ≫= md_loop)))
        (saved_audio sound) st2
  end.

(** A re-render of the provider.  [useMemo] runs again when the query data
    is another object or the master volume changed; the saving effect runs
    when [savedSoundIds] or [masterVolume] changed ([stateChanged]). *)
Definition render `{Runtime} (stateChanged : bool) (st : Store) : Store :=
  let deps := (map_identity <$> savedSoundsMapData st, masterVolume st) in
  let rerun :=
    match memoDeps st with
    | None => true
    | Some (identity, master) =>
        negb (bool_decide (identity = deps.1)) || negb (Qeq_bool master deps.2)
    end in
  let st1 :=
    if rerun
    then with_memoDeps (Some deps) (foldl (applyMetadata (masterVolume st)) st (savedSoundsMap st))
    else st in
  if stateChanged
  then saveToStorage
         {| storage_savedSounds := savedSoundIds st1;
            storage_metadata := metadataRef st1;
            storage_masterVolume := Some (masterVolume st1) |} st1
  else st1.

Definition emptyMetadata : SoundMetadata := {| md_volume := None; md_loop := None |}.

(** [newIds.splice(index, 0, id)] on a copy of [prev], for an index in range. *)
Definition splice_in (index : nat) (id : string) (prev : list string) : list string :=
  take index prev ++ id :: drop index prev.

Definition addSound `{Runtime} (id : string) (sound : Sound) (index : option Z)
    (st : Store) : Store :=
  let prev := savedSoundIds st in
  (* Don't add if already exists: the updater returns [prev] itself *)
  if bool_decide (id ∈ prev) then st
  else
    let soundMetadata := default emptyMetadata (metadataRef st !! id) in
    let st1 := addSoundToCachedMap sound prev (Some soundMetadata) st in
    let newIds :=
      match index with
      | Some i =>
          if bool_decide (0 ≤ i ∧ i ≤ Z.of_nat (length prev))%Z
          then splice_in (Z.to_nat i) id prev
          else prev ++ [id]
      | None => prev ++ [id]
      end in
    render true (with_savedSoundIds newIds st1).

Definition removeSound `{Runtime} (id : string) (st : Store) : Store :=
  let prev := savedSoundIds st in
  let st1 := removeSoundFromCachedMap id prev st in
  let st2 := with_savedSoundIds (filter (λ soundId, soundId ≠ id) prev) st1 in
  (* Remove metadata for this sound *)
  let st3 := with_metadataRef (delete id (metadataRef st2)) st2 in
  let st4 :=
    saveToStorage
      {| storage_savedSounds := filter (λ sid, sid ≠ id) prev;
         storage_metadata := metadataRef st3;
         storage_masterVolume := None |} st3 in
  render true st4.

(** The body of the [forEach] in [clearAllSounds]. *)
Definition pauseIfPlaying (st : Store) (entry : string * nat) : Store :=
  write_sound_audio (λ a, if audio_paused a then a else audio_pause a) entry.2 st.

Definition clearAllSounds_handler `{Runtime} (st : Store) : Store :=
  let st1 := foldl pauseIfPlaying st (savedSoundsMap st) in
  let st2 := with_metadataRef ∅ (with_savedSoundIds [] st1) in
  saveToStorage
    {| storage_savedSounds := []; storage_metadata := ∅; storage_masterVolume := None |} st2.

Definition clearAllSounds `{Runtime} (st : Store) : Store :=
  render true (clearAllSounds_handler st).

(** [setSavedSoundIds(ids)]: the caller passes a new array, so the state
    changes and the provider renders again. *)
Definition reorderSounds `{Runtime} (ids : list string) (st : Store) : Store :=
  render true (with_savedSoundIds ids st).

(** The "update cached map" block shared by the three setters: look the
    sound up in the cached map for the current ids and write through it. *)
Definition updateCached `{Runtime} (id : string) (write : nat → Store → Store)
    (st : Store) : Store :=
  match queryCache st !! sortIds (savedSoundIds st) with
  | Some currentMap =>
      match assoc_get id (map_entries currentMap) with
      | Some updatedSound => write updatedSound st
      | None => st
      end
  | None => st
  end.

Definition currentStorage (st : Store) : SavedSoundsStorage :=
  {| storage_savedSounds := savedSoundIds st;
     storage_metadata := metadataRef st;
     storage_masterVolume := Some (masterVolume st) |}.

Definition setSoundVolume `{Runtime} (id : string) (volume : Q) (st : Store) : Store :=
  match assoc_get id (savedSoundsMap st) with
  | None => st
  | Some sound =>
      let applied := effectiveVolume volume (masterVolume st) in
      let st1 := write_saved (saved_set_volume volume) sound st in
      let st2 := write_sound_audio (audio_set_volume applied) sound st1 in
      let st3 :=
        with_metadataRef
          (<[id := {| md_volume := Some volume;
                      md_loop := metadataRef st2 !! id ≫= md_loop |}]> (metadataRef st2))
          st2 in
      let st4 :=
        updateCached id
          (λ updatedSound s,
             write_sound_audio (audio_set_volume applied) updatedSound
               (write_saved (saved_set_volume volume) updatedSound s))
          st3 in
      saveToStorage (currentStorage st4) st4
  end.

Definition setSoundLoop `{Runtime} (id : string) (loop : bool) (st : Store) : Store :=
  match assoc_get id (savedSoundsMap st) with
  | None => st
  | Some sound =>
      let st1 := write_sound_audio (audio_set_loop loop) sound st in
      let st2 :=
        with_metadataRef
          (<[id := {| md_volume := metadataRef st1 !! id ≫= md_volume;
                      md_loop := Some loop |}]> (metadataRef st1))
          st1 in
      let st3 :=
        updateCached id
          (λ updatedSound s, write_sound_audio (audio_set_loop loop) updatedSound s)
          st2 in
      saveToStorage (currentStorage st3) st3
  end.

(** The body of the [forEach] in [setMasterVolume]. *)
Definition applyMaster `{Runtime} (volume : Q) (st : Store) (entry : string * nat) : Store :=
  match savedSoundObjects st !! entry.2 with
  | None => st
  | Some sound =>
      let applied := effectiveVolume (default 100 (saved_volume sound)) volume in
      let st1 := write_audio (audio_set_volume applied) (saved_audio sound) st in
      updateCached (saved_id sound)
        (λ updatedSound s, write_sound_audio (audio_set_volume applied) updatedSound s)
        st1
  end.

Definition setMasterVolume_handler `{Runtime} (volume : Q) (st : Store) : Store :=
  let st1 := foldl (applyMaster volume) st (savedSoundsMap st) in
  saveToStorage
    {| storage_savedSounds := savedSoundIds st1;
       storage_metadata := metadataRef st1;
       storage_masterVolume := Some volume |} st1.

Definition setMasterVolume `{Runtime} (volume : Q) (st : Store) : Store :=
  let st1 := setMasterVolume_handler volume st in
  (* [setMasterVolumeState(volume)]: an equal number leaves the state as it is *)
  if Qeq_bool (masterVolume st) volume then st1
  else render true (with_masterVolume volume st1).

(** The state after the provider has mounted: the three hooks are
    initialised from [getStoredSounds], the first render runs, and the
    saving effect writes the record back. *)
Definition SavedSoundsProvider_mount `{Runtime} (item : getItem_result) : Store :=
  let stored := getStoredSounds item in
  render true
    {| savedSoundIds := stored_savedSounds stored;
       masterVolume := stored_masterVolume stored;
       metadataRef := metadata_table (stored_metadata stored);
       localStorage := None;
       audioElementRegistry := ∅; audios := []; savedSoundObjects := [];
       queryCache := ∅; nextIdentity := 0%nat; memoDeps := None |}.

(** The query function of [useSoundsByIds] has resolved with [rows]: one
    [SavedSound] per row, its audio element taken from the registry. *)
Definition fetchedSound `{Runtime} (acc : Store * list (string * nat)) (row : Sound)
  : Store * list (string * nat) :=
  let '(audio, st1) := getOrCreateAudioElement (sound_id row) (sound_url row) acc.1 in
  let ref := length (savedSoundObjects st1) in
  let object :=
    {| saved_id := sound_id row; saved_name := sound_name row; saved_url := sound_url row;
       saved_category := default EmptyString (sound_category row);
       saved_type := default EmptyString (sound_type row);
       saved_audio := audio; saved_volume := Some 100 |} in
  (with_savedSoundObjects (savedSoundObjects st1 ++ [object]) st1,
   assoc_set (sound_id row) ref acc.2).

Definition useSoundsByIds_resolved `{Runtime} (rows : list Sound) (st : Store) : Store :=
  if bool_decide (savedSoundIds st = []) then st   (* the query is disabled *)
  else
    let '(st1, entries) := foldl fetchedSound (st, []) rows in
    let soundMap := {| map_identity := nextIdentity st1; map_entries := entries |} in
    render false
      (setQueryData (sortIds (savedSoundIds st1)) soundMap
         (with_nextIdentity (S (nextIdentity st1)) st1)).

(** ** The fade helpers ([utils/audioFade]) *)

Definition FADE_DURATION_MS : Z := 200.

(** Whether an audio element accepts [v] as its volume: outside [0, 1] the
    setter raises an [IndexSizeError]. *)
Definition volume_accepted (v : Q) : bool := Qle_bool 0 v && Qle_bool v 1.

(** How a firing of the interval callback ends: the interval stays set and
    fires again (the fade is not over, or an assignment raised before
    [clearInterval]); the interval was cleared and the final assignment
    raised, so the promise stays pending; the interval was cleared and the
    promise resolved. *)
Inductive TickEnd := TickAgain | TickCleared | TickResolved.

(** One firing of the interval callback at clock reading [now]: the values
    written to [audio.volume], in order, and how the firing ends.  An
    assignment that raises ends the callback. *)
Definition fadeTick (startVolume endVolume : Q) (startTime now : Z) : list Q * TickEnd :=
  let elapsed := (now - startTime)%Z in
  let progress := Qmin (inject_Z elapsed / inject_Z FADE_DURATION_MS) 1 in
  (* Linear fade *)
  let currentVolume := startVolume + (endVolume - startVolume) * progress in
  if volume_accepted currentVolume then
    if Qle_bool 1 progress then
      if volume_accepted endVolume
      then ([currentVolume; endVolume], TickResolved)
      else ([currentVolume], TickCleared)
    else ([currentVolume], TickAgain)
  else ([], TickAgain).

(** The interval, fired at the successive clock readings [clock] until it
    is cleared: the values written, and whether the promise resolved. *)
Fixpoint fadeInterval (startVolume endVolume : Q) (startTime : Z) (clock : list Z)
  : list Q * bool :=
  match clock with
  | [] => ([], false)
  | now :: later =>
      let '(writes, tickEnd) := fadeTick startVolume endVolume startTime now in
      match tickEnd with
      | TickResolved => (writes, true)
      | TickCleared => (writes, false)
      | TickAgain =>
          let '(more, finished) := fadeInterval startVolume endVolume startTime later in
          (writes ++ more, finished)
      end
  end.

Definition fadeIn (targetVolume : Q) (startTime : Z) (clock : list Z) : list Q * bool :=
  fadeInterval 0 targetVolume startTime clock.

Definition fadeOut (audio : Audio) (startTime : Z) (clock : list Z) : list Q * bool :=
  fadeInterval (audio_volume audio) 0 startTime clock.

(** The audio element after the writes of a fade. *)
Definition apply_writes (writes : list Q) (audio : Audio) : Audio :=
  foldl (λ a v, audio_set_volume v a) audio writes.

(** ** Reading a member *)

(** The [SavedSound] object of a resolved member, [savedSoundsMap.get(id)]. *)
Definition memberSound `{Runtime} (st : Store) (id : string) : option SavedSound :=
  match assoc_get id (savedSoundsMap st) with
  | Some ref => savedSoundObjects st !! ref
  | None => None
  end.

(** The volume and loop flag of a member as the provider reads them:
    [soundMetadata?.volume ?? sound.volume ?? 100] and
    [soundMetadata?.loop ?? false]. *)
Definition memberVolume `{Runtime} (st : Store) (id : string) : Q :=
  default (default 100 (memberSound st id ≫= saved_volume))
    (metadataRef st !! id ≫= md_volume).

Definition memberLoop (st : Store) (id : string) : bool :=
  default false (metadataRef st !! id ≫= md_loop).

(** The audio element of a resolved member, [savedSoundsMap.get(id).audio]. *)
Definition memberAudio `{Runtime} (st : Store) (id : string) : option Audio :=
  match memberSound st id with
  | Some sound => audios st !! saved_audio sound
  | None => None
  end.

(** ** Playing and pausing ([SoundTile.tsx], [pauseAllSounds]) *)

Definition audio_play (a : Audio) : Audio :=
  {| audio_src := audio_src a; audio_volume := audio_volume a;
     audio_loop := audio_loop a; audio_paused := false |}.

(** [await fadeOut(audio); audio.pause()]: the pause is reached only when
    the fade resolves. *)
Definition fadeOutThenPause (startTime : Z) (clock : list Z) (a : Audio) : Audio :=
  let '(writes, resolved) := fadeOut a startTime clock in
  let faded := apply_writes writes a in
  if resolved then audio_pause faded else faded.

(** [handleToggle] of a sound tile.  A paused sound is set to volume 0 and
    played; [played] tells whether the promise of [play()] resolves.  When
    it does, the sound is faded in to its effective volume.  When it is
    rejected (the browser does not allow playback, the source is not
    supported), the [catch] branch logs the error and resets the state of
    the tile, and the element stays paused at volume 0.  A playing sound is
    faded out and paused. *)
Definition handleToggle `{Runtime} (soundId : string) (played : bool) (startTime : Z)
    (clock : list Z) (st : Store) : Store :=
  match memberSound st soundId with
  | None => st
  | Some sound =>
      match audios st !! saved_audio sound with
      | None => st
      | Some audio =>
          if audio_paused audio then
            let targetVolume :=
              effectiveVolume (default 100 (saved_volume sound)) (masterVolume st) in
            if played then
              write_audio
                (λ a, apply_writes (fadeIn targetVolume startTime clock).1
                        (audio_play (audio_set_volume 0 a)))
                (saved_audio sound) st
            else write_audio (audio_set_volume 0) (saved_audio sound) st
          else write_audio (fadeOutThenPause startTime clock) (saved_audio sound) st
      end
  end.

(** [pauseAllSounds]: every playing sound of the resolved map is faded out
    and then paused; the fades see the same clock readings. *)
Definition pauseAllSounds `{Runtime} (startTime : Z) (clock : list Z) (st : Store) : Store :=
  foldl
    (λ s entry,
       write_sound_audio
         (λ a, if audio_paused a then a else fadeOutThenPause startTime clock a)
         entry.2 s)
    st (savedSoundsMap st).

(** ** The drag-and-drop handler ([App.tsx]) *)

(** [array.indexOf(x)]: the first index that holds [x]; [None] stands for
    the result -1. *)
Fixpoint indexOf (x : string) (array : list string) : option nat :=
  match array with
  | [] => None
  | y :: rest => if decide (y = x) then Some 0%nat else S <$> indexOf x rest
  end.

(** The number [indexOf] returns. *)
Definition index_number (index : option nat) : Z :=
  from_option Z.of_nat (-1)%Z index.

(** [arrayMove(array, from, to)] of the sortable preset of dnd-kit, which
    is not part of the repository: on a copy of the array, the element at
    [from] is spliced out and spliced back in at index [to].  The handler
    calls it with two indices of the array. *)
Definition arrayMove (array : list string) (from to : nat) : list string :=
  match array !! from with
  | Some moved =>
      let rest := delete from array in
      take to rest ++ moved :: drop to rest
  | None => array
  end.

(** [active.data.current] as the two draggables of the app set it: a
    library item carries its sound, a saved-sound tile its id. *)
Inductive DragData :=
  | LibrarySoundData (sound : Sound)
  | SavedSoundData (soundId : string)
  | OtherDragData.

(** The part of a [DragEndEvent] the handler reads: the data of the active
    item, and the id of the droppable under it, if any. *)
Record DragEndEvent := {
  active_data : DragData;
  over_id : option string
}.

(** [handleDragEnd] as a function on the store (the two resets of the
    overlay state of [App] are local to that component). *)
Definition handleDragEnd `{Runtime} (event : DragEndEvent) (st : Store) : Store :=
  match over_id event with
  | None => st
  | Some overIdStr =>
      let ids := savedSoundIds st in
      (* Handle dragging from library to saved sounds *)
      let added :=
        match active_data event with
        | LibrarySoundData sound =>
            let isDroppingOnZone := bool_decide (overIdStr = "saved-sounds-drop-zone") in
            let isDroppingOnSavedSound := bool_decide (overIdStr ∈ ids) in
            if (isDroppingOnZone || isDroppingOnSavedSound)
               && negb (bool_decide (sound_id sound ∈ ids))
            then
              let insertIndex :=
                if isDroppingOnSavedSound
                then Some (index_number (indexOf overIdStr ids))
                else None in
              Some (addSound (sound_id sound) sound insertIndex st)
            else None
        | _ => None
        end in
      match added with
      | Some st' => st'
      | None =>
          match active_data event with
          | SavedSoundData savedSoundId =>
              (* Handle dragging from saved sounds to master list *)
              if negb (bool_decide (savedSoundId = EmptyString))
                 && bool_decide (overIdStr = "master-list-drop-zone")
              then removeSound savedSoundId st
              (* Handle reordering within saved sounds *)
              else if bool_decide (overIdStr ∈ ids) then
                match indexOf savedSoundId ids, indexOf overIdStr ids with
                | Some oldIndex, Some newIndex =>
                    if bool_decide (oldIndex ≠ newIndex)
                    then reorderSounds (arrayMove ids oldIndex newIndex) st
                    else st
                | _, _ => st
                end
              else st
          | _ => st
          end
      end
  end.

(** ** A library item ([LibrarySoundItem.tsx]) *)

(** The local state of a library item: its three state variables, and the
    audio element behind [audioRef], which is created by the first toggle.
    The item previews its sound on an element of its own. *)
Record LibraryItem := {
  item_isPlaying : bool;
  item_volume : Q;
  item_isLooping : bool;
  item_audio : option Audio
}.

(** The state of a newly mounted item. *)
Definition newLibraryItem : LibraryItem :=
  {| item_isPlaying := false; item_volume := 100; item_isLooping := false;
     item_audio := None |}.

Module LibrarySoundItem.

(** The effect that depends on [masterVolume], [volume] and [isPlaying]. *)
Definition volumeEffect (masterVolume : Q) (item : LibraryItem) : LibraryItem :=
  if item_isPlaying item
  then {| item_isPlaying := item_isPlaying item; item_volume := item_volume item;
          item_isLooping := item_isLooping item;
          item_audio :=
            audio_set_volume (effectiveVolume (item_volume item) masterVolume)
              <$> item_audio item |}
  else item.

(** The effect that depends on [isLooping]. *)
Definition loopEffect (item : LibraryItem) : LibraryItem :=
  {| item_isPlaying := item_isPlaying item; item_volume := item_volume item;
     item_isLooping := item_isLooping item;
     item_audio := audio_set_loop (item_isLooping item) <$> item_audio item |}.

(** [handleToggle]; [played] tells whether the promise of [play()]
    resolves.  The state setter after a fade is reached only when the fade
    resolves; it is followed by the volume effect, since [isPlaying]
    changed.  When [play()] is rejected, the [catch] branch logs the error
    and calls [setIsPlaying(false)], which changes nothing: the item stays
    not playing, with its element as the first lines of the handler left
    it. *)
Definition handleToggle `{Runtime} (url : string) (masterVolume : Q) (played : bool)
    (startTime : Z) (clock : list Z) (item : LibraryItem) : LibraryItem :=
  let audio :=
    match item_audio item with
    | None => audio_set_loop (item_isLooping item) (audio_set_volume 0 (newAudio url))
    | Some current => audio_set_loop (item_isLooping item) current
    end in
  if item_isPlaying item then
    (* Fade out on pause *)
    let '(writes, resolved) := fadeOut audio startTime clock in
    let faded := apply_writes writes audio in
    if resolved
    then volumeEffect masterVolume
           {| item_isPlaying := false; item_volume := item_volume item;
              item_isLooping := item_isLooping item;
              item_audio := Some (audio_pause faded) |}
    else {| item_isPlaying := item_isPlaying item; item_volume := item_volume item;
            item_isLooping := item_isLooping item; item_audio := Some faded |}
  else if played then
    (* Fade in on play - apply master volume *)
    let targetVolume := effectiveVolume (item_volume item) masterVolume in
    let '(writes, resolved) := fadeIn targetVolume startTime clock in
    let faded := apply_writes writes (audio_play audio) in
    if resolved
    then volumeEffect masterVolume
           {| item_isPlaying := true; item_volume := item_volume item;
              item_isLooping := item_isLooping item; item_audio := Some faded |}
    else {| item_isPlaying := item_isPlaying item; item_volume := item_volume item;
            item_isLooping := item_isLooping item; item_audio := Some faded |}
  else
    {| item_isPlaying := false; item_volume := item_volume item;
       item_isLooping := item_isLooping item; item_audio := Some audio |}.

(** [handleVolumeChange], followed by the volume effect. *)
Definition handleVolumeChange (masterVolume newVolume : Q) (item : LibraryItem)
  : LibraryItem :=
  volumeEffect masterVolume
    {| item_isPlaying := item_isPlaying item; item_volume := newVolume;
       item_isLooping := item_isLooping item;
       item_audio :=
         if item_isPlaying item
         then audio_set_volume (effectiveVolume newVolume masterVolume) <$> item_audio item
         else item_audio item |}.

(** [handleToggleLoop], followed by the loop effect. *)
Definition handleToggleLoop (item : LibraryItem) : LibraryItem :=
  loopEffect
    {| item_isPlaying := item_isPlaying item; item_volume := item_volume item;
       item_isLooping := negb (item_isLooping item); item_audio := item_audio item |}.

End LibrarySoundItem.

(** ** A sample runtime and sample stores *)

(** A runtime for the examples: code-point collation, a [JSON.parse] that
    knows a handful of texts and throws on every other, a serialiser of
    locators that percent-encodes spaces and resolves a path against the
    origin [https://app.example], and a storage that accepts every write. *)
Fixpoint encode_spaces (url : string) : string :=
  match url with
  | EmptyString => EmptyString
  | String c rest =>
      if Ascii.eqb c Ascii.Space then "%20" +:+ encode_spaces rest
      else String c (encode_spaces rest)
  end.

Definition sample_resolveURL (url : string) : string :=
  if String.prefix "/" url then "https://app.example" +:+ encode_spaces url
  else encode_spaces url.

Definition sample_parse (text : string) : option json :=
  if bool_decide (text = "null") then Some JNull
  else if bool_decide (text = "{}") then Some (JObj [])
  else if bool_decide (text = "[]") then Some (JArr [])
  else if bool_decide (text = "42") then Some (JNum 42)
  else None.

Definition sampleRuntime : Runtime :=
  {| localeCompare := String.compare; JSON_parse := sample_parse;
     resolveURL := sample_resolveURL; setItem_throws := λ _, false |}.

Definition emptyStore : Store :=
  {| savedSoundIds := []; masterVolume := 100; metadataRef := ∅;
     localStorage := None; audioElementRegistry := ∅; audios := [];
     savedSoundObjects := []; queryCache := ∅; nextIdentity := 0%nat;
     memoDeps := None |}.

Definition rain : Sound :=
  {| sound_id := "clip1"; sound_name := "Rain"; sound_url := "https://cdn/rain.mp3";
     sound_category := None; sound_type := None |}.

Definition wind : Sound :=
  {| sound_id := "clip2"; sound_name := "Wind"; sound_url := "https://cdn/wind.mp3";
     sound_category := None; sound_type := None |}.

Definition clip (id : string) : Sound :=
  {| sound_id := id; sound_name := id; sound_url := "https://cdn/" +:+ id;
     sound_category := None; sound_type := None |}.

(** One saved clip, as the first scenario of the specification has it. *)
Definition oneClipStore : Store :=
  @addSound sampleRuntime "clip1" rain None emptyStore.

(** The clip tuned to volume 40 and looping. *)
Definition tunedStore : Store :=
  @setSoundLoop sampleRuntime "clip1" true
    (@setSoundVolume sampleRuntime "clip1" 40 oneClipStore).

(** The session [a, b, c]. *)
Definition abcStore : Store :=
  @addSound sampleRuntime "c" (clip "c") None
    (@addSound sampleRuntime "b" (clip "b") None
       (@addSound sampleRuntime "a" (clip "a") None emptyStore)).

(** The tuned clip, playing after its fade-in. *)
Definition playingStore : Store :=
  @handleToggle sampleRuntime "clip1" true 0 [10; 100; 200]%Z tunedStore.

(** Two clips; the second was played, then paused through its tile, which
    left its element at the end of the fade-out. *)
Definition twoClipStore : Store :=
  @addSound sampleRuntime "clip2" wind None oneClipStore.

Definition secondPausedStore : Store :=
  @handleToggle sampleRuntime "clip2" true 500 [510; 700]%Z
    (@handleToggle sampleRuntime "clip2" true 0 [10; 200]%Z twoClipStore).

(** A runtime whose [JSON.parse] reads the text ["saved"] as the record that
    [saveToStorage] wrote for the tuned clip, and one that reads it as a
    record with mixed entries. *)
Definition tunedRecord : SavedSoundsStorage :=
  {| storage_savedSounds := ["clip1"];
     storage_metadata := {[ "clip1" := {| md_volume := Some 40; md_loop := Some true |} ]};
     storage_masterVolume := Some 50 |}.

Definition tunedRuntime : Runtime :=
  {| localeCompare := String.compare;
     JSON_parse := λ text,
       if bool_decide (text = "saved") then Some (storage_json tunedRecord) else None;
     resolveURL := sample_resolveURL; setItem_throws := λ _, false |}.

Definition mixedRuntime : Runtime :=
  {| localeCompare := String.compare;
     JSON_parse := λ text,
       if bool_decide (text = "saved")
       then Some (JObj [("savedSounds", JArr [JStr "a"; JNum 7; JNull; JStr "b"]);
                        ("masterVolume", JStr "loud")])
       else None;
     resolveURL := sample_resolveURL; setItem_throws := λ _, false |}.

(** The store after a reload that found the record of the tuned clip. *)
Definition restoredStore : Store :=
  @SavedSoundsProvider_mount tunedRuntime (GetItemString "saved").

(** ** Notions used in the statements *)

(** [st'] differs from [st] at most in the fields of existing audio
    elements and [SavedSound] objects. *)
Record heaps_only (st st' : Store) : Prop := {
  ho_ids : savedSoundIds st' = savedSoundIds st;
  ho_master : masterVolume st' = masterVolume st;
  ho_metadata : metadataRef st' = metadataRef st;
  ho_storage : localStorage st' = localStorage st;
  ho_registry : audioElementRegistry st' = audioElementRegistry st;
  ho_cache : queryCache st' = queryCache st;
  ho_identity : nextIdentity st' = nextIdentity st;
  ho_memo : memoDeps st' = memoDeps st;
  ho_audios : length (audios st') = length (audios st);
  ho_objects : length (savedSoundObjects st') = length (savedSoundObjects st)
}.

(** The stored record is missing, unreadable, unparseable, or parses to a
    value whose [savedSounds] field is not an array. *)
Definition record_unusable `{Runtime} (item : getItem_result) : Prop :=
  match item with
  | GetItemThrows | GetItemNull => True
  | GetItemString stored =>
      match JSON_parse stored with
      | None => True
      | Some parsed => ∀ items, json_field "savedSounds" parsed ≠ Some (JArr items)
      end
  end.

(** The progress of a fade after [elapsed] milliseconds, and the volume
    the callback computes from it. *)
Definition fadeProgress (elapsed : Z) : Q :=
  Qmin (inject_Z elapsed / inject_Z FADE_DURATION_MS) 1.

Definition fadeVolume (startVolume endVolume : Q) (elapsed : Z) : Q :=
  startVolume + (endVolume - startVolume) * fadeProgress elapsed.

(** The resolved map is well formed: every entry refers to an existing
    [SavedSound] whose [id] is its key and whose audio element exists,
    different keys have different audio elements, and the volume kept on
    the object agrees with the metadata table where the table has one. *)
Record resolved_wf `{Runtime} (st : Store) : Prop := {
  wf_keys : NoDup (savedSoundsMap st).*1;
  wf_objects :
    ∀ key ref, (key, ref) ∈ savedSoundsMap st →
      ∃ sound, savedSoundObjects st !! ref = Some sound
               ∧ saved_id sound = key
               ∧ is_Some (audios st !! saved_audio sound);
  wf_audios :
    ∀ key1 ref1 sound1 key2 ref2 sound2,
      (key1, ref1) ∈ savedSoundsMap st → (key2, ref2) ∈ savedSoundsMap st →
      savedSoundObjects st !! ref1 = Some sound1 →
      savedSoundObjects st !! ref2 = Some sound2 →
      saved_audio sound1 = saved_audio sound2 → key1 = key2;
  wf_volumes :
    ∀ key ref sound volume, (key, ref) ∈ savedSoundsMap st →
      savedSoundObjects st !! ref = Some sound →
      metadataRef st !! key ≫= md_volume = Some volume →
      saved_volume sound = Some volume
}.

(** [st'] agrees with [st] on the field [proj] of every audio element. *)
Definition keeps {B} (proj : Audio → B) (st st' : Store) : Prop :=
  ∀ r, proj <$> audios st' !! r = proj <$> audios st !! r.

(** Every object the resolved map refers to exists. *)
Definition resolved_allocated `{Runtime} (st : Store) : Prop :=
  ∀ key ref, (key, ref) ∈ savedSoundsMap st → is_Some (savedSoundObjects st !! ref).

(** The entries of a map over a heap of objects: keys are distinct, every
    entry refers to an existing object whose [id] is its key, and objects
    under different keys have different audio elements. *)
Record entries_wf (entries : list (string * nat)) (objects : list SavedSound) : Prop := {
  ewf_keys : NoDup entries.*1;
  ewf_objects :
    ∀ key ref, (key, ref) ∈ entries →
      ∃ sound, objects !! ref = Some sound ∧ saved_id sound = key;
  ewf_audios :
    ∀ key1 ref1 sound1 key2 ref2 sound2,
      (key1, ref1) ∈ entries → (key2, ref2) ∈ entries →
      objects !! ref1 = Some sound1 → objects !! ref2 = Some sound2 →
      saved_audio sound1 = saved_audio sound2 → key1 = key2
}.

(** [a] sorts before or with [b]. *)
Definition collation_le `{Runtime} (a b : string) : Prop := localeCompare a b ≠ Gt.

(** The collation is a total order on ids: equal-ranking strings are
    equal, swapping the arguments flips the result, and the order is
    transitive. *)
Record total_collation `{Runtime} : Prop := {
  collation_eq : ∀ a b, localeCompare a b = Eq → a = b;
  collation_flip : ∀ a b, localeCompare b a = CompOpp (localeCompare a b);
  collation_trans : ∀ a b c, collation_le a b → collation_le b c → collation_le a c
}.

(** The collation is a consistent comparator, as the language requires of
    [localeCompare]: swapping the arguments flips the result, and the order
    is transitive.  Different strings may rank equal. *)
Record collation_order `{Runtime} : Prop := {
  order_flip : ∀ a b, localeCompare b a = CompOpp (localeCompare a b);
  order_trans : ∀ a b c, collation_le a b → collation_le b c → collation_le a c
}.

(** The collation tells the ids of a list apart: no two different ids of
    the list rank equal. *)
Definition collation_separates `{Runtime} (ids : list string) : Prop :=
  ∀ a b, a ∈ ids → b ∈ ids → localeCompare a b = Eq → a = b.

(** The item in [localStorage] is the current session: the ordered
    sequence, the metadata table and the master volume. *)
Definition persisted (st : Store) : Prop :=
  ∃ data master,
    localStorage st = Some data
    ∧ storage_savedSounds data = savedSoundIds st
    ∧ storage_metadata data = metadataRef st
    ∧ storage_masterVolume data = Some master
    ∧ master == masterVolume st.

(** A volume on the scale of the sliders.  With the volume of a sound and
    the master volume on that scale, the volume the provider applies is one
    that an audio element accepts. *)
Definition volume_in_range (volume : Q) : Prop := 0 <= volume <= 100.

(** Every volume the metadata table records is on the scale of the
    sliders. *)
Definition metadata_in_range (st : Store) : Prop :=
  ∀ id volume, metadataRef st !! id ≫= md_volume = Some volume → volume_in_range volume.

(** The volumes the session holds are on the scale of the sliders: the
    master volume, the volume of every [SavedSound] object, and every volume
    the metadata table records.  From such a store, no volume that a
    mutator or the re-render applies is refused by an audio element. *)
Record session_in_range (st : Store) : Prop := {
  range_master : volume_in_range (masterVolume st);
  range_objects :
    ∀ ref sound volume, savedSoundObjects st !! ref = Some sound →
      saved_volume sound = Some volume → volume_in_range volume;
  range_metadata : metadata_in_range st
}.



(** The registry is well formed: every registered audio element exists,
    and no audio element is registered for two ids. *)
Record registry_wf (st : Store) : Prop := {
  rwf_allocated :
    ∀ id audio, audioElementRegistry st !! id = Some audio →
      (audio < length (audios st))%nat;
  rwf_distinct :
    ∀ id1 id2 audio,
      audioElementRegistry st !! id1 = Some audio →
      audioElementRegistry st !! id2 = Some audio → id1 = id2
}.

(** [st'] has the registry of [st] and as many audio elements. *)
Definition registry_kept (st st' : Store) : Prop :=
  audioElementRegistry st' = audioElementRegistry st
  ∧ length (audios st') = length (audios st).

(** What the re-render never changes of a [SavedSound] object: everything
    but its volume. *)
Definition saved_identity (sound : SavedSound) : string * string * string * nat :=
  (saved_id sound, saved_name sound, saved_url sound, saved_audio sound).

(** The identity the last [useMemo] run saw is that of a map created
    before now. *)
Definition memo_behind (st : Store) : Prop :=
  ∀ identity master, memoDeps st = Some (Some identity, master) →
    (identity < nextIdentity st)%nat.

(** [s] has the session, the stored item, the query cache and the memo state
    of [st]. *)
Record same_session (st s : Store) : Prop := {
  ss_ids : savedSoundIds s = savedSoundIds st;
  ss_master : masterVolume s = masterVolume st;
  ss_metadata : metadataRef s = metadataRef st;
  ss_storage : localStorage s = localStorage st;
  ss_cache : queryCache s = queryCache st;
  ss_identity : nextIdentity s = nextIdentity st;
  ss_memo : memoDeps s = memoDeps st
}.

(** The map built by the query function so far, over the store [s]: keys
    are distinct, and every entry refers to an object whose id is its key
    and whose audio element is the one registered for that id. *)
Record fetched_wf (s : Store) (entries : list (string * nat)) : Prop := {
  fwf_registry : registry_wf s;
  fwf_keys : NoDup entries.*1;
  fwf_objects :
    ∀ key ref, (key, ref) ∈ entries →
      ∃ sound, savedSoundObjects s !! ref = Some sound
               ∧ saved_id sound = key
               ∧ audioElementRegistry s !! key = Some (saved_audio sound)
}.

(** The last [useMemo] run saw the current query data and the current
    master volume, as is the case after every render. *)
Definition memo_in_sync `{Runtime} (st : Store) : Prop :=
  ∃ master, memoDeps st = Some (map_identity <$> savedSoundsMapData st, master)
            ∧ master == masterVolume st.

(** A library item that is marked as playing has an audio element, which
    is playing at the item's volume scaled by the master volume. *)
Definition item_law (masterVolume : Q) (item : LibraryItem) : Prop :=
  item_isPlaying item = true →
  ∃ audio, item_audio item = Some audio
           ∧ audio_paused audio = false
           ∧ audio_volume audio = effectiveVolume (item_volume item) masterVolume.

(** The [SavedSound] a cached map holds for an id: the entry of the map
    stored under [key], and the object it refers to. *)
Definition cachedSound (key : list string) (id : string) (st : Store) : option SavedSound :=
  assoc_get id (cachedEntries key st) ≫= (λ ref, savedSoundObjects st !! ref).

(** * Properties *)

(** ** Frame properties: what the loops over the resolved map leave alone *)

Lemma heaps_only_refl st : heaps_only st st.
Proof. by split. Qed.

Lemma heaps_only_trans st1 st2 st3 :
  heaps_only st1 st2 → heaps_only st2 st3 → heaps_only st1 st3.
Proof. intros [] []; split; congruence. Qed.

Lemma write_audio_heaps_only f audio st : heaps_only st (write_audio f audio st).
Proof. split; try done. cbn. by rewrite length_alter. Qed.

Lemma write_saved_heaps_only f ref st : heaps_only st (write_saved f ref st).
Proof. split; try done. cbn. by rewrite length_alter. Qed.

Lemma write_sound_audio_heaps_only f ref st : heaps_only st (write_sound_audio f ref st).
Proof.
  unfold write_sound_audio. destruct (savedSoundObjects st !! ref).
  - apply write_audio_heaps_only.
  - apply heaps_only_refl.
Qed.

Lemma foldl_heaps_only {A} (step : Store → A → Store) (items : list A) st :
  (∀ s x, heaps_only s (step s x)) → heaps_only st (foldl step st items).
Proof.
  intros Hstep. revert st. induction items as [|x items IH]; intros st; cbn.
  - apply heaps_only_refl.
  - eapply heaps_only_trans; [apply Hstep | apply IH].
Qed.

Lemma applyMetadata_heaps_only master st entry :
  heaps_only st (applyMetadata master st entry).
Proof.
  unfold applyMetadata. destruct (savedSoundObjects st !! entry.2).
  - eapply heaps_only_trans; [|apply write_audio_heaps_only].
    eapply heaps_only_trans; [|apply write_audio_heaps_only].
    apply write_saved_heaps_only.
  - apply heaps_only_refl.
Qed.

Lemma updateCached_heaps_only `{Runtime} id write st :
  (∀ ref s, heaps_only s (write ref s)) → heaps_only st (updateCached id write st).
Proof.
  intros Hw. unfold updateCached.
  destruct (queryCache st !! _); [|apply heaps_only_refl].
  destruct (assoc_get _ _); [apply Hw | apply heaps_only_refl].
Qed.

Lemma applyMaster_heaps_only `{Runtime} volume st entry :
  heaps_only st (applyMaster volume st entry).
Proof.
  unfold applyMaster. destruct (savedSoundObjects st !! entry.2).
  - eapply heaps_only_trans; [apply write_audio_heaps_only|].
    apply updateCached_heaps_only. intros. apply write_sound_audio_heaps_only.
  - apply heaps_only_refl.
Qed.

(** The re-render leaves the session (ids, master volume, metadata), the
    registry and the query cache as they are. *)
Lemma render_session `{Runtime} changed st :
  savedSoundIds (render changed st) = savedSoundIds st
  ∧ masterVolume (render changed st) = masterVolume st
  ∧ metadataRef (render changed st) = metadataRef st
  ∧ queryCache (render changed st) = queryCache st
  ∧ audioElementRegistry (render changed st) = audioElementRegistry st.
Proof.
  pose proof (foldl_heaps_only (applyMetadata (masterVolume st)) (savedSoundsMap st) st
                (applyMetadata_heaps_only _)) as [].
  unfold render.
  destruct (match memoDeps st with Some _ => _ | None => _ end), changed; cbn; done.
Qed.

(** The cache helpers touch neither the session nor the stored record. *)
Lemma getOrCreateAudioElement_session `{Runtime} soundId url st :
  let st' := (getOrCreateAudioElement soundId url st).2 in
  savedSoundIds st' = savedSoundIds st ∧ masterVolume st' = masterVolume st
  ∧ metadataRef st' = metadataRef st ∧ localStorage st' = localStorage st
  ∧ queryCache st' = queryCache st ∧ savedSoundObjects st' = savedSoundObjects st
  ∧ nextIdentity st' = nextIdentity st.
Proof.
  unfold getOrCreateAudioElement.
  destruct (audioElementRegistry st !! soundId); [case_bool_decide|]; cbn; done.
Qed.

Lemma addSoundToCachedMap_session `{Runtime} sound currentIds metadata st :
  let st' := addSoundToCachedMap sound currentIds metadata st in
  savedSoundIds st' = savedSoundIds st ∧ masterVolume st' = masterVolume st
  ∧ metadataRef st' = metadataRef st ∧ localStorage st' = localStorage st.
Proof.
  unfold addSoundToCachedMap.
  destruct (assoc_get _ _ ≫= _) as [existing|].
  - case_bool_decide; cbn; done.
  - pose proof (getOrCreateAudioElement_session (sound_id sound) (sound_url sound) st) as Hg.
    destruct (getOrCreateAudioElement _ _ st) as [audio st0]. cbn in Hg.
    destruct Hg as (? & ? & ? & ? & _).
    case_bool_decide; cbn; done.
Qed.

Lemma removeSoundFromCachedMap_session `{Runtime} soundId currentIds st :
  let st' := removeSoundFromCachedMap soundId currentIds st in
  savedSoundIds st' = savedSoundIds st ∧ masterVolume st' = masterVolume st
  ∧ metadataRef st' = metadataRef st ∧ localStorage st' = localStorage st.
Proof.
  unfold removeSoundFromCachedMap.
  destruct (audioElementRegistry st !! soundId); case_bool_decide; cbn; done.
Qed.

(** The ordered sequence after each mutator. *)
Lemma addSound_ids `{Runtime} id sound index st :
  savedSoundIds (addSound id sound index st) =
    if bool_decide (id ∈ savedSoundIds st) then savedSoundIds st
    else match index with
         | Some i =>
             if bool_decide (0 ≤ i ∧ i ≤ Z.of_nat (length (savedSoundIds st)))%Z
             then splice_in (Z.to_nat i) id (savedSoundIds st)
             else savedSoundIds st ++ [id]
         | None => savedSoundIds st ++ [id]
         end.
Proof.
  unfold addSound. case_bool_decide; [done|].
  by rewrite (proj1 (render_session _ _)).
Qed.

Lemma addSound_metadata `{Runtime} id sound index st :
  metadataRef (addSound id sound index st) = metadataRef st.
Proof.
  unfold addSound. case_bool_decide; [done|].
  rewrite (proj1 (proj2 (proj2 (render_session _ _)))). cbn.
  apply addSoundToCachedMap_session.
Qed.

Lemma removeSound_ids `{Runtime} id st :
  savedSoundIds (removeSound id st) = filter (λ soundId, soundId ≠ id) (savedSoundIds st).
Proof. unfold removeSound. by rewrite (proj1 (render_session _ _)). Qed.

Lemma removeSound_metadata `{Runtime} id st :
  metadataRef (removeSound id st) = delete id (metadataRef st).
Proof.
  unfold removeSound. rewrite (proj1 (proj2 (proj2 (render_session _ _)))). cbn.
  f_equal. apply removeSoundFromCachedMap_session.
Qed.

Lemma reorderSounds_ids `{Runtime} ids st : savedSoundIds (reorderSounds ids st) = ids.
Proof. unfold reorderSounds. by rewrite (proj1 (render_session _ _)). Qed.

Lemma clearAllSounds_ids `{Runtime} st : savedSoundIds (clearAllSounds st) = [].
Proof. unfold clearAllSounds. by rewrite (proj1 (render_session _ _)). Qed.

Lemma clearAllSounds_metadata `{Runtime} st : metadataRef (clearAllSounds st) = ∅.
Proof. unfold clearAllSounds. by rewrite (proj1 (proj2 (proj2 (render_session _ _)))). Qed.

Lemma updateCached_ids `{Runtime} id write st :
  (∀ ref s, heaps_only s (write ref s)) →
  savedSoundIds (updateCached id write st) = savedSoundIds st.
Proof. intros Hw. by destruct (updateCached_heaps_only id write st Hw). Qed.

Lemma setSoundVolume_ids `{Runtime} id volume st :
  savedSoundIds (setSoundVolume id volume st) = savedSoundIds st.
Proof.
  unfold setSoundVolume. destruct (assoc_get id (savedSoundsMap st)) as [sound|]; [|done].
  cbn. rewrite updateCached_ids.
  - cbn. by destruct (write_sound_audio_heaps_only
             (audio_set_volume (effectiveVolume volume (masterVolume st))) sound
             (write_saved (saved_set_volume volume) sound st)).
  - intros. eapply heaps_only_trans;
      [apply write_saved_heaps_only | apply write_sound_audio_heaps_only].
Qed.

Lemma setSoundLoop_ids `{Runtime} id loop st :
  savedSoundIds (setSoundLoop id loop st) = savedSoundIds st.
Proof.
  unfold setSoundLoop. destruct (assoc_get id (savedSoundsMap st)) as [sound|]; [|done].
  cbn. rewrite updateCached_ids.
  - cbn. by destruct (write_sound_audio_heaps_only (audio_set_loop loop) sound st).
  - intros. apply write_sound_audio_heaps_only.
Qed.

Lemma setMasterVolume_handler_heaps `{Runtime} volume st :
  heaps_only st (foldl (applyMaster volume) st (savedSoundsMap st)).
Proof. apply foldl_heaps_only. intros. apply applyMaster_heaps_only. Qed.

Lemma setMasterVolume_ids `{Runtime} volume st :
  savedSoundIds (setMasterVolume volume st) = savedSoundIds st.
Proof.
  unfold setMasterVolume. destruct (setMasterVolume_handler_heaps volume st).
  destruct (Qeq_bool _ _); [done|].
  by rewrite (proj1 (render_session _ _)).
Qed.

(** ** The ordered sequence *)

(** C5 (idempotent add).  Adding an id that is already in the ordered
    sequence leaves the ordered sequence and the metadata table unchanged;
    in fact the whole store is left as it is, for every hint and every
    insertion index. *)
Theorem addSound_idempotent `{Runtime} (id : string) (sound : Sound) (index : option Z)
    (st : Store) :
  id ∈ savedSoundIds st →
  savedSoundIds (addSound id sound index st) = savedSoundIds st
  ∧ metadataRef (addSound id sound index st) = metadataRef st
  ∧ addSound id sound index st = st.
Proof.
  intros Hmember. unfold addSound. by rewrite bool_decide_eq_true_2.
Qed.

Lemma addSound_idempotent_witness :
  @addSound sampleRuntime "clip1" wind (Some 0%Z) oneClipStore = oneClipStore.
Proof.
  apply (@addSound_idempotent sampleRuntime "clip1" wind (Some 0%Z) oneClipStore).
  vm_compute. apply list_elem_of_here.
Defined.

(** C10 (setters on an unresolved id).  When [id] is not in the resolved
    saved-sounds map, [setSoundVolume] and [setSoundLoop] return the store
    untouched: ordered sequence, metadata table, master volume and stored
    record are all as before. *)
Theorem setters_ignore_unresolved `{Runtime} (id : string) (volume : Q) (loop : bool)
    (st : Store) :
  assoc_get id (savedSoundsMap st) = None →
  (setSoundVolume id volume st = st ∧ setSoundLoop id loop st = st)
  ∧ (∀ st', st' = setSoundVolume id volume st ∨ st' = setSoundLoop id loop st →
       savedSoundIds st' = savedSoundIds st ∧ metadataRef st' = metadataRef st
       ∧ masterVolume st' = masterVolume st ∧ localStorage st' = localStorage st).
Proof.
  intros Hunresolved. unfold setSoundVolume, setSoundLoop. rewrite Hunresolved.
  split; [done|]. by intros st' [-> | ->].
Qed.

Lemma setters_ignore_unresolved_witness :
  @setSoundVolume sampleRuntime "clip2" 40 oneClipStore = oneClipStore
  ∧ @setSoundLoop sampleRuntime "clip2" true oneClipStore = oneClipStore.
Proof.
  apply (@setters_ignore_unresolved sampleRuntime "clip2" 40 true oneClipStore).
  vm_compute. reflexivity.
Defined.

(** C2, as the code has it.  [reorderSounds] installs the sequence it is
    given, whatever it is: for every store and every list of ids the ordered
    sequence afterwards is exactly that list, a permutation of the
    current members or not. *)
Theorem reorderSounds_installs `{Runtime} (ids : list string) (st : Store) :
  savedSoundIds (reorderSounds ids st) = ids.
Proof. apply reorderSounds_ids. Qed.

(** C2, the counterexample: on the session [a, b, c] the non-permutation
    [x, a, c] is not rejected; it becomes the ordered sequence. *)
Lemma reorderSounds_accepts_non_permutation :
  savedSoundIds abcStore = ["a"; "b"; "c"]
  ∧ ¬ ["x"; "a"; "c"] ≡ₚ savedSoundIds abcStore
  ∧ savedSoundIds (@reorderSounds sampleRuntime ["x"; "a"; "c"] abcStore) = ["x"; "a"; "c"]
  ∧ savedSoundIds (@reorderSounds sampleRuntime ["x"; "a"; "c"] abcStore)
    ≠ savedSoundIds abcStore.
Proof.
  assert (savedSoundIds abcStore = ["a"; "b"; "c"]) as Habc by (vm_compute; reflexivity).
  rewrite reorderSounds_ids, Habc. repeat split; [|discriminate].
  intros Hperm.
  assert ("x" ∈ ["a"; "b"; "c"]) as Hx by (rewrite <- Hperm; apply list_elem_of_here).
  repeat (apply elem_of_cons in Hx as [Hx|Hx]; [discriminate|]).
  by apply elem_of_nil in Hx.
Qed.

Lemma splice_in_Permutation index id prev : splice_in index id prev ≡ₚ id :: prev.
Proof.
  unfold splice_in. rewrite <- Permutation_middle. by rewrite take_drop.
Qed.

Lemma addSound_NoDup `{Runtime} id sound index st :
  NoDup (savedSoundIds st) → NoDup (savedSoundIds (addSound id sound index st)).
Proof.
  intros Hnodup. rewrite addSound_ids. case_bool_decide as Hin; [done|].
  assert (NoDup (savedSoundIds st ++ [id])) as Happend.
  { apply NoDup_app. split_and!; [done| |apply NoDup_singleton].
    intros x Hx ->%list_elem_of_singleton. done. }
  destruct index as [i|]; [|done]. case_bool_decide; [|done].
  rewrite splice_in_Permutation. by apply NoDup_cons.
Qed.

(** C3, as the code has it.  From a store whose ordered sequence has no
    duplicate, [addSound], [removeSound], [setSoundVolume], [setSoundLoop],
    [setMasterVolume] and [clearAllSounds] yield a store whose ordered
    sequence has no duplicate.  [reorderSounds] installs its argument
    unchecked: its result is free of duplicates exactly when the argument
    is, which covers every permutation of the current sequence. *)
Theorem mutators_keep_ids_distinct `{Runtime} (st : Store) :
  NoDup (savedSoundIds st) →
  (∀ id sound index, NoDup (savedSoundIds (addSound id sound index st)))
  ∧ (∀ id, NoDup (savedSoundIds (removeSound id st)))
  ∧ (∀ id volume, NoDup (savedSoundIds (setSoundVolume id volume st)))
  ∧ (∀ id loop, NoDup (savedSoundIds (setSoundLoop id loop st)))
  ∧ (∀ volume, NoDup (savedSoundIds (setMasterVolume volume st)))
  ∧ NoDup (savedSoundIds (clearAllSounds st))
  ∧ (∀ ids, NoDup (savedSoundIds (reorderSounds ids st)) ↔ NoDup ids)
  ∧ (∀ ids, ids ≡ₚ savedSoundIds st → NoDup (savedSoundIds (reorderSounds ids st))).
Proof.
  intros Hnodup. split_and!.
  - intros. by apply addSound_NoDup.
  - intros. rewrite removeSound_ids. by apply NoDup_filter.
  - intros. by rewrite setSoundVolume_ids.
  - intros. by rewrite setSoundLoop_ids.
  - intros. by rewrite setMasterVolume_ids.
  - rewrite clearAllSounds_ids. apply NoDup_nil_2.
  - intros. by rewrite reorderSounds_ids.
  - intros ids Hperm. rewrite reorderSounds_ids. by rewrite Hperm.
Qed.

Lemma mutators_keep_ids_distinct_witness :
  NoDup (savedSoundIds (@addSound sampleRuntime "d" (clip "d") (Some 1%Z) abcStore)).
Proof.
  refine (proj1 (@mutators_keep_ids_distinct sampleRuntime abcStore _)
            "d" (clip "d") (Some 1%Z)).
  vm_compute. repeat (apply NoDup_cons; split; [by repeat (apply not_elem_of_cons; split; [discriminate|]); apply not_elem_of_nil|]).
  apply NoDup_nil_2.
Defined.

(** C3, the counterexample: the ordered sequence of the one-clip session
    has no duplicate, and [reorderSounds] turns it into [clip1, clip1]. *)
Lemma reorderSounds_introduces_duplicate :
  NoDup (savedSoundIds oneClipStore)
  ∧ savedSoundIds (@reorderSounds sampleRuntime ["clip1"; "clip1"] oneClipStore)
    = ["clip1"; "clip1"]
  ∧ ¬ NoDup (savedSoundIds (@reorderSounds sampleRuntime ["clip1"; "clip1"] oneClipStore)).
Proof.
  rewrite reorderSounds_ids. split_and!.
  - vm_compute. apply NoDup_singleton.
  - done.
  - intros [Hnotin _]%NoDup_cons. apply Hnotin, list_elem_of_here.
Qed.

(** ** Startup *)

Lemma mount_session `{Runtime} item :
  savedSoundIds (SavedSoundsProvider_mount item) = stored_savedSounds (getStoredSounds item)
  ∧ masterVolume (SavedSoundsProvider_mount item) = stored_masterVolume (getStoredSounds item)
  ∧ metadataRef (SavedSoundsProvider_mount item)
    = metadata_table (stored_metadata (getStoredSounds item)).
Proof.
  unfold SavedSoundsProvider_mount.
  destruct (render_session true
    {| savedSoundIds := stored_savedSounds (getStoredSounds item);
       masterVolume := stored_masterVolume (getStoredSounds item);
       metadataRef := metadata_table (stored_metadata (getStoredSounds item));
       localStorage := None; audioElementRegistry := ∅; audios := [];
       savedSoundObjects := []; queryCache := ∅; nextIdentity := 0%nat;
       memoDeps := None |}) as (-> & -> & -> & _).
  done.
Qed.

(** C9 (startup with a missing or malformed record).  [getStoredSounds]
    is a total function of what [localStorage.getItem] and [JSON.parse] do,
    so startup always proceeds; when the record is missing or fails
    validation it returns the defaults, and the provider mounts with an
    empty ordered sequence, an empty metadata table and master volume
    100. *)
Theorem startup_defaults `{Runtime} (item : getItem_result) :
  record_unusable item →
  getStoredSounds item = defaultStoredSounds
  ∧ savedSoundIds (SavedSoundsProvider_mount item) = []
  ∧ metadataRef (SavedSoundsProvider_mount item) = ∅
  ∧ masterVolume (SavedSoundsProvider_mount item) = 100.
Proof.
  intros Hbad.
  assert (getStoredSounds item = defaultStoredSounds) as Hdefault.
  { destruct item as [| |stored]; cbn in *; try done.
    case_bool_decide; [done|].
    destruct (JSON_parse stored) as [parsed|]; [|done].
    destruct (json_truthy parsed); [|done].
    destruct (json_field "savedSounds" parsed) as [[]|] eqn:Hfield; try done.
    by destruct (Hbad items). }
  split; [done|].
  destruct (mount_session item) as (-> & -> & ->). by rewrite Hdefault.
Qed.

Lemma startup_defaults_witness :
  @getStoredSounds sampleRuntime (GetItemString "42") = defaultStoredSounds
  ∧ savedSoundIds (@SavedSoundsProvider_mount sampleRuntime (GetItemString "42")) = []
  ∧ metadataRef (@SavedSoundsProvider_mount sampleRuntime (GetItemString "42")) = ∅
  ∧ masterVolume (@SavedSoundsProvider_mount sampleRuntime (GetItemString "42")) = 100.
Proof.
  apply (@startup_defaults sampleRuntime (GetItemString "42")).
  cbn. intros items. discriminate.
Defined.

(** ** The registry *)

Lemma lookup_snoc_fresh {A} (heap : list A) (x : A) : (heap ++ [x]) !! length heap = Some x.
Proof. rewrite lookup_app_r by done. by rewrite Nat.sub_diag. Qed.

(** After a call the returned element is the registered one; its [src] is
    the requested locator when the registered element was kept, and the
    serialised locator when the element was created by the call. *)
Lemma getOrCreateAudioElement_registered `{Runtime} soundId url st :
  let result := getOrCreateAudioElement soundId url st in
  audioElementRegistry result.2 !! soundId = Some result.1
  ∧ ∃ element, audios result.2 !! result.1 = Some element
               ∧ (audio_src element = url ∨ element = newAudio url).
Proof.
  unfold getOrCreateAudioElement.
  destruct (audioElementRegistry st !! soundId) as [old|] eqn:Hreg;
    [case_bool_decide as Hsrc|]; cbn.
  - split; [done|]. destruct (audios st !! old) as [element|]; [|done].
    exists element. split; [done|]. left. cbn in Hsrc. congruence.
  - rewrite lookup_insert_eq, lookup_snoc_fresh. eauto.
  - rewrite lookup_insert_eq, lookup_snoc_fresh. eauto.
Qed.

Lemma getOrCreateAudioElement_hit `{Runtime} soundId url audio st :
  audioElementRegistry st !! soundId = Some audio →
  audio_src <$> audios st !! audio = Some url →
  getOrCreateAudioElement soundId url st = (audio, st).
Proof.
  intros Hreg Hsrc. unfold getOrCreateAudioElement. rewrite Hreg.
  by rewrite bool_decide_eq_true_2.
Qed.

(** A call that does not find an element whose [src] is the locator
    allocates a new element, registers it, and pauses the element that was
    registered, if there was one. *)
Lemma getOrCreateAudioElement_miss `{Runtime} soundId url st :
  audio_src <$> (audioElementRegistry st !! soundId ≫= λ old, audios st !! old) ≠ Some url →
  let result := getOrCreateAudioElement soundId url st in
  result.1 = length (audios st)
  ∧ audios result.2 !! result.1 = Some (newAudio url)
  ∧ audioElementRegistry result.2 !! soundId = Some result.1
  ∧ ∀ r, r ≠ result.1 →
      audios result.2 !! r
      = (if bool_decide (audioElementRegistry st !! soundId = Some r)
         then audio_pause else id) <$> audios st !! r.
Proof.
  intros Hsrc. unfold getOrCreateAudioElement.
  destruct (audioElementRegistry st !! soundId) as [old|] eqn:Hreg; cbn in Hsrc |- *.
  - rewrite bool_decide_eq_false_2 by done. cbn. rewrite length_alter. split_and!.
    + done.
    + rewrite <- (length_alter audio_pause (audios st) old). apply lookup_snoc_fresh.
    + apply lookup_insert_eq.
    + intros r Hr. destruct (decide (r < length (audios st))%nat) as [Hlt|Hge].
      * rewrite lookup_app_l by (by rewrite length_alter).
        case_bool_decide as Hold.
        -- injection Hold as ->. apply list_lookup_alter_eq.
        -- rewrite list_lookup_alter_ne by congruence. by rewrite option_fmap_id.
      * rewrite !lookup_ge_None_2; [by destruct (bool_decide _)|lia|].
        rewrite length_app, length_alter. cbn. lia.
  - split_and!.
    + done.
    + apply lookup_snoc_fresh.
    + apply lookup_insert_eq.
    + intros r Hr. rewrite bool_decide_eq_false_2 by done. rewrite option_fmap_id.
      destruct (decide (r < length (audios st))%nat) as [Hlt|Hge].
      * by rewrite lookup_app_l.
      * rewrite !lookup_ge_None_2; [done|lia|]. rewrite length_app. cbn. lia.
Qed.

(** C6 (registry reuse).  For a locator in serialised form (one that the
    URL serialiser returns as it is), two successive
    [getOrCreateAudioElement] calls with the same id and locator return the
    same element, the second changes nothing, and the [src] of the element
    is the locator.  When the [src] of the element registered for the id
    differs from the locator, the call returns a different, newly allocated
    element constructed with the requested locator, registers it, and
    pauses the element that was registered before.  For an id without an
    element and a locator that is not in serialised form, the [src] of the
    element the first call creates differs from the locator, so the second
    of two successive calls with the same id and locator pauses that
    element and returns another one. *)
Theorem getOrCreateAudioElement_reuse `{Runtime} (soundId url : string) (st : Store) :
  let first := getOrCreateAudioElement soundId url st in
  let second := getOrCreateAudioElement soundId url first.2 in
  (resolveURL url = url →
     second.1 = first.1 ∧ second.2 = first.2
     ∧ audio_src <$> audios first.2 !! first.1 = Some url)
  ∧ (∀ old element,
       audioElementRegistry st !! soundId = Some old →
       audios st !! old = Some element →
       audio_src element ≠ url →
       first.1 ≠ old
       ∧ audios st !! first.1 = None
       ∧ audios first.2 !! first.1 = Some (newAudio url)
       ∧ audios first.2 !! old = Some (audio_pause element)
       ∧ audioElementRegistry first.2 !! soundId = Some first.1)
  ∧ (audioElementRegistry st !! soundId = None → resolveURL url ≠ url →
       second.1 ≠ first.1
       ∧ audios first.2 !! first.1 = Some (newAudio url)
       ∧ audios second.2 !! first.1 = Some (audio_pause (newAudio url))
       ∧ audios second.2 !! second.1 = Some (newAudio url)
       ∧ audioElementRegistry second.2 !! soundId = Some second.1).
Proof.
  cbv zeta. split_and!.
  - intros Hserialised.
    destruct (getOrCreateAudioElement_registered soundId url st)
      as (Hreg & element & Helement & Hsrc).
    assert (audio_src <$> audios (getOrCreateAudioElement soundId url st).2
                            !! (getOrCreateAudioElement soundId url st).1 = Some url) as Hbound.
    { rewrite Helement. cbn. f_equal. by destruct Hsrc as [?| ->]. }
    rewrite (getOrCreateAudioElement_hit _ _ _ _ Hreg Hbound). done.
  - intros old element Hreg Hold Hsrc.
    destruct (getOrCreateAudioElement_miss soundId url st) as (Hfirst & Hnew & Hregistered & Hrest).
    { rewrite Hreg. cbn. rewrite Hold. cbn. congruence. }
    pose proof (lookup_lt_Some _ _ _ Hold) as Hlt.
    split_and!; [lia| |done| |done].
    + rewrite Hfirst. by apply lookup_ge_None_2.
    + rewrite Hrest by lia. rewrite bool_decide_eq_true_2 by done. by rewrite Hold.
  - intros Hfresh Hraw.
    destruct (getOrCreateAudioElement_miss soundId url st) as (Hfirst & Hnew & Hregistered & _).
    { by rewrite Hfresh. }
    destruct (getOrCreateAudioElement_miss soundId url (getOrCreateAudioElement soundId url st).2)
      as (Hsecond & Hnew2 & Hregistered2 & Hrest).
    { rewrite Hregistered. cbn. rewrite Hnew. cbn. congruence. }
    pose proof (lookup_lt_Some _ _ _ Hnew) as Hlt.
    split_and!; [lia|done| |done|done].
    rewrite Hrest by lia. rewrite bool_decide_eq_true_2 by done. by rewrite Hnew.
Qed.

Lemma getOrCreateAudioElement_reuse_witness :
  let first := @getOrCreateAudioElement sampleRuntime "clip1" "https://cdn/my rain.mp3" emptyStore in
  let second := @getOrCreateAudioElement sampleRuntime "clip1" "https://cdn/my rain.mp3" first.2 in
  second.1 ≠ first.1
  ∧ audios first.2 !! first.1 = Some (@newAudio sampleRuntime "https://cdn/my rain.mp3")
  ∧ audios second.2 !! first.1
    = Some (audio_pause (@newAudio sampleRuntime "https://cdn/my rain.mp3"))
  ∧ audios second.2 !! second.1 = Some (@newAudio sampleRuntime "https://cdn/my rain.mp3")
  ∧ audioElementRegistry second.2 !! "clip1" = Some second.1.
Proof.
  refine (proj2 (proj2 (@getOrCreateAudioElement_reuse sampleRuntime "clip1"
                          "https://cdn/my rain.mp3" emptyStore)) _ _).
  - vm_compute. reflexivity.
  - vm_compute. discriminate.
Defined.

(** ** The fade *)

Lemma fadeProgress_range elapsed : (0 ≤ elapsed)%Z → 0 <= fadeProgress elapsed <= 1.
Proof.
  intros Hpos. unfold fadeProgress. split.
  - apply Q.min_glb; [|lra].
    apply Qle_shift_div_l; [reflexivity|]. rewrite Qmult_0_l.
    change 0 with (inject_Z 0). by rewrite <- Zle_Qle.
  - apply Q.le_min_r.
Qed.

Lemma fadeProgress_mono e1 e2 : (e1 ≤ e2)%Z → fadeProgress e1 <= fadeProgress e2.
Proof.
  intros Hle. unfold fadeProgress. apply Q.min_le_compat_r.
  apply Qmult_le_compat_r; [by rewrite <- Zle_Qle|]. discriminate.
Qed.

Lemma fadeProgress_complete elapsed :
  (FADE_DURATION_MS ≤ elapsed)%Z ↔ 1 <= fadeProgress elapsed.
Proof.
  unfold fadeProgress. split.
  - intros Hle. apply Q.min_glb; [|lra].
    apply Qle_shift_div_l; [reflexivity|]. rewrite Qmult_1_l.
    by rewrite <- Zle_Qle.
  - intros Hle. rewrite Zle_Qle.
    assert (1 <= inject_Z elapsed / inject_Z FADE_DURATION_MS) as Hdiv.
    { eapply Qle_trans; [exact Hle|]. apply Q.le_min_l. }
    unfold FADE_DURATION_MS in *. change (inject_Z 200) with 200 in *.
    pose proof (Qmult_le_compat_r _ _ 200 Hdiv ltac:(discriminate)) as Hscaled.
    assert (inject_Z elapsed / 200 * 200 == inject_Z elapsed) as Hcancel by field.
    rewrite Hcancel in Hscaled. lra.
Qed.

Lemma fadeVolume_mono_up a b e1 e2 :
  a <= b → (e1 ≤ e2)%Z → fadeVolume a b e1 <= fadeVolume a b e2.
Proof.
  intros Hab Hle. pose proof (fadeProgress_mono e1 e2 Hle). unfold fadeVolume. nra.
Qed.

Lemma fadeVolume_mono_down a b e1 e2 :
  b <= a → (e1 ≤ e2)%Z → fadeVolume a b e2 <= fadeVolume a b e1.
Proof.
  intros Hab Hle. pose proof (fadeProgress_mono e1 e2 Hle). unfold fadeVolume. nra.
Qed.

Lemma fadeVolume_between a b e :
  (0 ≤ e)%Z → Qmin a b <= fadeVolume a b e <= Qmax a b.
Proof.
  intros Hpos. pose proof (fadeProgress_range e Hpos) as [H0 H1]. unfold fadeVolume.
  destruct (Qlt_le_dec a b) as [Hab|Hab].
  - rewrite (Q.min_l a b), (Q.max_r a b) by lra. nra.
  - rewrite (Q.min_r a b), (Q.max_l a b) by lra. nra.
Qed.

Lemma fadeVolume_complete a b e : 1 <= fadeProgress e → fadeVolume a b e == b.
Proof.
  intros Hdone. unfold fadeVolume.
  assert (fadeProgress e == 1) as ->; [|ring].
  apply Qle_antisym; [apply Q.le_min_r | done].
Qed.

Lemma volume_accepted_iff v : volume_accepted v = true ↔ 0 <= v <= 1.
Proof. unfold volume_accepted. by rewrite andb_true_iff, !Qle_bool_iff. Qed.

Lemma volume_accepted_Qeq v w : v == w → volume_accepted v = volume_accepted w.
Proof.
  intros Heq. apply eq_true_iff_eq. rewrite !volume_accepted_iff. by rewrite Heq.
Qed.

(** Between two volumes that an element accepts, at a reading that is not
    before the start, the interpolated volume is accepted. *)
Lemma fadeVolume_accepted a b e :
  0 <= a <= 1 → 0 <= b <= 1 → (0 ≤ e)%Z → volume_accepted (fadeVolume a b e) = true.
Proof.
  intros Ha Hb He. apply volume_accepted_iff.
  pose proof (fadeVolume_between a b e He) as [Hmin Hmax].
  destruct (Qlt_le_dec a b) as [Hab|Hab].
  - rewrite (Q.min_l a b) in Hmin by lra. rewrite (Q.max_r a b) in Hmax by lra. lra.
  - rewrite (Q.min_r a b) in Hmin by lra. rewrite (Q.max_l a b) in Hmax by lra. lra.
Qed.

Lemma effectiveVolume_accepted volume master :
  volume_in_range volume → volume_in_range master →
  0 <= effectiveVolume volume master <= 1.
Proof.
  unfold volume_in_range, effectiveVolume. intros [Hv0 Hv1] [Hm0 Hm1].
  assert (0 <= volume / 100 <= 1) as [? ?].
  { split; [apply Qle_shift_div_l | apply Qle_shift_div_r]; lra. }
  assert (0 <= master / 100 <= 1) as [? ?].
  { split; [apply Qle_shift_div_l | apply Qle_shift_div_r]; lra. }
  nra.
Qed.

Lemma fadeTick_spec a b startTime now :
  fadeTick a b startTime now =
    if volume_accepted (fadeVolume a b (now - startTime)) then
      if Qle_bool 1 (fadeProgress (now - startTime)) then
        if volume_accepted b
        then ([fadeVolume a b (now - startTime); b], TickResolved)
        else ([fadeVolume a b (now - startTime)], TickCleared)
      else ([fadeVolume a b (now - startTime)], TickAgain)
    else ([], TickAgain).
Proof. reflexivity. Qed.

Section FadeOrder.
(** An order [R] on volumes along which a fade from [a] to [b] moves. *)
Variables (a b : Q) (R : Q → Q → Prop).
Hypothesis along : ∀ e1 e2, (e1 ≤ e2)%Z → R (fadeVolume a b e1) (fadeVolume a b e2).
Hypothesis towards : ∀ e, (0 ≤ e)%Z → R (fadeVolume a b e) b.

Lemma fadeInterval_sorted startTime clock :
  StronglySorted Z.le clock →
  Forall (λ now, (startTime ≤ now)%Z) clock →
  StronglySorted R (fadeInterval a b startTime clock).1
  ∧ ∀ e0, (0 ≤ e0)%Z → Forall (λ now, (e0 ≤ now - startTime)%Z) clock →
      Forall (R (fadeVolume a b e0)) (fadeInterval a b startTime clock).1.
Proof.
  induction clock as [|now later IH]; intros Hsorted Hafter; cbn [fadeInterval].
  - split; [constructor|]. intros; constructor.
  - apply StronglySorted_inv in Hsorted as [Hlater Hfirst].
    apply Forall_cons in Hafter as [Hnow Hafter].
    destruct (IH Hlater Hafter) as [IHsorted IHlower]. clear IH.
    rewrite fadeTick_spec.
    destruct (volume_accepted (fadeVolume a b (now - startTime))); cycle 1.
    { destruct (fadeInterval a b startTime later) as [more finished]. cbn in *.
      split; [done|]. intros e0 He0 [Hle Hrest]%Forall_cons. by apply IHlower. }
    destruct (Qle_bool 1 (fadeProgress (now - startTime))) eqn:Hdone;
      [destruct (volume_accepted b)|]; cbn.
    + split.
      * repeat constructor. apply towards. lia.
      * intros e0 He0 [Hle _]%Forall_cons. repeat constructor; [by apply along|by apply towards].
    + split; [repeat constructor|].
      intros e0 He0 [Hle _]%Forall_cons. repeat constructor. by apply along.
    + destruct (fadeInterval a b startTime later) as [more finished]. cbn in *. split.
      * constructor; [done|]. apply IHlower; [lia|].
        eapply Forall_impl; [exact Hfirst|]. cbn. intros; lia.
      * intros e0 He0 [Hle Hrest]%Forall_cons. constructor; [by apply along|].
        by apply IHlower.
Qed.
End FadeOrder.

Lemma fadeInterval_between a b startTime clock :
  Forall (λ now, (startTime ≤ now)%Z) clock →
  Forall (λ w, Qmin a b <= w <= Qmax a b) (fadeInterval a b startTime clock).1.
Proof.
  induction clock as [|now later IH]; intros Hafter; cbn [fadeInterval].
  - constructor.
  - apply Forall_cons in Hafter as [Hnow Hafter]. specialize (IH Hafter).
    assert (Qmin a b <= fadeVolume a b (now - startTime) <= Qmax a b) as Hv
      by (apply fadeVolume_between; lia).
    rewrite fadeTick_spec.
    destruct (volume_accepted (fadeVolume a b (now - startTime))); cycle 1.
    { by destruct (fadeInterval a b startTime later) as [more finished]. }
    destruct (Qle_bool 1 (fadeProgress (now - startTime)));
      [destruct (volume_accepted b)|]; cbn.
    + apply Forall_cons; split; [done|]. apply Forall_cons; split; [|constructor].
      split; [apply Q.le_min_r | apply Q.le_max_r].
    + apply Forall_cons; split; [done|constructor].
    + destruct (fadeInterval a b startTime later) as [more finished]. by constructor.
Qed.

(** A fade that resolves ends with the write of its target, and a fade to
    a target the element accepts resolves when a firing comes
    [FADE_DURATION_MS] or more after the start. *)
Lemma fadeInterval_resolved a b startTime clock :
  ((fadeInterval a b startTime clock).2 = true →
     last (fadeInterval a b startTime clock).1 = Some b)
  ∧ (volume_accepted b = true →
     (∃ now, now ∈ clock ∧ (startTime + FADE_DURATION_MS ≤ now)%Z) →
     (fadeInterval a b startTime clock).2 = true).
Proof.
  induction clock as [|now later [IHlast IHdone]]; cbn [fadeInterval].
  - split; [done|]. intros _ (now & []%elem_of_nil & _).
  - assert ((startTime + FADE_DURATION_MS ≤ now)%Z → volume_accepted b = true →
            volume_accepted (fadeVolume a b (now - startTime)) = true
            ∧ Qle_bool 1 (fadeProgress (now - startTime)) = true) as Hlate_tick.
    { intros Hlate Hb.
      assert (1 <= fadeProgress (now - startTime)) as Hp by (apply fadeProgress_complete; lia).
      split; [|by apply Qle_bool_iff].
      by rewrite (volume_accepted_Qeq _ b (fadeVolume_complete a b _ Hp)). }
    rewrite fadeTick_spec.
    destruct (volume_accepted (fadeVolume a b (now - startTime))) eqn:Hcurrent; cycle 1.
    { destruct (fadeInterval a b startTime later) as [more finished]. cbn in *.
      split; [done|]. intros Hb (now' & [->|Hin]%elem_of_cons & Hlate); [|eauto].
      destruct (Hlate_tick Hlate Hb). congruence. }
    destruct (Qle_bool 1 (fadeProgress (now - startTime))) eqn:Hdone;
      [destruct (volume_accepted b) eqn:Htarget|]; cbn; [done|done|].
    destruct (fadeInterval a b startTime later) as [more finished]. cbn in *. split.
    + intros Hfin. specialize (IHlast Hfin). destruct more; [done|]. done.
    + intros Hb (now' & [->|Hin]%elem_of_cons & Hlate); [|eauto].
      destruct (Hlate_tick Hlate Hb). congruence.
Qed.

Lemma apply_writes_volume writes audio :
  audio_volume (apply_writes writes audio) = default (audio_volume audio) (last writes).
Proof.
  unfold apply_writes. revert audio.
  induction writes as [|w writes IH]; intros audio; cbn; [done|].
  rewrite IH. destruct writes as [|w' writes]; [done|].
  rewrite last_cons_cons, last_cons. by destruct (last writes).
Qed.

(** C7 (fade monotonicity).  Let the interval of a fade from [a] to [b]
    fire at clock readings that do not run backwards: none is earlier than
    the start of the fade or than the reading before it.  Then the volumes
    it writes are non-decreasing when [a < b] and non-increasing when
    [b < a], and every written volume lies in [[min a b, max a b]].  If
    moreover the target [b] is a volume that an audio element accepts
    ([0 <= b <= 1]) and some firing happens [FADE_DURATION_MS] or more
    after the start, the fade resolves, its last write is exactly [b], and
    the audio element is left at volume [b].  [fadeIn] is the fade from 0
    to the target, [fadeOut] the fade from the current volume to 0. *)
Theorem fade_monotone_bounded_exact (a b : Q) (startTime : Z) (clock : list Z) :
  StronglySorted Z.le clock →
  Forall (λ now, (startTime ≤ now)%Z) clock →
  let writes := (fadeInterval a b startTime clock).1 in
  let resolved := (fadeInterval a b startTime clock).2 in
  (a < b → StronglySorted Qle writes)
  ∧ (b < a → StronglySorted (flip Qle) writes)
  ∧ Forall (λ w, Qmin a b <= w <= Qmax a b) writes
  ∧ (0 <= b <= 1 →
     (∃ now, now ∈ clock ∧ (startTime + FADE_DURATION_MS ≤ now)%Z) →
       resolved = true ∧ last writes = Some b
       ∧ ∀ audio, audio_volume (apply_writes writes audio) = b)
  ∧ fadeIn b startTime clock = fadeInterval 0 b startTime clock
  ∧ (∀ audio, fadeOut audio startTime clock
              = fadeInterval (audio_volume audio) 0 startTime clock).
Proof.
  intros Hsorted Hafter writes resolved. subst writes resolved. split_and!.
  - intros Hab. apply fadeInterval_sorted; [| |done|done].
    + intros. apply fadeVolume_mono_up; [lra|done].
    + intros e He. destruct (fadeVolume_between a b e He) as [_ Hmax].
      by rewrite (Q.max_r a b) in Hmax by lra.
  - intros Hba. apply fadeInterval_sorted; [| |done|done].
    + intros. unfold flip. apply fadeVolume_mono_down; [lra|done].
    + intros e He. unfold flip. destruct (fadeVolume_between a b e He) as [Hmin _].
      by rewrite (Q.min_r a b) in Hmin by lra.
  - by apply fadeInterval_between.
  - intros Hb Hlate. destruct (fadeInterval_resolved a b startTime clock) as [Hlast Hdone].
    apply volume_accepted_iff in Hb.
    specialize (Hdone Hb Hlate). specialize (Hlast Hdone). split_and!; [done..|].
    intros audio. by rewrite apply_writes_volume, Hlast.
  - done.
  - done.
Qed.

Lemma fade_monotone_bounded_exact_witness :
  StronglySorted Qle (fadeIn (1 # 2) 1000 [1010; 1100; 1200; 1210]%Z).1
  ∧ last (fadeIn (1 # 2) 1000 [1010; 1100; 1200; 1210]%Z).1 = Some (1 # 2).
Proof.
  assert (StronglySorted Z.le [1010; 1100; 1200; 1210]%Z) as Hsorted.
  { repeat (constructor; [|repeat (constructor; [lia|]); constructor]). constructor. }
  assert (Forall (λ now, (1000 ≤ now)%Z) [1010; 1100; 1200; 1210]%Z) as Hafter.
  { repeat (constructor; [lia|]). constructor. }
  destruct (fade_monotone_bounded_exact 0 (1 # 2) 1000 [1010; 1100; 1200; 1210]%Z
              Hsorted Hafter) as (Hup & _ & _ & Hdone & _).
  split.
  - apply Hup. reflexivity.
  - apply Hdone.
    + split; discriminate.
    + exists 1200%Z. split; [|unfold FADE_DURATION_MS; lia].
      apply list_elem_of_In. cbn. tauto.
Defined.

(** C7, the counterexample.  A fade-out from volume 2/5
    whose first tick reads a clock 10 ms before the start writes 21/50,
    above the volume it started from.  With the readings 1100 and 1050 in
    that order, it writes 1/5 and then 3/10: the volume goes up during a
    fade-out.  And a fade-in to 3/2, a volume no element accepts, writes
    3/4 at half time and nothing afterwards: it never resolves and never
    reaches its target. *)
Lemma fade_fails_on_a_backward_clock :
  let audio :=
    {| audio_src := "https://cdn/rain.mp3"; audio_volume := 2 # 5; audio_loop := false;
       audio_paused := false |} in
  (Forall2 Qeq (fadeOut audio 1000 [990]%Z).1 [21 # 50]
   ∧ ¬ Forall (λ w, Qmin (2 # 5) 0 <= w <= Qmax (2 # 5) 0) (fadeOut audio 1000 [990]%Z).1)
  ∧ (Forall2 Qeq (fadeOut audio 1000 [1100; 1050]%Z).1 [1 # 5; 3 # 10]
     ∧ ¬ StronglySorted (flip Qle) (fadeOut audio 1000 [1100; 1050]%Z).1)
  ∧ (Forall2 Qeq (fadeIn (3 # 2) 1000 [1100; 1200; 1300]%Z).1 [3 # 4]
     ∧ (fadeIn (3 # 2) 1000 [1100; 1200; 1300]%Z).2 = false).
Proof.
  cbv zeta. split_and!.
  - repeat constructor.
  - intros [[_ Hmax] _]%Forall_cons. vm_compute in Hmax. by apply Hmax.
  - repeat constructor.
  - intros [_ [Hle _]%Forall_cons]%StronglySorted_inv. vm_compute in Hle. by apply Hle.
  - repeat constructor.
  - reflexivity.
Qed.

(** ** Reading the heaps after a write *)

Lemma assoc_get_elem_of {A} key (value : A) entries :
  assoc_get key entries = Some value → (key, value) ∈ entries.
Proof.
  induction entries as [|[k v] entries IH]; cbn; [done|].
  case_decide as Hk.
  - intros [= ->]. subst. apply list_elem_of_here.
  - intros Hget. apply list_elem_of_further. by apply IH.
Qed.

Lemma audio_pause_paused a : audio_paused a = true → audio_pause a = a.
Proof. destruct a; cbn. by intros ->. Qed.

Lemma write_audio_lookup f audio st r :
  audios (write_audio f audio st) !! r =
    if decide (audio = r) then f <$> audios st !! r else audios st !! r.
Proof.
  cbn. case_decide as Heq.
  - subst. apply list_lookup_alter_eq.
  - by apply list_lookup_alter_ne.
Qed.

Lemma keeps_refl {B} (proj : Audio → B) st : keeps proj st st.
Proof. done. Qed.

Lemma keeps_trans {B} (proj : Audio → B) st1 st2 st3 :
  keeps proj st1 st2 → keeps proj st2 st3 → keeps proj st1 st3.
Proof. intros H12 H23 r. by rewrite H23. Qed.

Lemma write_audio_keeps {B} (proj : Audio → B) f audio st :
  (∀ a, proj (f a) = proj a) → keeps proj st (write_audio f audio st).
Proof.
  intros Hf r. rewrite write_audio_lookup. case_decide; [|done].
  destruct (audios st !! r); cbn; [|done]. by rewrite Hf.
Qed.

Lemma write_saved_keeps {B} (proj : Audio → B) f ref st :
  keeps proj st (write_saved f ref st).
Proof. done. Qed.

Lemma foldl_keeps {A B} (proj : Audio → B) (step : Store → A → Store) items st :
  (∀ s x, keeps proj s (step s x)) → keeps proj st (foldl step st items).
Proof.
  intros Hstep. revert st. induction items as [|x items IH]; intros st; cbn.
  - apply keeps_refl.
  - eapply keeps_trans; [apply Hstep | apply IH].
Qed.

Lemma applyMetadata_keeps_paused master st entry :
  keeps audio_paused st (applyMetadata master st entry).
Proof.
  unfold applyMetadata. destruct (savedSoundObjects st !! entry.2); [|apply keeps_refl].
  eapply keeps_trans; [|by apply write_audio_keeps].
  eapply keeps_trans; [|by apply write_audio_keeps].
  apply write_saved_keeps.
Qed.

Lemma render_keeps_paused `{Runtime} changed st : keeps audio_paused st (render changed st).
Proof.
  pose proof (foldl_keeps audio_paused (applyMetadata (masterVolume st)) (savedSoundsMap st) st
                (applyMetadata_keeps_paused _)) as Hfold.
  unfold render.
  destruct (match memoDeps st with Some _ => _ | None => _ end), changed; cbn; done.
Qed.

(** The loop of [clearAllSounds] pauses the audio elements of the resolved
    sounds and changes nothing else. *)
Lemma pauseIfPlaying_objects st entry :
  savedSoundObjects (pauseIfPlaying st entry) = savedSoundObjects st.
Proof.
  unfold pauseIfPlaying, write_sound_audio. by destruct (savedSoundObjects st !! entry.2).
Qed.

Lemma pauseIfPlaying_audios st entry r :
  audios (pauseIfPlaying st entry) !! r =
    if bool_decide (saved_audio <$> savedSoundObjects st !! entry.2 = Some r)
    then audio_pause <$> audios st !! r
    else audios st !! r.
Proof.
  unfold pauseIfPlaying, write_sound_audio.
  destruct (savedSoundObjects st !! entry.2) as [sound|]; [|done].
  rewrite write_audio_lookup. case_decide as Heq.
  - subst. rewrite bool_decide_eq_true_2 by done.
    destruct (audios st !! saved_audio sound) as [a|]; cbn; [|done].
    destruct (audio_paused a) eqn:Hp; [|done]. by rewrite audio_pause_paused.
  - rewrite bool_decide_eq_false_2; [done|]. intros [= ?]. done.
Qed.

Lemma clear_loop_audios st (entries : list (string * nat)) r :
  audios (foldl pauseIfPlaying st entries) !! r =
    if bool_decide (Exists (λ entry, saved_audio <$> savedSoundObjects st !! entry.2 = Some r)
                      entries)
    then audio_pause <$> audios st !! r
    else audios st !! r.
Proof.
  remember (savedSoundObjects st) as objects eqn:Hobjects.
  revert st Hobjects. induction entries as [|entry entries IH]; intros st ->; cbn [foldl].
  - rewrite bool_decide_eq_false_2; [done|]. by intros ?%Exists_nil.
  - rewrite IH by (by rewrite pauseIfPlaying_objects). rewrite pauseIfPlaying_audios.
    rewrite (bool_decide_ext _ _ (Exists_cons _ entry entries)).
    case_bool_decide as Hrest; case_bool_decide as Hhead; case_bool_decide as Hall;
      try done; try (destruct Hall; by eauto).
    by destruct (audios st !! r).
Qed.

(** C8, as the code has it.  [clearAllSounds] empties the ordered sequence
    and the metadata table, and every sound of the resolved map is paused
    at once: its handler leaves each such audio element exactly as it was
    except for the paused flag, and writes the volume of no audio element
    (there is no fade-out). *)
Theorem clearAllSounds_stops_and_empties `{Runtime} (st : Store) :
  savedSoundIds (clearAllSounds st) = []
  ∧ metadataRef (clearAllSounds st) = ∅
  ∧ (∀ id sound audio,
       memberSound st id = Some sound →
       audios st !! saved_audio sound = Some audio →
       audios (clearAllSounds_handler st) !! saved_audio sound = Some (audio_pause audio)
       ∧ audio_paused <$> audios (clearAllSounds st) !! saved_audio sound = Some true)
  ∧ keeps audio_volume st (clearAllSounds_handler st).
Proof.
  split_and!.
  - apply clearAllSounds_ids.
  - apply clearAllSounds_metadata.
  - intros id sound audio Hsound Haudio.
    assert (audios (clearAllSounds_handler st) !! saved_audio sound = Some (audio_pause audio))
      as Hhandler.
    { unfold clearAllSounds_handler. cbn. rewrite clear_loop_audios.
      rewrite bool_decide_eq_true_2; [by rewrite Haudio|].
      unfold memberSound in Hsound.
      destruct (assoc_get id (savedSoundsMap st)) as [ref|] eqn:Hget; [|done].
      apply Exists_exists. exists (id, ref). split; [by apply assoc_get_elem_of|].
      cbn. by rewrite Hsound. }
    split; [done|]. unfold clearAllSounds. rewrite render_keeps_paused.
    by rewrite Hhandler.
  - intros r. unfold clearAllSounds_handler. cbn. rewrite clear_loop_audios.
    case_bool_decide; [|done]. by destruct (audios st !! r).
Qed.

Lemma clearAllSounds_stops_and_empties_witness :
  audios (@clearAllSounds_handler sampleRuntime playingStore) !! 0%nat
    = Some (audio_pause
              {| audio_src := "https://cdn/rain.mp3"; audio_volume := effectiveVolume 40 100;
                 audio_loop := true; audio_paused := false |})
  ∧ audio_paused <$> audios (@clearAllSounds sampleRuntime playingStore) !! 0%nat = Some true.
Proof.
  refine (proj1 (proj2 (proj2 (@clearAllSounds_stops_and_empties sampleRuntime playingStore)))
            "clip1"
            {| saved_id := "clip1"; saved_name := "Rain"; saved_url := "https://cdn/rain.mp3";
               saved_category := ""; saved_type := ""; saved_audio := 0;
               saved_volume := Some 40 |}
            {| audio_src := "https://cdn/rain.mp3"; audio_volume := effectiveVolume 40 100;
               audio_loop := true; audio_paused := false |} _ _).
  - vm_compute. reflexivity.
  - vm_compute. reflexivity.
Defined.

(** C8, the counterexample: the tuned clip is playing at volume 0.4;
    [clearAllSounds] leaves its element paused at volume 0.4, not faded to
    zero, where [pauseAllSounds] fades it to 0 before pausing it. *)
Lemma clearAllSounds_does_not_fade :
  audios playingStore !! 0%nat
    = Some {| audio_src := "https://cdn/rain.mp3"; audio_volume := effectiveVolume 40 100;
              audio_loop := true; audio_paused := false |}
  ∧ audios (@clearAllSounds sampleRuntime playingStore) !! 0%nat
    = Some {| audio_src := "https://cdn/rain.mp3"; audio_volume := effectiveVolume 40 100;
              audio_loop := true; audio_paused := true |}
  ∧ ¬ effectiveVolume 40 100 == 0
  ∧ audios (@pauseAllSounds sampleRuntime 1000 [1010; 1200]%Z playingStore) !! 0%nat
    = Some {| audio_src := "https://cdn/rain.mp3"; audio_volume := 0;
              audio_loop := true; audio_paused := true |}.
Proof.
  split_and!; [by vm_compute..| |by vm_compute]. by vm_compute.
Qed.

(** ** Association lists *)

Lemma assoc_get_delete {A} key (entries : list (string * A)) :
  assoc_get key (assoc_delete key entries) = None.
Proof.
  unfold assoc_delete. induction entries as [|[k v] entries IH]; [done|].
  rewrite filter_cons. cbn. case_decide as Hk; [|done]. cbn. by rewrite decide_False.
Qed.

Lemma assoc_delete_elem_of {A} key (entries : list (string * A)) entry :
  entry ∈ assoc_delete key entries → entry ∈ entries.
Proof. unfold assoc_delete. by intros [_ ?]%list_elem_of_filter. Qed.

Lemma assoc_set_fresh {A} key (value : A) entries :
  assoc_get key entries = None → assoc_set key value entries = entries ++ [(key, value)].
Proof.
  induction entries as [|[k v] entries IH]; cbn; [done|].
  case_decide; [done|]. intros Hget. by rewrite IH.
Qed.

Lemma assoc_get_snoc {A} key (value : A) entries :
  assoc_get key entries = None → assoc_get key (entries ++ [(key, value)]) = Some value.
Proof.
  induction entries as [|[k v] entries IH]; cbn.
  - by rewrite decide_True.
  - case_decide; [done|]. apply IH.
Qed.

(** ** Sorting the ids *)

Lemma sort_insert_Permutation `{Runtime} x sorted : sort_insert x sorted ≡ₚ x :: sorted.
Proof.
  induction sorted as [|y rest IH]; cbn; [done|].
  destruct (localeCompare x y); [done|done|].
  rewrite IH. apply Permutation_swap.
Qed.

Lemma sortIds_Permutation `{Runtime} ids : sortIds ids ≡ₚ ids.
Proof.
  induction ids as [|x ids IH]; cbn; [done|].
  by rewrite sort_insert_Permutation, IH.
Qed.

Section CollationOrder.
Context `{Runtime}.
Hypothesis order : collation_order.

Lemma sort_insert_sorted x sorted :
  StronglySorted collation_le sorted → StronglySorted collation_le (sort_insert x sorted).
Proof.
  induction sorted as [|y rest IH]; cbn; intros Hsorted.
  - repeat constructor.
  - apply StronglySorted_inv in Hsorted as [Hrest Hy].
    assert (collation_le x y → StronglySorted collation_le (x :: y :: rest)) as Hfront.
    { intros Hxy. constructor; [by constructor|]. constructor; [done|].
      eapply Forall_impl; [exact Hy|]. intros z Hyz. by apply (order_trans order x y z). }
    destruct (localeCompare x y) eqn:Hxy.
    + apply Hfront. unfold collation_le. by rewrite Hxy.
    + apply Hfront. unfold collation_le. by rewrite Hxy.
    + constructor; [by apply IH|].
      rewrite sort_insert_Permutation. constructor; [|done].
      unfold collation_le. rewrite (order_flip order x y), Hxy. done.
Qed.

Lemma sortIds_sorted ids : StronglySorted collation_le (sortIds ids).
Proof.
  induction ids as [|x ids IH]; cbn; [constructor|]. by apply sort_insert_sorted.
Qed.

(** The sorted key does not depend on the order of the ids, when the
    collation tells them apart. *)
Lemma sortIds_separated ids1 ids2 :
  collation_separates ids1 → ids1 ≡ₚ ids2 → sortIds ids1 = sortIds ids2.
Proof.
  intros Hseparates Hperm.
  apply (StronglySorted_unique_strong collation_le).
  - intros a b Ha Hb Hab Hba.
    rewrite sortIds_Permutation in Ha. rewrite sortIds_Permutation, <- Hperm in Hb.
    apply Hseparates; [done..|].
    unfold collation_le in Hab, Hba. rewrite (order_flip order a b) in Hba.
    by destruct (localeCompare a b).
  - apply sortIds_sorted.
  - apply sortIds_sorted.
  - by rewrite !sortIds_Permutation.
Qed.

End CollationOrder.

Lemma total_collation_order `{Runtime} : total_collation → collation_order.
Proof. intros [_ Hflip Htrans]. by split. Qed.

Lemma total_collation_separates `{Runtime} ids : total_collation → collation_separates ids.
Proof. intros [Heq _ _] a b _ _. apply Heq. Qed.

(** The key under which [addSoundToCachedMap] stores the new map is the key
    of the new sequence: always for an append, and for an insertion at an
    index when the collation tells the ids apart. *)
Lemma addSound_key_separated `{Runtime} id sound index st :
  index = None ∨ (collation_order ∧ collation_separates (id :: savedSoundIds st)) →
  id ∉ savedSoundIds st →
  sortIds (savedSoundIds (addSound id sound index st)) = sortIds (savedSoundIds st ++ [id]).
Proof.
  intros Hcase Hnotin. rewrite addSound_ids, bool_decide_eq_false_2 by done.
  destruct index as [i|]; [|done]. case_bool_decide; [|done].
  destruct Hcase as [|[Horder Hseparates]]; [done|].
  symmetry. apply (sortIds_separated Horder).
  - intros a b Ha Hb. apply Hseparates.
    + rewrite Permutation_app_comm in Ha. exact Ha.
    + rewrite Permutation_app_comm in Hb. exact Hb.
  - rewrite splice_in_Permutation. by rewrite Permutation_app_comm.
Qed.

Lemma addSound_key `{Runtime} id sound index st :
  index = None ∨ total_collation →
  id ∉ savedSoundIds st →
  sortIds (savedSoundIds (addSound id sound index st)) = sortIds (savedSoundIds st ++ [id]).
Proof.
  intros Hcase. apply addSound_key_separated.
  destruct Hcase as [|Htotal]; [by left|right].
  split; [by apply total_collation_order|by apply total_collation_separates].
Qed.

(** The code-point order of the sample runtime is a total order. *)
Lemma sampleRuntime_total : @total_collation sampleRuntime.
Proof.
  assert (∀ a b, String.compare a b = Lt ↔ OrderedTypeEx.String_as_OT.lt a b) as Hlt.
  { intros a b. split.
    - apply OrderedTypeEx.String_as_OT.compare_helper_lt.
    - intros Hab. destruct (String.compare a b) eqn:Hcmp; [| done |].
      + apply String.compare_eq_iff in Hcmp. subst.
        by destruct (OrderedTypeEx.String_as_OT.lt_not_eq _ _ Hab).
      + apply OrderedTypeEx.String_as_OT.compare_helper_gt in Hcmp.
        pose proof (OrderedTypeEx.String_as_OT.lt_trans _ _ _ Hab Hcmp) as Haa.
        by destruct (OrderedTypeEx.String_as_OT.lt_not_eq _ _ Haa). }
  split; cbn.
  - apply String.compare_eq_iff.
  - intros a b. apply String.compare_antisym.
  - unfold collation_le. cbn. intros a b c Hab Hbc Hac.
    rewrite String.compare_antisym in Hac.
    destruct (String.compare c a) eqn:Hca; try done. apply Hlt in Hca.
    destruct (String.compare a b) eqn:Hab'; [| |done].
    + apply String.compare_eq_iff in Hab'. subst.
      apply Hlt in Hca. rewrite String.compare_antisym, Hca in Hbc. by apply Hbc.
    + apply Hlt in Hab'.
      pose proof (OrderedTypeEx.String_as_OT.lt_trans _ _ _ Hca Hab') as Hcb.
      apply Hlt in Hcb. rewrite String.compare_antisym, Hcb in Hbc. by apply Hbc.
Qed.

(** ** Removing and adding again *)

Lemma render_lengths `{Runtime} changed st :
  length (savedSoundObjects (render changed st)) = length (savedSoundObjects st)
  ∧ length (audios (render changed st)) = length (audios st).
Proof.
  pose proof (foldl_heaps_only (applyMetadata (masterVolume st)) (savedSoundsMap st) st
                (applyMetadata_heaps_only _)) as [].
  unfold render.
  destruct (match memoDeps st with Some _ => _ | None => _ end), changed; cbn; done.
Qed.

Lemma removeSoundFromCachedMap_cache `{Runtime} soundId currentIds st :
  let st' := removeSoundFromCachedMap soundId currentIds st in
  map_entries <$> queryCache st' !! sortIds (filter (λ id, id ≠ soundId) currentIds)
    = Some (assoc_delete soundId (cachedEntries (sortIds currentIds) st))
  ∧ savedSoundObjects st' = savedSoundObjects st.
Proof.
  unfold removeSoundFromCachedMap, cachedEntries, setQueryData.
  destruct (audioElementRegistry st !! soundId); case_bool_decide; cbn;
    rewrite ?lookup_insert; repeat case_decide; done.
Qed.

Lemma removeSound_facts `{Runtime} id st :
  let st1 := removeSound id st in
  metadataRef st1 !! id = None
  ∧ map_entries <$> queryCache st1 !! sortIds (savedSoundIds st1)
    = Some (assoc_delete id (savedSoundsMap st))
  ∧ length (savedSoundObjects st1) = length (savedSoundObjects st).
Proof.
  cbv zeta. rewrite removeSound_metadata, removeSound_ids. split_and!.
  - apply lookup_delete_eq.
  - unfold removeSound. rewrite (proj1 (proj2 (proj2 (proj2 (render_session _ _))))). cbn.
    apply removeSoundFromCachedMap_cache.
  - unfold removeSound. rewrite (proj1 (render_lengths _ _)). cbn.
    by rewrite (proj2 (removeSoundFromCachedMap_cache _ _ _)).
Qed.

(** What [addSoundToCachedMap] does for a sound that the cached map of the
    current ids does not hold. *)
Lemma addSoundToCachedMap_fresh `{Runtime} sound currentIds metadata st :
  assoc_get (sound_id sound) (cachedEntries (sortIds currentIds) st) = None →
  let st' := addSoundToCachedMap sound currentIds metadata st in
  ∃ audio element,
    savedSoundObjects st' = savedSoundObjects st ++
      [{| saved_id := sound_id sound; saved_name := sound_name sound;
          saved_url := sound_url sound;
          saved_category := default EmptyString (sound_category sound);
          saved_type := default EmptyString (sound_type sound);
          saved_audio := audio;
          saved_volume := Some (default 100 (metadata ≫= md_volume)) |}]
    ∧ audios st' !! audio = Some element
    ∧ audio_loop element = default false (metadata ≫= md_loop)
    ∧ map_entries <$> queryCache st' !! sortIds (currentIds ++ [sound_id sound])
      = Some (assoc_set (sound_id sound) (length (savedSoundObjects st))
                (cachedEntries (sortIds currentIds) st)).
Proof.
  intros Hfresh. unfold addSoundToCachedMap. rewrite Hfresh. cbn [mbind option_bind].
  pose proof (getOrCreateAudioElement_registered (sound_id sound) (sound_url sound) st)
    as (_ & element0 & Helement & _).
  pose proof (getOrCreateAudioElement_session (sound_id sound) (sound_url sound) st)
    as (_ & _ & _ & _ & Hcache & Hobjects & _).
  destruct (getOrCreateAudioElement (sound_id sound) (sound_url sound) st) as [audio st0].
  cbn in Helement, Hcache, Hobjects.
  exists audio,
    (audio_set_loop (default false (metadata ≫= md_loop))
       (audio_set_volume (default 100 (metadata ≫= md_volume) / 100) element0)).
  unfold cachedEntries, setQueryData.
  case_bool_decide; cbn; rewrite ?list_lookup_alter_eq, ?Helement, ?Hobjects, ?Hcache;
    rewrite ?lookup_insert; repeat case_decide; done.
Qed.

Lemma applyMetadata_object_other master st entry ref :
  entry.2 ≠ ref →
  savedSoundObjects (applyMetadata master st entry) !! ref = savedSoundObjects st !! ref.
Proof.
  intros Hne. unfold applyMetadata. destruct (savedSoundObjects st !! entry.2); [|done].
  cbn. by rewrite list_lookup_alter_ne.
Qed.

Lemma memo_loop_object_other master st entries ref :
  Forall (λ entry : string * nat, entry.2 ≠ ref) entries →
  savedSoundObjects (foldl (applyMetadata master) st entries) !! ref
    = savedSoundObjects st !! ref.
Proof.
  revert st. induction entries as [|entry entries IH]; intros st Hne; cbn; [done|].
  apply Forall_cons in Hne as [Hhead Hrest].
  by rewrite IH, applyMetadata_object_other.
Qed.

Lemma applyMetadata_entry master st key ref sound element :
  savedSoundObjects st !! ref = Some sound →
  audios st !! saved_audio sound = Some element →
  let baseVolume :=
    default (default 100 (saved_volume sound)) (metadataRef st !! key ≫= md_volume) in
  savedSoundObjects (applyMetadata master st (key, ref)) !! ref
    = Some (saved_set_volume baseVolume sound)
  ∧ audios (applyMetadata master st (key, ref)) !! saved_audio sound
    = Some (audio_set_loop (default false (metadataRef st !! key ≫= md_loop))
              (audio_set_volume (effectiveVolume baseVolume master) element)).
Proof.
  intros Hsound Helement. unfold applyMetadata. cbn [fst snd]. rewrite Hsound. cbn.
  rewrite !list_lookup_alter_eq, Hsound, Helement. done.
Qed.

(** Adding an id that has no metadata entry and that the cached map of
    the current ids does not hold: the member is seeded from the defaults. *)
Lemma addSound_seeds_defaults `{Runtime} (i : string) (hint : Sound) (index : option Z)
    (st : Store) :
  sound_id hint = i →
  i ∉ savedSoundIds st →
  metadataRef st !! i = None →
  assoc_get i (cachedEntries (sortIds (savedSoundIds st)) st) = None →
  Forall (λ entry : string * nat, (entry.2 < length (savedSoundObjects st))%nat)
    (cachedEntries (sortIds (savedSoundIds st)) st) →
  sortIds (savedSoundIds (addSound i hint index st)) = sortIds (savedSoundIds st ++ [i]) →
  memberVolume (addSound i hint index st) i = 100
  ∧ ∃ sound element,
      memberSound (addSound i hint index st) i = Some sound
      ∧ saved_volume sound = Some 100
      ∧ audios (addSound i hint index st) !! saved_audio sound = Some element
      ∧ audio_loop element = false.
Proof.
  intros Hid Hnotin Hmd Hfresh Hold Hkey.
  assert (metadataRef (addSound i hint index st) !! i = None) as Hmd2
    by (by rewrite addSound_metadata).
  remember (cachedEntries (sortIds (savedSoundIds st)) st) as entries eqn:Hentries.
  pose proof (addSoundToCachedMap_fresh hint (savedSoundIds st) (Some emptyMetadata) st) as Hadd.
  rewrite Hid, <- Hentries in Hadd.
  destruct (Hadd Hfresh) as (audio & element & Hobjects & Helement & Hloop & Hcache).
  clear Hadd.
  assert (metadataRef (addSoundToCachedMap hint (savedSoundIds st) (Some emptyMetadata) st) !! i
          = None) as Hmds.
  { by rewrite (proj1 (proj2 (proj2 (addSoundToCachedMap_session _ _ _ _)))). }
  revert Hkey Hmd2. unfold addSound. rewrite bool_decide_eq_false_2 by done.
  rewrite Hmd. cbn [default from_option].
  generalize (match index with
              | Some i0 =>
                  if bool_decide (0 ≤ i0 ∧ i0 ≤ Z.of_nat (length (savedSoundIds st)))%Z
                  then splice_in (Z.to_nat i0) i (savedSoundIds st)
                  else savedSoundIds st ++ [i]
              | None => savedSoundIds st ++ [i]
              end) as newIds.
  revert Hobjects Helement Hcache Hmds.
  generalize (addSoundToCachedMap hint (savedSoundIds st) (Some emptyMetadata) st) as s.
  intros s Hobjects Helement Hcache Hmds newIds Hkey Hmd2.
  rewrite (proj1 (render_session _ _)) in Hkey. cbn [savedSoundIds with_savedSoundIds] in Hkey.
  cbn [mbind option_bind md_volume md_loop emptyMetadata default from_option] in Hobjects, Hloop.
  remember (length (savedSoundObjects st)) as ref eqn:Href.
  remember {| saved_id := i; saved_name := sound_name hint; saved_url := sound_url hint;
              saved_category := default EmptyString (sound_category hint);
              saved_type := default EmptyString (sound_type hint);
              saved_audio := audio; saved_volume := Some 100 |} as object eqn:Hobject.
  assert (savedSoundsMap (with_savedSoundIds newIds s) = entries ++ [(i, ref)]) as Hmap.
  { unfold savedSoundsMap, savedSoundsMapData.
    cbn [savedSoundIds with_savedSoundIds queryCache]. rewrite Hkey.
    destruct (queryCache s !! _) as [cm|]; [|done].
    cbn [fmap option_fmap option_map from_option] in Hcache |- *.
    injection Hcache as ->. by apply assoc_set_fresh. }
  assert (Forall (λ entry : string * nat, entry.2 ≠ ref) entries) as Hold'.
  { eapply Forall_impl; [exact Hold|]. intros entry Hlt. cbv beta in Hlt. lia. }
  assert (savedSoundObjects s !! ref = Some object) as Hobj.
  { rewrite Hobjects, Href. apply lookup_snoc_fresh. }
  assert (saved_volume object = Some 100 ∧ saved_audio object = audio) as [Hov Hoa]
    by (by rewrite Hobject).
  clear Hobject Hobjects Hcache Hkey Hentries Hold.
  (* the state after the re-render *)
  assert (∃ sound element',
            savedSoundObjects (render true (with_savedSoundIds newIds s)) !! ref = Some sound
            ∧ saved_volume sound = Some 100 ∧ saved_audio sound = audio
            ∧ audios (render true (with_savedSoundIds newIds s)) !! audio = Some element'
            ∧ audio_loop element' = false)
    as (sound & element' & Hsound & Hvol & Haudio & Helement' & Hloop').
  { unfold render.
    destruct (match memoDeps (with_savedSoundIds newIds s) with
              | Some _ => _ | None => _ end);
      cbn [savedSoundObjects audios saveToStorage with_localStorage with_memoDeps
           masterVolume with_savedSoundIds].
    - rewrite Hmap, foldl_app. cbn [foldl].
      pose proof (foldl_heaps_only (applyMetadata (masterVolume s))
                    entries (with_savedSoundIds newIds s)
                    (applyMetadata_heaps_only _)) as Hframe.
      pose proof (memo_loop_object_other (masterVolume s) (with_savedSoundIds newIds s)
                    entries ref Hold') as Hobju.
      revert Hframe Hobju.
      generalize (foldl (applyMetadata (masterVolume s)) (with_savedSoundIds newIds s) entries)
        as u.
      intros u Hframe Hobju.
      cbn [savedSoundObjects with_savedSoundIds] in Hobju. rewrite Hobj in Hobju.
      assert (is_Some (audios u !! audio)) as [element0 Helement0].
      { apply lookup_lt_is_Some. rewrite (ho_audios _ _ Hframe).
        cbn [audios with_savedSoundIds]. by apply lookup_lt_Some in Helement. }
      rewrite <- Hoa in Helement0.
      destruct (applyMetadata_entry (masterVolume s) u i ref object element0 Hobju Helement0)
        as [Ho Ha].
      rewrite (ho_metadata _ _ Hframe) in Ho, Ha.
      cbn [metadataRef with_savedSoundIds] in Ho, Ha. rewrite Hmds in Ho, Ha.
      rewrite Hoa in Ha.
      eexists _, _. split_and!; [exact Ho| | |exact Ha|done].
      + cbn. by rewrite Hov.
      + done.
    - exists object, element. done. }
  revert Hsound Helement' Hmd2.
  assert (savedSoundsMap (render true (with_savedSoundIds newIds s))
          = savedSoundsMap (with_savedSoundIds newIds s)) as Hsame.
  { unfold savedSoundsMap, savedSoundsMapData.
    destruct (render_session true (with_savedSoundIds newIds s)) as (-> & _ & _ & -> & _).
    done. }
  unfold memberVolume, memberSound. rewrite Hsame, Hmap, assoc_get_snoc by done.
  generalize (render true (with_savedSoundIds newIds s)) as st2.
  intros st2 Hsound Helement' Hmd2. rewrite Hsound, Hmd2.
  split.
  - cbn. by rewrite Hvol.
  - exists sound, element'. by rewrite Haudio.
Qed.

(** C1, as the code has it.  [removeSound] deletes the metadata entry of
    the id, and [addSound] never writes the table: after [remove(i)] and
    [add(i, hint2)], whatever volume and loop flag were recorded before, [i]
    is a member without a metadata entry and its loop flag reads [false].
    The clip is seeded from the defaults: when [hint2] is the clip [i], the
    objects of the resolved map exist, and the add appends or the collation
    is a total order, the resolved sound of [i] has volume 100, the member
    volume reads 100, and its audio element does not loop. *)
Theorem remove_then_add_resets `{Runtime} (i : string) (hint2 : Sound) (index : option Z)
    (st : Store) :
  i ∈ savedSoundIds (addSound i hint2 index (removeSound i st))
  ∧ metadataRef (removeSound i st) !! i = None
  ∧ metadataRef (addSound i hint2 index (removeSound i st)) !! i = None
  ∧ memberLoop (addSound i hint2 index (removeSound i st)) i = false
  ∧ (sound_id hint2 = i →
     resolved_allocated st →
     index = None ∨ total_collation →
     memberVolume (addSound i hint2 index (removeSound i st)) i = 100
     ∧ ∃ sound element,
         memberSound (addSound i hint2 index (removeSound i st)) i = Some sound
         ∧ saved_volume sound = Some 100
         ∧ audios (addSound i hint2 index (removeSound i st)) !! saved_audio sound
           = Some element
         ∧ audio_loop element = false).
Proof.
  destruct (removeSound_facts i st) as (Hmd1 & Hcache1 & Hlen1).
  assert (i ∉ savedSoundIds (removeSound i st)) as Hnotin.
  { rewrite removeSound_ids. intros [Hne _]%list_elem_of_filter. done. }
  assert (metadataRef (addSound i hint2 index (removeSound i st)) !! i = None) as Hmd2
    by (by rewrite addSound_metadata).
  split_and!; [|done|done| |].
  - rewrite addSound_ids, bool_decide_eq_false_2 by done.
    destruct index as [i0|]; [case_bool_decide|].
    + rewrite splice_in_Permutation. apply list_elem_of_here.
    + apply elem_of_app. right. apply list_elem_of_here.
    + apply elem_of_app. right. apply list_elem_of_here.
  - unfold memberLoop. by rewrite Hmd2.
  - intros Hid Halloc Hcase.
    assert (cachedEntries (sortIds (savedSoundIds (removeSound i st))) (removeSound i st)
            = assoc_delete i (savedSoundsMap st)) as Hentries1.
    { unfold cachedEntries. revert Hcache1.
      destruct (queryCache (removeSound i st) !! _); cbn; [|done]. by intros [= ->]. }
    apply addSound_seeds_defaults; try done.
    + rewrite Hentries1. apply assoc_get_delete.
    + rewrite Hentries1, Hlen1. apply Forall_forall.
      intros [k r] Hin%assoc_delete_elem_of.
      destruct (Halloc k r Hin) as [x Hx]. by apply lookup_lt_Some in Hx.
    + by apply addSound_key.
Qed.

Lemma tunedStore_allocated : @resolved_allocated sampleRuntime tunedStore.
Proof.
  intros key ref Hin. vm_compute in Hin.
  apply list_elem_of_singleton in Hin as [= -> ->]. vm_compute. eauto.
Qed.

Lemma remove_then_add_resets_witness :
  @memberVolume sampleRuntime
    (@addSound sampleRuntime "clip1" rain (Some 0%Z)
       (@removeSound sampleRuntime "clip1" tunedStore))
    "clip1" = 100
  ∧ memberLoop
      (@addSound sampleRuntime "clip1" rain (Some 0%Z)
         (@removeSound sampleRuntime "clip1" tunedStore))
      "clip1" = false.
Proof.
  destruct (@remove_then_add_resets sampleRuntime "clip1" rain (Some 0%Z) tunedStore)
    as (_ & _ & _ & Hloop & Hvolume).
  split; [|exact Hloop].
  apply Hvolume; [reflexivity|apply tunedStore_allocated|].
  right. apply sampleRuntime_total.
Defined.

(** C1, the counterexample: the clip is tuned to volume 40 and looping;
    after [removeSound] and [addSound] its metadata entry is gone, its
    volume reads 100 and neither the member nor its audio element loops. *)
Lemma readd_forgets_tuning :
  "clip1" ∈ savedSoundIds tunedStore
  ∧ metadataRef tunedStore !! "clip1" = Some {| md_volume := Some 40; md_loop := Some true |}
  ∧ @memberVolume sampleRuntime tunedStore "clip1" = 40
  ∧ memberLoop tunedStore "clip1" = true
  ∧ let st2 := @addSound sampleRuntime "clip1" rain None
                 (@removeSound sampleRuntime "clip1" tunedStore) in
    metadataRef st2 !! "clip1" = None
    ∧ @memberVolume sampleRuntime st2 "clip1" = 100
    ∧ ¬ @memberVolume sampleRuntime st2 "clip1" == 40
    ∧ memberLoop st2 "clip1" = false
    ∧ audio_loop <$> @memberAudio sampleRuntime st2 "clip1" = Some false.
Proof.
  cbv zeta. split_and!; try (vm_compute; reflexivity).
  - vm_compute. apply list_elem_of_here.
  - vm_compute. discriminate.
Qed.

(** ** Loops over the resolved map *)

Lemma assoc_get_NoDup {A} key (value : A) entries :
  NoDup entries.*1 → (key, value) ∈ entries → assoc_get key entries = Some value.
Proof.
  induction entries as [|[k v] entries IH]; cbn; intros Hnodup Hin.
  - by apply elem_of_nil in Hin.
  - apply NoDup_cons in Hnodup as [Hnotin Hnodup].
    apply elem_of_cons in Hin as [[= -> ->]|Hin].
    + by rewrite decide_True.
    + rewrite decide_False; [by apply IH|].
      intros ->. apply Hnotin. apply list_elem_of_fmap. by exists (key, value).
Qed.

Section PerEntryLoop.
(** A loop whose body, at the entry [(key, ref)] of a well-formed map,
    updates the object behind [ref] and its audio element and nothing
    else. *)
Variables (entries0 : list (string * nat)) (objects0 : list SavedSound).
Variable step : Store → string * nat → Store.
Variable upd_object : string → SavedSound → SavedSound → SavedSound.
Variable upd_audio : string → SavedSound → Audio → Audio.
Variable inv : Store → Prop.
Hypothesis entries0_wf : entries_wf entries0 objects0.
Hypothesis step_spec :
  ∀ s key ref sound,
    inv s → (key, ref) ∈ entries0 →
    savedSoundObjects s !! ref = Some sound → objects0 !! ref = Some sound →
    inv (step s (key, ref))
    ∧ savedSoundObjects (step s (key, ref))
      = alter (upd_object key sound) ref (savedSoundObjects s)
    ∧ audios (step s (key, ref))
      = alter (upd_audio key sound) (saved_audio sound) (audios s).

Lemma per_entry_loop entries s :
  entries ⊆ entries0 → NoDup entries.*1 → inv s →
  (∀ key ref, (key, ref) ∈ entries → savedSoundObjects s !! ref = objects0 !! ref) →
  inv (foldl step s entries)
  ∧ (∀ key ref sound, (key, ref) ∈ entries → objects0 !! ref = Some sound →
       savedSoundObjects (foldl step s entries) !! ref = Some (upd_object key sound sound)
       ∧ audios (foldl step s entries) !! saved_audio sound
         = upd_audio key sound <$> audios s !! saved_audio sound)
  ∧ (∀ ref, (∀ key, (key, ref) ∉ entries) →
       savedSoundObjects (foldl step s entries) !! ref = savedSoundObjects s !! ref)
  ∧ (∀ audio,
       (∀ key ref sound, (key, ref) ∈ entries → objects0 !! ref = Some sound →
          saved_audio sound ≠ audio) →
       audios (foldl step s entries) !! audio = audios s !! audio).
Proof.
  destruct entries0_wf as [Hkeys Hobjects Haudios].
  revert s. induction entries as [|[key0 ref0] entries IH]; intros s Hsub Hnodup Hinv Hfresh.
  { cbn. split_and!; [done| |done|done]. intros ??? []%elem_of_nil. }
  cbn [foldl].
  assert ((key0, ref0) ∈ entries0) as Hin0 by (apply Hsub, list_elem_of_here).
  destruct (Hobjects key0 ref0 Hin0) as (sound0 & Hsound0 & Hid0).
  assert (savedSoundObjects s !! ref0 = Some sound0) as Hs0.
  { rewrite (Hfresh key0 ref0); [done|apply list_elem_of_here]. }
  destruct (step_spec s key0 ref0 sound0 Hinv Hin0 Hs0 Hsound0) as (Hinv1 & Hobj1 & Haud1).
  cbn in Hnodup. apply NoDup_cons in Hnodup as [Hnotin0 Hnodup].
  assert (∀ key ref, (key, ref) ∈ entries → key ≠ key0) as Hkey_ne.
  { intros key ref Hin ->. apply Hnotin0. apply list_elem_of_fmap. by exists (key0, ref). }
  assert (∀ key ref sound, (key, ref) ∈ entries → objects0 !! ref = Some sound →
            ref ≠ ref0 ∧ saved_audio sound ≠ saved_audio sound0) as Hne.
  { intros key ref sound Hin Hsound.
    assert ((key, ref) ∈ entries0) as Hin' by (by apply Hsub, list_elem_of_further).
    split.
    - intros ->. apply (Hkey_ne key ref0 Hin).
      apply (Haudios key ref0 sound key0 ref0 sound0); try done. congruence.
    - intros Heq. apply (Hkey_ne key ref Hin).
      by apply (Haudios key ref sound key0 ref0 sound0). }
  destruct (IH (step s (key0, ref0))) as (IHinv & IHentry & IHobj & IHaud); try done.
  { intros x Hx. by apply Hsub, list_elem_of_further. }
  { intros key ref Hin.
    destruct (Hobjects key ref) as (sound & Hsound & _);
      [by apply Hsub, list_elem_of_further|].
    rewrite Hobj1, list_lookup_alter_ne; [apply (Hfresh key); by apply list_elem_of_further|].
    intros <-. by destruct (Hne key ref0 sound Hin Hsound). }
  split_and!; [done| | |].
  - intros key ref sound [[= -> ->]|Hin]%elem_of_cons Hsound.
    + assert (sound = sound0) as -> by congruence. split.
      * rewrite IHobj, Hobj1, list_lookup_alter_eq, Hs0; [done|].
        intros key Hin. destruct (Hobjects key ref0) as (sound & Hsound' & _);
          [by apply Hsub, list_elem_of_further|].
        by destruct (Hne key ref0 sound Hin Hsound').
      * rewrite IHaud, Haud1, list_lookup_alter_eq; [done|].
        intros key ref sound Hin Hsound'. by destruct (Hne key ref sound Hin Hsound').
    + destruct (IHentry key ref sound Hin Hsound) as [-> ->]. split; [done|].
      rewrite Haud1, list_lookup_alter_ne; [done|].
      intros Heq. by destruct (Hne key ref sound Hin Hsound).
  - intros ref Hnone. rewrite IHobj.
    + rewrite Hobj1, list_lookup_alter_ne; [done|].
      intros ->. apply (Hnone key0), list_elem_of_here.
    + intros key Hin. apply (Hnone key). by apply list_elem_of_further.
  - intros audio Hnone. rewrite IHaud.
    + rewrite Haud1, list_lookup_alter_ne; [done|].
      intros <-. apply (Hnone key0 ref0 sound0); [apply list_elem_of_here|done|done].
    + intros key ref sound Hin Hsound. apply (Hnone key ref sound); [|done].
      by apply list_elem_of_further.
Qed.
End PerEntryLoop.

Lemma elem_of_savedSoundsMap `{Runtime} st entry :
  entry ∈ savedSoundsMap st →
  ∃ currentMap, queryCache st !! sortIds (savedSoundIds st) = Some currentMap
                ∧ map_entries currentMap = savedSoundsMap st.
Proof.
  unfold savedSoundsMap, savedSoundsMapData.
  destruct (queryCache st !! sortIds (savedSoundIds st)) as [currentMap|]; cbn.
  - eauto.
  - by intros ?%elem_of_nil.
Qed.

Lemma resolved_wf_entries `{Runtime} st :
  resolved_wf st → entries_wf (savedSoundsMap st) (savedSoundObjects st).
Proof.
  intros [Hkeys Hobjects Haudios _]. split; [done| |done].
  intros key ref Hin. destruct (Hobjects key ref Hin) as (sound & ? & ? & _). eauto.
Qed.

(** The loop of [setMasterVolume]. *)
Lemma applyMaster_objects `{Runtime} volume st entry :
  savedSoundObjects (applyMaster volume st entry) = savedSoundObjects st.
Proof.
  unfold applyMaster. destruct (savedSoundObjects st !! entry.2) as [sound|]; [|done].
  unfold updateCached. cbn.
  destruct (queryCache st !! _) as [currentMap|]; [|done].
  destruct (assoc_get _ _) as [updated|]; [|done].
  unfold write_sound_audio. cbn. by destruct (savedSoundObjects st !! updated).
Qed.

Lemma master_loop_objects `{Runtime} volume st entries :
  savedSoundObjects (foldl (applyMaster volume) st entries) = savedSoundObjects st.
Proof.
  revert st. induction entries as [|entry entries IH]; intros st; cbn; [done|].
  by rewrite IH, applyMaster_objects.
Qed.

Lemma master_loop_audios `{Runtime} volume st :
  resolved_wf st →
  ∀ key ref sound,
    (key, ref) ∈ savedSoundsMap st → savedSoundObjects st !! ref = Some sound →
    audio_volume <$> audios (foldl (applyMaster volume) st (savedSoundsMap st))
                       !! saved_audio sound
    = (λ _, effectiveVolume (default 100 (saved_volume sound)) volume)
        <$> audios st !! saved_audio sound.
Proof.
  intros Hwf key ref sound Hin Hsound.
  pose proof (resolved_wf_entries st Hwf) as Hentries.
  destruct (per_entry_loop (savedSoundsMap st) (savedSoundObjects st) (applyMaster volume)
              (λ _ _ x, x)
              (λ _ sound a,
                 audio_set_volume (effectiveVolume (default 100 (saved_volume sound)) volume)
                   (audio_set_volume (effectiveVolume (default 100 (saved_volume sound)) volume)
                      a))
              (heaps_only st) Hentries) with (entries := savedSoundsMap st) (s := st)
    as (_ & Hentry & _ & _).
  - (* the body of the loop *)
    clear key ref sound Hin Hsound.
    intros s key ref sound Hinv Hin Hs Hsound.
    destruct (ewf_objects _ _ Hentries key ref Hin) as (sound' & Hsound' & Hid).
    assert (sound' = sound) as -> by congruence.
    destruct (elem_of_savedSoundsMap st _ Hin) as (currentMap & Hcache & Hmap).
    assert (assoc_get key (map_entries currentMap) = Some ref) as Hget.
    { rewrite Hmap. apply assoc_get_NoDup; [apply Hentries|done]. }
    unfold applyMaster. cbn [fst snd]. rewrite Hs.
    unfold updateCached. cbn [queryCache savedSoundIds write_audio with_audios].
    rewrite (ho_cache _ _ Hinv), (ho_ids _ _ Hinv), Hcache, Hid, Hget.
    unfold write_sound_audio. cbn [savedSoundObjects write_audio with_audios]. rewrite Hs.
    split_and!.
    + eapply heaps_only_trans; [exact Hinv|].
      eapply heaps_only_trans; apply write_audio_heaps_only.
    + cbn. by rewrite list_alter_id.
    + cbn. by rewrite list_alter_alter_eq.
  - done.
  - apply Hentries.
  - apply heaps_only_refl.
  - done.
  - destruct (Hentry key ref sound Hin Hsound) as [_ ->].
    by destruct (audios st !! saved_audio sound).
Qed.

(** The loop of [useMemo]. *)
Lemma memo_loop `{Runtime} master st :
  entries_wf (savedSoundsMap st) (savedSoundObjects st) →
  ∀ key ref sound,
    (key, ref) ∈ savedSoundsMap st → savedSoundObjects st !! ref = Some sound →
    let baseVolume :=
      default (default 100 (saved_volume sound)) (metadataRef st !! key ≫= md_volume) in
    savedSoundObjects (foldl (applyMetadata master) st (savedSoundsMap st)) !! ref
      = Some (saved_set_volume baseVolume sound)
    ∧ audio_volume <$> audios (foldl (applyMetadata master) st (savedSoundsMap st))
                         !! saved_audio sound
      = (λ _, effectiveVolume baseVolume master) <$> audios st !! saved_audio sound.
Proof.
  intros Hentries key ref sound Hin Hsound baseVolume.
  destruct (per_entry_loop (savedSoundsMap st) (savedSoundObjects st) (applyMetadata master)
              (λ key sound,
                 saved_set_volume
                   (default (default 100 (saved_volume sound))
                      (metadataRef st !! key ≫= md_volume)))
              (λ key sound,
                 audio_set_loop (default false (metadataRef st !! key ≫= md_loop))
                 ∘ audio_set_volume
                     (effectiveVolume
                        (default (default 100 (saved_volume sound))
                           (metadataRef st !! key ≫= md_volume)) master))
              (heaps_only st) Hentries) with (entries := savedSoundsMap st) (s := st)
    as (_ & Hentry & _ & _).
  - clear key ref sound Hin Hsound baseVolume.
    intros s key ref sound Hinv Hin Hs Hsound.
    unfold applyMetadata. cbn [fst snd]. rewrite Hs, (ho_metadata _ _ Hinv). split_and!.
    + eapply heaps_only_trans; [exact Hinv|].
      eapply heaps_only_trans; [|apply write_audio_heaps_only].
      eapply heaps_only_trans; [|apply write_audio_heaps_only].
      apply write_saved_heaps_only.
    + done.
    + cbn. by rewrite list_alter_alter_eq.
  - done.
  - apply Hentries.
  - apply heaps_only_refl.
  - done.
  - destruct (Hentry key ref sound Hin Hsound) as [-> ->]. split; [done|].
    by destruct (audios st !! saved_audio sound).
Qed.

Lemma Qeq_of_eq (x y : Q) : x = y → x == y.
Proof. by intros ->. Qed.

Lemma effectiveVolume_master volume master1 master2 :
  master1 == master2 → effectiveVolume volume master1 == effectiveVolume volume master2.
Proof. intros Heq. unfold effectiveVolume. by rewrite Heq. Qed.

Lemma memberSound_entry `{Runtime} st id sound :
  memberSound st id = Some sound →
  ∃ ref, (id, ref) ∈ savedSoundsMap st ∧ savedSoundObjects st !! ref = Some sound.
Proof.
  unfold memberSound. destruct (assoc_get id (savedSoundsMap st)) as [ref|] eqn:Hget; [|done].
  intros Hsound. exists ref. split; [by apply assoc_get_elem_of|done].
Qed.

Lemma savedSoundsMap_ext `{Runtime} st t :
  savedSoundIds t = savedSoundIds st → queryCache t = queryCache st →
  savedSoundsMap t = savedSoundsMap st.
Proof. intros Hids Hcache. unfold savedSoundsMap, savedSoundsMapData. by rewrite Hids, Hcache. Qed.

Lemma memberAudio_inv `{Runtime} st id audio :
  memberAudio st id = Some audio →
  ∃ ref sound, (id, ref) ∈ savedSoundsMap st
               ∧ savedSoundObjects st !! ref = Some sound
               ∧ memberSound st id = Some sound
               ∧ audios st !! saved_audio sound = Some audio.
Proof.
  unfold memberAudio. destruct (memberSound st id) as [sound|] eqn:Hsound; [|done].
  intros Haudio. destruct (memberSound_entry st id sound Hsound) as (ref & Hin & Hobj).
  by exists ref, sound.
Qed.

(** A store that carries the audio elements written by the loop of
    [setMasterVolume] obeys the law for the new master volume. *)
Lemma law_after_handler `{Runtime} master st t :
  resolved_wf st →
  savedSoundIds t = savedSoundIds st → queryCache t = queryCache st →
  metadataRef t = metadataRef st → savedSoundObjects t = savedSoundObjects st →
  audios t = audios (foldl (applyMaster master) st (savedSoundsMap st)) →
  ∀ id audio, memberAudio t id = Some audio →
    audio_volume audio = effectiveVolume (memberVolume t id) master.
Proof.
  intros Hwf Hids Hcache Hmd Hobjects Haudios id audio Hmember.
  destruct (memberAudio_inv t id audio Hmember) as (ref & sound & Hin & Hobj & Hsound & Haudio).
  rewrite (savedSoundsMap_ext st t Hids Hcache) in Hin. rewrite Hobjects in Hobj.
  pose proof (master_loop_audios master st Hwf id ref sound Hin Hobj) as Hloop.
  rewrite <- Haudios, Haudio in Hloop. cbn in Hloop.
  destruct (audios st !! saved_audio sound) as [before|]; [|done].
  injection Hloop as ->.
  unfold memberVolume. rewrite Hsound, Hmd. cbn.
  destruct (metadataRef st !! id ≫= md_volume) as [volume|] eqn:Hvolume; cbn; [|done].
  by rewrite (wf_volumes st Hwf id ref sound volume Hin Hobj Hvolume).
Qed.

(** A store that carries the objects and audio elements written by the
    loop of [useMemo] obeys the law for the master volume used there. *)
Lemma law_after_memo `{Runtime} master st t :
  entries_wf (savedSoundsMap st) (savedSoundObjects st) →
  savedSoundIds t = savedSoundIds st → queryCache t = queryCache st →
  metadataRef t = metadataRef st →
  savedSoundObjects t
    = savedSoundObjects (foldl (applyMetadata master) st (savedSoundsMap st)) →
  audios t = audios (foldl (applyMetadata master) st (savedSoundsMap st)) →
  ∀ id audio, memberAudio t id = Some audio →
    audio_volume audio = effectiveVolume (memberVolume t id) master.
Proof.
  intros Hwf Hids Hcache Hmd Hobjects Haudios id audio Hmember.
  destruct (memberAudio_inv t id audio Hmember) as (ref & sound' & Hin & Hobj & Hsound & Haudio).
  rewrite (savedSoundsMap_ext st t Hids Hcache) in Hin.
  destruct (ewf_objects _ _ Hwf id ref Hin) as (sound & Hbefore & _).
  destruct (memo_loop master st Hwf id ref sound Hin Hbefore) as [Hobj' Hloop].
  rewrite <- Hobjects, Hobj in Hobj'. injection Hobj' as ->.
  rewrite <- Haudios in Hloop. cbn [saved_audio saved_set_volume] in Haudio.
  rewrite Haudio in Hloop. cbn in Hloop.
  destruct (audios st !! saved_audio sound) as [before|]; [|done].
  injection Hloop as ->.
  unfold memberVolume. rewrite Hsound, Hmd. cbn.
  by destruct (metadataRef st !! id ≫= md_volume).
Qed.

Lemma write_sound_audio_eq f ref sound st :
  savedSoundObjects st !! ref = Some sound →
  write_sound_audio f ref st = write_audio f (saved_audio sound) st.
Proof. intros Hsound. unfold write_sound_audio. by rewrite Hsound. Qed.

(** [setSoundVolume] on a resolved id: the object, its audio element and
    the metadata entry are written; everything else is as before. *)
Lemma setSoundVolume_resolved `{Runtime} id volume st ref sound :
  assoc_get id (savedSoundsMap st) = Some ref →
  savedSoundObjects st !! ref = Some sound →
  let applied := effectiveVolume volume (masterVolume st) in
  let st' := setSoundVolume id volume st in
  savedSoundIds st' = savedSoundIds st
  ∧ masterVolume st' = masterVolume st
  ∧ queryCache st' = queryCache st
  ∧ metadataRef st' !! id ≫= md_volume = Some volume
  ∧ savedSoundObjects st' !! ref = Some (saved_set_volume volume sound)
  ∧ audios st' !! saved_audio sound
    = audio_set_volume applied <$> audios st !! saved_audio sound
  ∧ ∀ r, r ≠ saved_audio sound → audios st' !! r = audios st !! r.
Proof.
  intros Hget Hsound applied st'. subst applied st'.
  assert (∃ currentMap, queryCache st !! sortIds (savedSoundIds st) = Some currentMap
                        ∧ assoc_get id (map_entries currentMap) = Some ref)
    as (currentMap & Hcache & Hentry).
  { revert Hget. unfold savedSoundsMap, savedSoundsMapData.
    destruct (queryCache st !! sortIds (savedSoundIds st)) as [currentMap|]; [|done]. eauto. }
  unfold setSoundVolume. rewrite Hget.
  assert (savedSoundObjects (write_saved (saved_set_volume volume) ref st) !! ref
          = Some (saved_set_volume volume sound)) as Hwritten.
  { cbn. by rewrite list_lookup_alter_eq, Hsound. }
  rewrite (write_sound_audio_eq _ ref _ _ Hwritten).
  unfold updateCached. cbn [queryCache savedSoundIds with_metadataRef write_audio with_audios
                             write_saved with_savedSoundObjects].
  rewrite Hcache, Hentry.
  rewrite (write_sound_audio_eq _ ref (saved_set_volume volume (saved_set_volume volume sound)))
    by (cbn; by rewrite !list_lookup_alter_eq, Hsound).
  cbn. split_and!; try done.
  - by rewrite lookup_insert_eq.
  - by rewrite !list_lookup_alter_eq, Hsound.
  - rewrite !list_lookup_alter_eq. by destruct (audios st !! saved_audio sound).
  - intros r Hne. by rewrite !list_lookup_alter_ne.
Qed.

(** C4, as the code has it.  For a volume [v] and a master volume in
    [0, 100], [setSoundVolume(id, v)] on a resolved member records [v] as
    the member's volume and applies exactly
    [(v / 100) * (masterVolume / 100)] to that member's audio element; it
    writes no other audio element.  For a master volume [m] in [0, 100],
    [setMasterVolume(m)] on a store whose resolved map is well formed and
    whose resolved members have stored volumes in [0, 100] leaves every
    resolved member's audio element at exactly
    [(memberVolume / 100) * (masterVolume / 100)], where [memberVolume] is
    the member's stored volume and [masterVolume] is the new master volume
    [m]. *)
Theorem effective_volume_law `{Runtime} (st : Store) :
  (∀ id volume audio,
     volume_in_range volume → volume_in_range (masterVolume st) →
     memberAudio st id = Some audio →
     memberVolume (setSoundVolume id volume st) id = volume
     ∧ masterVolume (setSoundVolume id volume st) = masterVolume st
     ∧ audio_volume <$> memberAudio (setSoundVolume id volume st) id
       = Some (effectiveVolume volume (masterVolume st))
     ∧ ∀ sound r, memberSound st id = Some sound → r ≠ saved_audio sound →
         audios (setSoundVolume id volume st) !! r = audios st !! r)
  ∧ (resolved_wf st →
     (∀ id, is_Some (memberSound st id) → volume_in_range (memberVolume st id)) →
     ∀ master,
       volume_in_range master →
       masterVolume (setMasterVolume master st) == master
       ∧ ∀ id audio,
           memberAudio (setMasterVolume master st) id = Some audio →
           audio_volume audio
           == effectiveVolume (memberVolume (setMasterVolume master st) id)
                (masterVolume (setMasterVolume master st))).
Proof.
  split.
  - intros id volume audio _ _ Hmember.
    unfold memberAudio, memberSound in Hmember.
    destruct (assoc_get id (savedSoundsMap st)) as [ref|] eqn:Hget; [|done].
    destruct (savedSoundObjects st !! ref) as [sound|] eqn:Hsound; [|done].
    destruct (setSoundVolume_resolved id volume st ref sound Hget Hsound)
      as (Hids & Hmaster & Hcache & Hmd & Hobj & Haudio & Hothers).
    assert (memberSound (setSoundVolume id volume st) id
            = Some (saved_set_volume volume sound)) as Hsound'.
    { unfold memberSound. by rewrite (savedSoundsMap_ext st _ Hids Hcache), Hget. }
    split_and!.
    + unfold memberVolume. by rewrite Hmd.
    + done.
    + unfold memberAudio. rewrite Hsound'. cbn [saved_audio saved_set_volume].
      rewrite Haudio, Hmember. done.
    + unfold memberSound. rewrite Hget, Hsound. intros sound' r [= <-]. apply Hothers.
  - intros Hwf _ master _.
    pose proof (setMasterVolume_handler_heaps master st) as Hheaps.
    pose proof (master_loop_objects master st (savedSoundsMap st)) as Hobjects.
    unfold setMasterVolume, setMasterVolume_handler.
    destruct (Qeq_bool (masterVolume st) master) eqn:Hsame.
    + (* the same master volume: no re-render *)
      apply Qeq_bool_iff in Hsame.
      cbn [masterVolume saveToStorage with_localStorage]. rewrite (ho_master _ _ Hheaps).
      split; [done|]. intros id audio Hmember.
      rewrite (effectiveVolume_master _ _ _ Hsame).
      apply Qeq_of_eq.
      apply (law_after_handler master st); try done; cbn; try done; apply Hheaps.
    + rewrite (proj1 (proj2 (render_session _ _))).
      cbn [masterVolume with_masterVolume]. split; [reflexivity|].
      intros id audio. unfold render.
      set (s0 := with_masterVolume master
                   (saveToStorage
                      {| storage_savedSounds :=
                           savedSoundIds (foldl (applyMaster master) st (savedSoundsMap st));
                         storage_metadata :=
                           metadataRef (foldl (applyMaster master) st (savedSoundsMap st));
                         storage_masterVolume := Some master |}
                      (foldl (applyMaster master) st (savedSoundsMap st)))).
      assert (savedSoundIds s0 = savedSoundIds st ∧ queryCache s0 = queryCache st
              ∧ metadataRef s0 = metadataRef st
              ∧ savedSoundObjects s0 = savedSoundObjects st
              ∧ audios s0 = audios (foldl (applyMaster master) st (savedSoundsMap st))
              ∧ masterVolume s0 = master) as (Hids0 & Hcache0 & Hmd0 & Hobj0 & Haud0 & Hm0).
      { unfold s0. cbn. split_and!; try done; apply Hheaps. }
      clearbody s0.
      destruct (match memoDeps s0 with Some _ => _ | None => _ end).
      * (* the memo runs again *)
        rewrite Hm0.
        pose proof (foldl_heaps_only (applyMetadata master) (savedSoundsMap s0) s0
                      (applyMetadata_heaps_only _)) as Hmemo.
        intros Hmember. apply Qeq_of_eq.
        apply (law_after_memo master s0); try done; cbn; try done; try apply Hmemo.
        rewrite (savedSoundsMap_ext st s0 Hids0 Hcache0), Hobj0.
        by apply resolved_wf_entries.
      * intros Hmember. apply Qeq_of_eq.
        apply (law_after_handler master st); try done.
Qed.

Lemma secondPausedStore_wf : @resolved_wf sampleRuntime secondPausedStore.
Proof.
  assert (@savedSoundsMap sampleRuntime secondPausedStore = [("clip1", 0%nat); ("clip2", 1%nat)])
    as Hmap by (vm_compute; reflexivity).
  assert (savedSoundObjects secondPausedStore
          = [ {| saved_id := "clip1"; saved_name := "Rain"; saved_url := "https://cdn/rain.mp3";
                 saved_category := ""; saved_type := ""; saved_audio := 0;
                 saved_volume := Some 100 |};
              {| saved_id := "clip2"; saved_name := "Wind"; saved_url := "https://cdn/wind.mp3";
                 saved_category := ""; saved_type := ""; saved_audio := 1;
                 saved_volume := Some 100 |} ])
    as Hobjects by (vm_compute; reflexivity).
  assert (length (audios secondPausedStore) = 2%nat) as Haudios by (vm_compute; reflexivity).
  assert (metadataRef secondPausedStore = ∅) as Hmetadata by (vm_compute; reflexivity).
  generalize dependent secondPausedStore. intros st Hmap Hobjects Haudios Hmetadata.
  split; rewrite ?Hmap, ?Hobjects, ?Hmetadata.
  - cbn. apply NoDup_cons. split; [|apply NoDup_singleton].
    intros ?%list_elem_of_singleton. discriminate.
  - intros key ref Hin.
    repeat (apply elem_of_cons in Hin as [[= -> ->]|Hin]);
      [| |by apply elem_of_nil in Hin];
      (eexists; split_and!; [reflexivity|reflexivity|]);
      apply lookup_lt_is_Some; rewrite Haudios; cbn; lia.
  - intros key1 ref1 sound1 key2 ref2 sound2 Hin1 Hin2.
    repeat (apply elem_of_cons in Hin1 as [[= -> ->]|Hin1]);
      [| |by apply elem_of_nil in Hin1];
      (repeat (apply elem_of_cons in Hin2 as [[= -> ->]|Hin2]);
       [| |by apply elem_of_nil in Hin2]);
      cbn; intros [= <-] [= <-]; cbn; done.
  - intros key ref sound volume _ _. by rewrite lookup_empty.
Qed.

Lemma secondPausedStore_volumes id :
  is_Some (@memberSound sampleRuntime secondPausedStore id) →
  volume_in_range (@memberVolume sampleRuntime secondPausedStore id).
Proof.
  intros [sound Hsound].
  destruct (@memberSound_entry sampleRuntime _ _ _ Hsound) as (ref & Hin & Hobject).
  assert (@savedSoundsMap sampleRuntime secondPausedStore = [("clip1", 0%nat); ("clip2", 1%nat)])
    as Hmap by (vm_compute; reflexivity).
  rewrite Hmap in Hin.
  assert (∀ member, member = "clip1" ∨ member = "clip2" →
            @memberVolume sampleRuntime secondPausedStore member = 100) as Hvolume.
  { intros ? [->| ->]; vm_compute; reflexivity. }
  clear Hsound Hobject Hmap. rewrite Hvolume.
  - split; vm_compute; discriminate.
  - apply elem_of_cons in Hin as [Hin|Hin]; [left; congruence|].
    apply elem_of_cons in Hin as [Hin|Hin]; [right; congruence|].
    by apply elem_of_nil in Hin.
Qed.

Lemma effective_volume_law_witness :
  effectiveVolume 100 50
  == effectiveVolume
       (@memberVolume sampleRuntime (@setMasterVolume sampleRuntime 50 secondPausedStore)
          "clip2")
       (masterVolume (@setMasterVolume sampleRuntime 50 secondPausedStore)).
Proof.
  refine (proj2 (proj2 (@effective_volume_law sampleRuntime secondPausedStore)
                   secondPausedStore_wf _ 50 _)
            "clip2"
            {| audio_src := "https://cdn/wind.mp3"; audio_volume := effectiveVolume 100 50;
               audio_loop := false; audio_paused := true |} _).
  - exact secondPausedStore_volumes.
  - split; vm_compute; discriminate.
  - vm_compute. reflexivity.
Defined.

(** C4, the counterexample: the second clip was played and then paused
    through its tile, so its element rests at volume 0.  After
    [setSoundVolume] on the first clip the second clip is still a member
    with stored volume 100 under master volume 100, and the volume on its
    audio element is 0, not 1. *)
Lemma setSoundVolume_leaves_other_members :
  "clip2" ∈ savedSoundIds (@setSoundVolume sampleRuntime "clip1" 40 secondPausedStore)
  ∧ @memberVolume sampleRuntime (@setSoundVolume sampleRuntime "clip1" 40 secondPausedStore)
      "clip2" = 100
  ∧ masterVolume (@setSoundVolume sampleRuntime "clip1" 40 secondPausedStore) = 100
  ∧ audio_volume
      <$> @memberAudio sampleRuntime
            (@setSoundVolume sampleRuntime "clip1" 40 secondPausedStore) "clip2"
    = Some 0
  ∧ ¬ 0 == effectiveVolume 100 100.
Proof.
  split_and!; try (vm_compute; reflexivity).
  - vm_compute. apply list_elem_of_further, list_elem_of_here.
  - vm_compute. discriminate.
Qed.

(** ** List helpers for the drag-and-drop handler *)

Lemma indexOf_Some x array i :
  indexOf x array = Some i → array !! i = Some x ∧ x ∉ take i array.
Proof.
  revert i. induction array as [|y rest IH]; intros i; cbn; [done|].
  case_decide as Hy.
  - intros [= <-]. subst. split; [done|]. cbn. apply not_elem_of_nil.
  - destruct (indexOf x rest) as [j|]; [|done]. cbn. intros [= <-].
    destruct (IH j eq_refl) as [Hlook Hnot]. split; [done|]. cbn.
    apply not_elem_of_cons. split; [congruence|done].
Qed.

Lemma indexOf_elem_of x array : x ∈ array → is_Some (indexOf x array).
Proof.
  induction array as [|y rest IH]; [by intros ?%elem_of_nil|].
  cbn. case_decide; [by eexists|].
  intros [->|Hin]%elem_of_cons; [done|]. destruct (IH Hin) as [j ->]. by eexists.
Qed.

Lemma arrayMove_Permutation array from to : arrayMove array from to ≡ₚ array.
Proof.
  unfold arrayMove. destruct (array !! from) as [moved|] eqn:Hfrom; [|done].
  rewrite <- Permutation_middle, take_drop. symmetry. by apply delete_Permutation.
Qed.

Lemma arrayMove_lookup array from to moved :
  array !! from = Some moved → (to < length array)%nat →
  arrayMove array from to !! to = Some moved.
Proof.
  intros Hfrom Hto. unfold arrayMove. rewrite Hfrom.
  pose proof (lookup_lt_Some _ _ _ Hfrom) as Hlt.
  assert (length (take to (delete from array)) = to) as Hlen.
  { rewrite length_take, length_delete by eauto. lia. }
  rewrite lookup_app_r by lia. by rewrite Hlen, Nat.sub_diag.
Qed.

Lemma filter_delete_ne (array : list string) from moved :
  array !! from = Some moved →
  filter (λ x, x ≠ moved) (delete from array) = filter (λ x, x ≠ moved) array.
Proof.
  revert from. induction array as [|y rest IH]; intros [|from] Hfrom; try done.
  - injection Hfrom as ->. change (delete 0%nat (moved :: rest)) with rest.
    rewrite filter_cons_False; [done|]. by intros [].
  - change (delete (S from) (y :: rest)) with (y :: delete from rest).
    rewrite !filter_cons. by rewrite (IH from Hfrom).
Qed.

Lemma arrayMove_others array from to moved :
  array !! from = Some moved →
  filter (λ x, x ≠ moved) (arrayMove array from to) = filter (λ x, x ≠ moved) array.
Proof.
  intros Hfrom. unfold arrayMove. rewrite Hfrom.
  rewrite filter_app, filter_cons_False by (by intros []).
  rewrite <- filter_app, take_drop. by apply filter_delete_ne.
Qed.

Lemma filter_ne_absent (id : string) (ids : list string) :
  id ∉ ids → filter (λ x, x ≠ id) ids = ids.
Proof.
  induction ids as [|y rest IH]; [done|].
  intros [Hne Hrest]%not_elem_of_cons. rewrite filter_cons_True by done. by rewrite IH.
Qed.

Lemma filter_splice_in (id : string) index (ids : list string) :
  id ∉ ids → filter (λ x, x ≠ id) (splice_in index id ids) = ids.
Proof.
  intros Hnotin. unfold splice_in.
  rewrite filter_app, filter_cons_False by (by intros []).
  rewrite <- filter_app, take_drop. by apply filter_ne_absent.
Qed.

(** ** Where [addSound] puts a new id, and what [removeSound] takes out *)

Lemma addSound_new_Permutation `{Runtime} id sound index st :
  id ∉ savedSoundIds st →
  savedSoundIds (addSound id sound index st) ≡ₚ id :: savedSoundIds st.
Proof.
  intros Hnotin. rewrite addSound_ids, bool_decide_eq_false_2 by done.
  destruct index as [i|]; [case_bool_decide|].
  - apply splice_in_Permutation.
  - by rewrite Permutation_app_comm.
  - by rewrite Permutation_app_comm.
Qed.



(** X2 ([addSound] then [removeSound]).  Removing an id right after it was
    added gives back the ordered sequence as it was before the addition,
    wherever the id had been inserted; the metadata table is the old one
    without an entry for the id. *)
Theorem removeSound_undoes_addSound `{Runtime} (id : string) (sound : Sound)
    (index : option Z) (st : Store) :
  id ∉ savedSoundIds st →
  savedSoundIds (removeSound id (addSound id sound index st)) = savedSoundIds st
  ∧ metadataRef (removeSound id (addSound id sound index st)) = delete id (metadataRef st).
Proof.
  intros Hnotin. rewrite removeSound_ids, removeSound_metadata, addSound_metadata.
  split; [|done].
  rewrite addSound_ids, bool_decide_eq_false_2 by done.
  destruct index as [i|]; [case_bool_decide|].
  - by apply filter_splice_in.
  - rewrite filter_app, filter_cons_False by (by intros []).
    rewrite filter_nil, app_nil_r. by apply filter_ne_absent.
  - rewrite filter_app, filter_cons_False by (by intros []).
    rewrite filter_nil, app_nil_r. by apply filter_ne_absent.
Qed.

Lemma removeSound_undoes_addSound_witness :
  savedSoundIds (@removeSound sampleRuntime "d"
                   (@addSound sampleRuntime "d" (clip "d") (Some 1%Z) abcStore))
  = savedSoundIds abcStore.
Proof.
  refine (proj1 (@removeSound_undoes_addSound sampleRuntime "d" (clip "d") (Some 1%Z)
                   abcStore _)).
  vm_compute. intros Hin.
  repeat (apply elem_of_cons in Hin as [Hin|Hin]; [discriminate|]).
  by apply elem_of_nil in Hin.
Defined.

(** X3 ([removeSound], sequence and metadata).  After [removeSound(id)]
    the id is not in the ordered sequence, every other id is in it exactly
    when it was before, the remaining ids keep their order, and the
    metadata entries of the other ids are untouched while the entry of [id]
    is gone.  Removing an id that is not in the sequence leaves the sequence
    as it is (its metadata entry is deleted all the same). *)
Theorem removeSound_takes_out `{Runtime} (id : string) (st : Store) :
  let st' := removeSound id st in
  (id ∉ savedSoundIds st')
  ∧ (∀ other, other ≠ id → (other ∈ savedSoundIds st' ↔ other ∈ savedSoundIds st))
  ∧ savedSoundIds st' `sublist_of` savedSoundIds st
  ∧ (id ∉ savedSoundIds st → savedSoundIds st' = savedSoundIds st)
  ∧ metadataRef st' !! id = None
  ∧ (∀ other, other ≠ id → metadataRef st' !! other = metadataRef st !! other).
Proof.
  cbv zeta. rewrite removeSound_ids, removeSound_metadata. split_and!.
  - by intros [? _]%list_elem_of_filter.
  - intros other Hne. rewrite list_elem_of_filter. tauto.
  - apply sublist_filter.
  - apply filter_ne_absent.
  - apply lookup_delete_eq.
  - intros other Hne. by apply lookup_delete_ne.
Qed.

(** ** The drag-and-drop handler *)

Lemma handleDragEnd_ids_cases `{Runtime} event st :
  savedSoundIds (handleDragEnd event st) ≡ₚ savedSoundIds st
  ∨ (∃ id, (id ∉ savedSoundIds st)
           ∧ savedSoundIds (handleDragEnd event st) ≡ₚ id :: savedSoundIds st)
  ∨ (∃ id, savedSoundIds (handleDragEnd event st)
           = filter (λ x, x ≠ id) (savedSoundIds st)).
Proof.
  unfold handleDragEnd. destruct (over_id event) as [overIdStr|]; [|by left].
  destruct (active_data event) as [sound|savedSoundId|]; [| |by left].
  - destruct (_ && _) eqn:Hcond; [|by left].
    apply andb_true_iff in Hcond as [_ Hnew]. apply negb_true_iff in Hnew.
    apply bool_decide_eq_false in Hnew.
    right; left. exists (sound_id sound). split; [done|].
    by apply addSound_new_Permutation.
  - destruct (_ && _).
    + right; right. exists savedSoundId. apply removeSound_ids.
    + left. case_bool_decide; [|done].
      destruct (indexOf savedSoundId (savedSoundIds st)), (indexOf overIdStr (savedSoundIds st));
        try done.
      case_bool_decide; [|done]. rewrite reorderSounds_ids. apply arrayMove_Permutation.
Qed.

(** X4 ([handleDragEnd], no duplicates).  Whatever is dragged and wherever
    it is dropped, [handleDragEnd] takes an ordered sequence without
    duplicates to an ordered sequence without duplicates: the array it hands
    to [reorderSounds] is always a rearrangement of the current sequence,
    and a library sound is only added when it is not yet in the sequence. *)
Theorem handleDragEnd_keeps_ids_distinct `{Runtime} (event : DragEndEvent) (st : Store) :
  NoDup (savedSoundIds st) → NoDup (savedSoundIds (handleDragEnd event st)).
Proof.
  intros Hnodup.
  destruct (handleDragEnd_ids_cases event st) as [Hperm|[(id & Hnotin & Hperm)|(id & Heq)]].
  - by rewrite Hperm.
  - rewrite Hperm. by apply NoDup_cons.
  - rewrite Heq. by apply NoDup_filter.
Qed.

Lemma handleDragEnd_keeps_ids_distinct_witness :
  NoDup (savedSoundIds
           (@handleDragEnd sampleRuntime
              {| active_data := SavedSoundData "c"; over_id := Some "a" |} abcStore)).
Proof.
  apply (@handleDragEnd_keeps_ids_distinct sampleRuntime
           {| active_data := SavedSoundData "c"; over_id := Some "a" |} abcStore).
  vm_compute.
  repeat (apply NoDup_cons; split;
          [by repeat (apply not_elem_of_cons; split; [discriminate|]); apply not_elem_of_nil|]).
  apply NoDup_nil_2.
Defined.



(** X6 ([handleDragEnd], reordering).  When a saved sound is dropped on
    another saved sound, the new ordered sequence is a rearrangement of the
    old one in which the dragged sound stands at the index the target had,
    and the other sounds keep their order. *)
Theorem handleDragEnd_moves_to_target `{Runtime} (dragged target : string) (st : Store) :
  dragged ∈ savedSoundIds st → target ∈ savedSoundIds st →
  dragged ≠ target → target ≠ "master-list-drop-zone" →
  let dropped :=
    handleDragEnd {| active_data := SavedSoundData dragged; over_id := Some target |} st in
  savedSoundIds dropped ≡ₚ savedSoundIds st
  ∧ (∃ to, indexOf target (savedSoundIds st) = Some to
           ∧ savedSoundIds dropped !! to = Some dragged)
  ∧ filter (λ x, x ≠ dragged) (savedSoundIds dropped)
    = filter (λ x, x ≠ dragged) (savedSoundIds st).
Proof.
  intros Hdragged Htarget Hne Hzone dropped. subst dropped.
  unfold handleDragEnd. cbn [over_id active_data].
  rewrite (bool_decide_eq_false_2 (target = _)) by done. rewrite andb_false_r.
  rewrite bool_decide_eq_true_2 by done.
  destruct (indexOf_elem_of dragged _ Hdragged) as [from Hfrom].
  destruct (indexOf_elem_of target _ Htarget) as [to Hto].
  rewrite Hfrom, Hto.
  destruct (indexOf_Some _ _ _ Hfrom) as [Hlook_from _].
  destruct (indexOf_Some _ _ _ Hto) as [Hlook_to _].
  rewrite bool_decide_eq_true_2 by (intros ->; congruence).
  rewrite reorderSounds_ids. split_and!.
  - apply arrayMove_Permutation.
  - exists to. split; [done|]. apply arrayMove_lookup; [done|].
    by eapply lookup_lt_Some.
  - by apply arrayMove_others.
Qed.

Lemma handleDragEnd_moves_to_target_witness :
  savedSoundIds
    (@handleDragEnd sampleRuntime
       {| active_data := SavedSoundData "c"; over_id := Some "a" |} abcStore)
  ≡ₚ savedSoundIds abcStore.
Proof.
  refine (proj1 (@handleDragEnd_moves_to_target sampleRuntime "c" "a" abcStore _ _ _ _)).
  - vm_compute. do 2 apply list_elem_of_further. apply list_elem_of_here.
  - vm_compute. apply list_elem_of_here.
  - discriminate.
  - discriminate.
Defined.

(** X7 ([handleDragEnd], drops that do nothing).  The handler leaves the
    store exactly as it is when the item is dropped outside every
    droppable, when a library sound that is already saved is dropped
    anywhere, when a saved sound is dropped on itself, and when a saved
    sound is dropped on something that is neither a saved sound nor the
    drop zone of the library. *)
Theorem handleDragEnd_ignored_drops `{Runtime} (st : Store) :
  (∀ data, handleDragEnd {| active_data := data; over_id := None |} st = st)
  ∧ (∀ sound over, sound_id sound ∈ savedSoundIds st →
       handleDragEnd {| active_data := LibrarySoundData sound; over_id := over |} st = st)
  ∧ (∀ id, id ≠ "master-list-drop-zone" →
       handleDragEnd {| active_data := SavedSoundData id; over_id := Some id |} st = st)
  ∧ (∀ id target, target ∉ savedSoundIds st → target ≠ "master-list-drop-zone" →
       handleDragEnd {| active_data := SavedSoundData id; over_id := Some target |} st = st).
Proof.
  unfold handleDragEnd. split_and!.
  - done.
  - intros sound [target|] Hin; [|done]. cbn [over_id active_data].
    rewrite (bool_decide_eq_true_2 (sound_id sound ∈ _)) by done.
    by rewrite andb_false_r.
  - intros id Hzone. cbn [over_id active_data].
    rewrite (bool_decide_eq_false_2 (id = "master-list-drop-zone")) by done.
    rewrite andb_false_r. case_bool_decide; [|done].
    destruct (indexOf id (savedSoundIds st)); [|done].
    by rewrite bool_decide_eq_false_2 by (by intros []).
  - intros id target Hnotin Hzone. cbn [over_id active_data].
    rewrite (bool_decide_eq_false_2 (target = _)) by done. rewrite andb_false_r.
    by rewrite bool_decide_eq_false_2.
Qed.

Lemma handleDragEnd_ignored_drops_witness :
  @handleDragEnd sampleRuntime
    {| active_data := LibrarySoundData (clip "a"); over_id := Some "b" |} abcStore
  = abcStore.
Proof.
  refine (proj1 (proj2 (@handleDragEnd_ignored_drops sampleRuntime abcStore))
            (clip "a") (Some "b") _).
  vm_compute. apply list_elem_of_here.
Defined.
(** ** Reading the stored record *)

Lemma json_strings_elem_of s items : s ∈ json_strings items ↔ JStr s ∈ items.
Proof.
  unfold json_strings. rewrite list_elem_of_omap. split.
  - intros (item & Hin & Hs). destruct item; try done. by injection Hs as ->.
  - intros Hin. by exists (JStr s).
Qed.

Lemma json_strings_JStr ids : json_strings (JStr <$> ids) = ids.
Proof.
  unfold json_strings. induction ids as [|x ids IH]; [done|]. cbn. by rewrite IH.
Qed.

Lemma metadata_entry_json metadata : metadata_entry (metadata_json metadata) = metadata.
Proof. by destruct metadata as [[volume|] [loop|]]. Qed.

Lemma metadata_table_json (table : gmap string SoundMetadata) :
  metadata_table (JObj (prod_map id metadata_json <$> map_to_list table)) = table.
Proof.
  cbn. rewrite <- (list_to_map_to_list table) at 2.
  induction (map_to_list table) as [|[key metadata] entries IH]; [done|].
  cbn. by rewrite IH, metadata_entry_json.
Qed.

(** X8 ([getStoredSounds], a valid record).  When the stored text parses
    to an object whose [savedSounds] is an array, the ordered sequence read
    from it consists of the strings of that array, in their order, entries
    of any other type being dropped; the master volume is the stored number,
    or 100 when the field is missing or not a number; and the metadata is
    the stored value when it is an object, or the empty table. *)
Theorem getStoredSounds_valid `{Runtime} (stored : string) (parsed : json)
    (items : list json) :
  stored ≠ EmptyString →
  JSON_parse stored = Some parsed →
  json_field "savedSounds" parsed = Some (JArr items) →
  let record := getStoredSounds (GetItemString stored) in
  (∀ id, id ∈ stored_savedSounds record ↔ JStr id ∈ items)
  ∧ (JStr <$> stored_savedSounds record) `sublist_of` items
  ∧ (∀ ids, items = JStr <$> ids → stored_savedSounds record = ids)
  ∧ (∀ master, json_field "masterVolume" parsed = Some (JNum master) →
       stored_masterVolume record = master)
  ∧ ((∀ master, json_field "masterVolume" parsed ≠ Some (JNum master)) →
       stored_masterVolume record = 100)
  ∧ (∀ fields, json_field "metadata" parsed = Some (JObj fields) →
       stored_metadata record = JObj fields)
  ∧ (json_field "metadata" parsed = None → stored_metadata record = JObj []).
Proof.
  intros Hnonempty Hparse Hitems record. subst record. cbn.
  rewrite bool_decide_eq_false_2 by done. rewrite Hparse.
  assert (json_truthy parsed = true) as -> by (by destruct parsed).
  rewrite Hitems. cbn. split; [intros id; apply json_strings_elem_of|]. split_and!.
  - clear. induction items as [|item items IH]; [done|].
    destruct item; cbn; try (by apply sublist_cons); by apply sublist_skip.
  - intros ids ->. apply json_strings_JStr.
  - by intros master ->.
  - intros Hnone. destruct (json_field "masterVolume" parsed) as [[]|]; try done.
    by destruct (Hnone q).
  - by intros fields ->.
  - by intros ->.
Qed.

Lemma getStoredSounds_valid_witness :
  stored_masterVolume (@getStoredSounds mixedRuntime (GetItemString "saved")) = 100
  ∧ (JStr <$> stored_savedSounds (@getStoredSounds mixedRuntime (GetItemString "saved")))
      `sublist_of` [JStr "a"; JNum 7; JNull; JStr "b"].
Proof.
  pose proof (@getStoredSounds_valid mixedRuntime "saved"
                (JObj [("savedSounds", JArr [JStr "a"; JNum 7; JNull; JStr "b"]);
                       ("masterVolume", JStr "loud")])
                [JStr "a"; JNum 7; JNull; JStr "b"]
                ltac:(discriminate) eq_refl eq_refl) as (_ & Hsub & _ & _ & Hmaster & _).
  split; [|exact Hsub]. apply Hmaster. intros master. discriminate.
Defined.

Lemma storage_json_fields data :
  json_field "savedSounds" (storage_json data)
    = Some (JArr (JStr <$> storage_savedSounds data))
  ∧ json_field "metadata" (storage_json data)
    = Some (JObj (prod_map id metadata_json <$> map_to_list (storage_metadata data)))
  ∧ json_field "masterVolume" (storage_json data) = JNum <$> storage_masterVolume data.
Proof. by destruct data as [ids table [master|]]. Qed.

(** X9 (the stored record, read back).  When the stored text parses to
    the JSON value of a record that [saveToStorage] wrote, the provider
    mounts with the ordered sequence and the metadata table of that record
    and with its master volume, or with master volume 100 when the record
    was written without one (as [removeSound] and [clearAllSounds] first
    write it).  Mounting from the item of a store whose item is its current
    session therefore restores that session. *)
Theorem stored_record_read_back `{Runtime} (text : string) (data : SavedSoundsStorage) :
  text ≠ EmptyString →
  JSON_parse text = Some (storage_json data) →
  let mounted := SavedSoundsProvider_mount (GetItemString text) in
  savedSoundIds mounted = storage_savedSounds data
  ∧ metadataRef mounted = storage_metadata data
  ∧ masterVolume mounted = default 100 (storage_masterVolume data)
  ∧ (∀ st, persisted st → localStorage st = Some data →
       savedSoundIds mounted = savedSoundIds st
       ∧ metadataRef mounted = metadataRef st
       ∧ masterVolume mounted == masterVolume st).
Proof.
  intros Hnonempty Hparse mounted. subst mounted.
  destruct (mount_session (GetItemString text)) as (Hids & Hmaster & Hmetadata).
  assert (getStoredSounds (GetItemString text)
          = {| stored_savedSounds := storage_savedSounds data;
               stored_metadata :=
                 JObj (prod_map id metadata_json <$> map_to_list (storage_metadata data));
               stored_masterVolume := default 100 (storage_masterVolume data) |}) as Hrecord.
  { unfold getStoredSounds. rewrite bool_decide_eq_false_2 by done. rewrite Hparse.
    destruct (storage_json_fields data) as (-> & -> & ->).
    cbn [json_truthy storage_json json_is_object]. rewrite json_strings_JStr.
    by destruct (storage_masterVolume data). }
  rewrite Hrecord in Hids, Hmaster, Hmetadata.
  cbn [stored_savedSounds stored_metadata stored_masterVolume] in Hids, Hmaster, Hmetadata.
  rewrite metadata_table_json in Hmetadata.
  split_and!; try done.
  intros st (data' & master & Hitem & Hids' & Hmd' & Hmaster' & Heq) Hdata.
  assert (data' = data) as -> by congruence.
  rewrite Hids, Hmetadata, Hmaster, Hmaster'. done.
Qed.

Lemma stored_record_read_back_witness :
  savedSoundIds (@SavedSoundsProvider_mount tunedRuntime (GetItemString "saved")) = ["clip1"]
  ∧ metadataRef (@SavedSoundsProvider_mount tunedRuntime (GetItemString "saved"))
    = {[ "clip1" := {| md_volume := Some 40; md_loop := Some true |} ]}
  ∧ masterVolume (@SavedSoundsProvider_mount tunedRuntime (GetItemString "saved")) = 50.
Proof.
  pose proof (@stored_record_read_back tunedRuntime "saved" tunedRecord
                ltac:(discriminate) eq_refl) as (Hids & Hmetadata & Hmaster & _).
  split_and!; [exact Hids|exact Hmetadata|exact Hmaster].
Defined.

(** ** Writing the record through *)




Lemma emptyStore_in_range : session_in_range emptyStore.
Proof.
  split.
  - split; vm_compute; discriminate.
  - intros ref sound volume. unfold emptyStore. cbn [savedSoundObjects].
    by rewrite lookup_nil.
  - intros id volume. unfold emptyStore. cbn [metadataRef]. by rewrite lookup_empty.
Qed.

Lemma oneClipStore_in_range : session_in_range oneClipStore.
Proof.
  assert (savedSoundObjects oneClipStore
          = [ {| saved_id := "clip1"; saved_name := "Rain"; saved_url := "https://cdn/rain.mp3";
                 saved_category := ""; saved_type := ""; saved_audio := 0;
                 saved_volume := Some 100 |} ]) as Hobjects by (vm_compute; reflexivity).
  assert (metadataRef oneClipStore = ∅) as Hmetadata by (vm_compute; reflexivity).
  split.
  - split; vm_compute; discriminate.
  - intros ref sound volume. rewrite Hobjects.
    destruct ref as [|ref]; [|by rewrite lookup_cons, lookup_nil].
    intros [= <-] [= <-]. split; vm_compute; discriminate.
  - intros id volume. by rewrite Hmetadata, lookup_empty.
Qed.


(** ** The registry as an invariant *)

Lemma registry_kept_refl st : registry_kept st st.
Proof. by split. Qed.

Lemma registry_kept_trans st1 st2 st3 :
  registry_kept st1 st2 → registry_kept st2 st3 → registry_kept st1 st3.
Proof. intros [] []. split; congruence. Qed.

Lemma heaps_only_registry_kept st st' : heaps_only st st' → registry_kept st st'.
Proof. intros []. by split. Qed.

Lemma registry_kept_wf st st' : registry_kept st st' → registry_wf st → registry_wf st'.
Proof.
  intros [Hreg Hlen] [Halloc Hdistinct]. split; rewrite Hreg, ?Hlen; eauto.
Qed.

Lemma render_registry_kept `{Runtime} changed st : registry_kept st (render changed st).
Proof.
  split; [apply render_session | apply render_lengths].
Qed.

Lemma getOrCreateAudioElement_others `{Runtime} soundId url st other :
  other ≠ soundId →
  audioElementRegistry (getOrCreateAudioElement soundId url st).2 !! other
  = audioElementRegistry st !! other.
Proof.
  intros Hne. unfold getOrCreateAudioElement.
  destruct (audioElementRegistry st !! soundId) as [old|] eqn:Hreg;
    [case_bool_decide as Hsrc|]; cbn; by rewrite ?lookup_insert_ne.
Qed.

Lemma registry_wf_register `{Runtime} id url st :
  registry_wf st →
  registry_wf (with_audioElementRegistry (<[id := length (audios st)]> (audioElementRegistry st))
                 (with_audios (audios st ++ [newAudio url]) st)).
Proof.
  intros [Halloc Hdistinct]. split; cbn; rewrite ?length_app; cbn.
  - intros id' audio [[<- <-]|[Hne Hlook]]%lookup_insert_Some; [lia|].
    specialize (Halloc id' audio Hlook). lia.
  - intros id1 id2 audio [[<- <-]|[Hne1 Hlook1]]%lookup_insert_Some
      [[<- Heq]|[Hne2 Hlook2]]%lookup_insert_Some; try done.
    + specialize (Halloc id2 _ Hlook2). lia.
    + specialize (Halloc id1 _ Hlook1). lia.
    + eauto.
Qed.

Lemma getOrCreateAudioElement_registry_wf `{Runtime} soundId url st :
  registry_wf st → registry_wf (getOrCreateAudioElement soundId url st).2.
Proof.
  intros Hwf. unfold getOrCreateAudioElement.
  destruct (audioElementRegistry st !! soundId) as [old|] eqn:Hreg;
    [case_bool_decide as Hsrc|]; cbn [fst snd]; [done| |by apply registry_wf_register].
  apply (registry_wf_register soundId url (write_audio audio_pause old st)).
  apply (registry_kept_wf st); [|done].
  apply heaps_only_registry_kept, write_audio_heaps_only.
Qed.

Lemma getOrCreateAudioElement_existing `{Runtime} soundId url st r element :
  audios st !! r = Some element →
  audios (getOrCreateAudioElement soundId url st).2 !! r = Some element
  ∨ (audioElementRegistry st !! soundId = Some r ∧ audio_src element ≠ url
     ∧ audios (getOrCreateAudioElement soundId url st).2 !! r = Some (audio_pause element)).
Proof.
  intros Hr. pose proof (lookup_lt_Some _ _ _ Hr) as Hlt.
  unfold getOrCreateAudioElement.
  destruct (audioElementRegistry st !! soundId) as [old|] eqn:Hreg;
    [case_bool_decide as Hsrc|]; cbn [fst snd].
  - by left.
  - cbn. rewrite lookup_app_l by (by rewrite length_alter).
    destruct (decide (old = r)) as [->|Hne].
    + right. rewrite list_lookup_alter_eq, Hr. split_and!; [done| |done].
      intros Heq. apply Hsrc. rewrite Hr. cbn. by rewrite Heq.
    + left. by rewrite list_lookup_alter_ne.
  - left. cbn. by rewrite lookup_app_l.
Qed.

(** X11 ([getOrCreateAudioElement], what it leaves alone).  A call for
    one id never changes the element registered for another id and never
    removes an audio element; the only existing element it can change is
    the one registered for the id, and only by pausing it, which it does
    when the [src] of that element (its serialised URL) is not the locator
    as passed.  It keeps the registry well formed. *)
Theorem getOrCreateAudioElement_frame `{Runtime} (soundId url : string) (st : Store) :
  let result := getOrCreateAudioElement soundId url st in
  (∀ other, other ≠ soundId →
     audioElementRegistry result.2 !! other = audioElementRegistry st !! other)
  ∧ (∀ r element, audios st !! r = Some element →
       audios result.2 !! r = Some element
       ∨ (audioElementRegistry st !! soundId = Some r ∧ audio_src element ≠ url
          ∧ audios result.2 !! r = Some (audio_pause element)))
  ∧ (registry_wf st → registry_wf result.2).
Proof.
  cbv zeta. split_and!.
  - intros other. apply getOrCreateAudioElement_others.
  - intros r element. apply getOrCreateAudioElement_existing.
  - apply getOrCreateAudioElement_registry_wf.
Qed.

Lemma emptyStore_registry_wf : registry_wf emptyStore.
Proof. split; cbn; intros *; by rewrite lookup_empty. Qed.

Lemma addSoundToCachedMap_registry_wf `{Runtime} sound currentIds metadata st :
  registry_wf st → registry_wf (addSoundToCachedMap sound currentIds metadata st).
Proof.
  intros Hwf. unfold addSoundToCachedMap.
  destruct (assoc_get _ _ ≫= _) as [existing|].
  - apply (registry_kept_wf st); [|done].
    case_bool_decide; split; cbn; by rewrite ?length_alter.
  - pose proof (getOrCreateAudioElement_registry_wf (sound_id sound) (sound_url sound) st Hwf)
      as Hwf0.
    destruct (getOrCreateAudioElement _ _ st) as [audio st0]. cbn [snd] in Hwf0.
    apply (registry_kept_wf st0); [|done].
    case_bool_decide; split; cbn; by rewrite ?length_alter.
Qed.

Lemma removeSoundFromCachedMap_registry_kept `{Runtime} soundId currentIds st :
  registry_kept st (removeSoundFromCachedMap soundId currentIds st).
Proof.
  unfold removeSoundFromCachedMap.
  destruct (audioElementRegistry st !! soundId); case_bool_decide; split; cbn;
    by rewrite ?length_alter.
Qed.

Lemma removeSound_registry_kept `{Runtime} id st : registry_kept st (removeSound id st).
Proof.
  unfold removeSound. eapply registry_kept_trans; [|apply render_registry_kept].
  destruct (removeSoundFromCachedMap_registry_kept id (savedSoundIds st) st). by split.
Qed.

Lemma setSoundVolume_heaps `{Runtime} id volume st :
  registry_kept st (setSoundVolume id volume st).
Proof.
  unfold setSoundVolume. destruct (assoc_get id (savedSoundsMap st)) as [sound|];
    [|apply registry_kept_refl].
  set (st3 := with_metadataRef _ _).
  assert (registry_kept st st3) as H3.
  { subst st3.
    destruct (write_sound_audio_heaps_only
                (audio_set_volume (effectiveVolume volume (masterVolume st))) sound
                (write_saved (saved_set_volume volume) sound st)) as [].
    split; cbn; [done|]. cbn in *. congruence. }
  eapply registry_kept_trans; [exact H3|].
  assert (heaps_only st3 (updateCached id
            (λ updatedSound s,
               write_sound_audio (audio_set_volume (effectiveVolume volume (masterVolume st)))
                 updatedSound (write_saved (saved_set_volume volume) updatedSound s)) st3))
    as [].
  { apply updateCached_heaps_only. intros. eapply heaps_only_trans;
      [apply write_saved_heaps_only | apply write_sound_audio_heaps_only]. }
  by split.
Qed.

Lemma setSoundLoop_heaps `{Runtime} id loop st :
  registry_kept st (setSoundLoop id loop st).
Proof.
  unfold setSoundLoop. destruct (assoc_get id (savedSoundsMap st)) as [sound|];
    [|apply registry_kept_refl].
  set (st2 := with_metadataRef _ _).
  assert (registry_kept st st2) as H2.
  { subst st2. destruct (write_sound_audio_heaps_only (audio_set_loop loop) sound st) as [].
    by split. }
  eapply registry_kept_trans; [exact H2|].
  assert (heaps_only st2 (updateCached id
            (λ updatedSound s, write_sound_audio (audio_set_loop loop) updatedSound s) st2))
    as [].
  { apply updateCached_heaps_only. intros. apply write_sound_audio_heaps_only. }
  by split.
Qed.

Lemma fetchedSound_registry_wf `{Runtime} acc row :
  registry_wf acc.1 → registry_wf (fetchedSound acc row).1.
Proof.
  intros Hwf. unfold fetchedSound.
  pose proof (getOrCreateAudioElement_registry_wf (sound_id row) (sound_url row) acc.1 Hwf)
    as Hwf1.
  destruct (getOrCreateAudioElement _ _ acc.1) as [audio st1]. cbn [fst snd] in *.
  apply (registry_kept_wf st1); [by split|done].
Qed.

Lemma fetched_registry_wf `{Runtime} rows acc :
  registry_wf acc.1 → registry_wf (foldl fetchedSound acc rows).1.
Proof.
  revert acc. induction rows as [|row rows IH]; intros acc Hwf; cbn [foldl]; [done|].
  by apply IH, fetchedSound_registry_wf.
Qed.

Lemma addSound_registry_wf `{Runtime} id sound index st :
  registry_wf st → registry_wf (addSound id sound index st).
Proof.
  intros Hwf. unfold addSound. case_bool_decide; [done|].
  eapply registry_kept_wf; [apply render_registry_kept|].
  by apply (registry_kept_wf (addSoundToCachedMap sound (savedSoundIds st)
                                (Some (default emptyMetadata (metadataRef st !! id))) st));
    [|apply addSoundToCachedMap_registry_wf].
Qed.

(** X12 (the registry stays well formed).  Whatever the store does, every
    registered audio element exists and no audio element is registered for
    two ids: the property holds when the provider has mounted and is kept
    by every mutator, by the resolution of the query, by the tile toggle, by
    [pauseAllSounds] and by the drag-and-drop handler. *)
Theorem registry_wf_invariant `{Runtime} (st : Store) :
  registry_wf st →
  (∀ id sound index, registry_wf (addSound id sound index st))
  ∧ (∀ id, registry_wf (removeSound id st))
  ∧ registry_wf (clearAllSounds st)
  ∧ (∀ ids, registry_wf (reorderSounds ids st))
  ∧ (∀ id volume, registry_wf (setSoundVolume id volume st))
  ∧ (∀ id loop, registry_wf (setSoundLoop id loop st))
  ∧ (∀ volume, registry_wf (setMasterVolume volume st))
  ∧ (∀ rows, registry_wf (useSoundsByIds_resolved rows st))
  ∧ (∀ id played startTime clock, registry_wf (handleToggle id played startTime clock st))
  ∧ (∀ startTime clock, registry_wf (pauseAllSounds startTime clock st))
  ∧ (∀ event, registry_wf (handleDragEnd event st))
  ∧ (∀ item, registry_wf (SavedSoundsProvider_mount item)).
Proof.
  intros Hwf.
  assert (∀ id sound index, registry_wf (addSound id sound index st)) as Hadd.
  { intros id sound index. by apply addSound_registry_wf. }
  assert (∀ id, registry_wf (removeSound id st)) as Hremove.
  { intros id. eapply registry_kept_wf; [apply removeSound_registry_kept|done]. }
  assert (∀ ids, registry_wf (reorderSounds ids st)) as Hreorder.
  { intros ids. eapply registry_kept_wf; [apply render_registry_kept|]. by destruct Hwf. }
  split_and!; try done.
  - eapply registry_kept_wf; [apply render_registry_kept|].
    unfold clearAllSounds_handler.
    pose proof (foldl_heaps_only pauseIfPlaying (savedSoundsMap st) st
                  (λ s x, write_sound_audio_heaps_only _ _ _)) as [].
    apply (registry_kept_wf st); [by split|done].
  - intros id volume. eapply registry_kept_wf; [apply setSoundVolume_heaps|done].
  - intros id loop. eapply registry_kept_wf; [apply setSoundLoop_heaps|done].
  - intros volume. unfold setMasterVolume.
    pose proof (setMasterVolume_handler_heaps volume st) as [].
    assert (registry_kept st (setMasterVolume_handler volume st)) as Hkept by (by split).
    destruct (Qeq_bool _ _); [by eapply registry_kept_wf|].
    eapply registry_kept_wf; [apply render_registry_kept|].
    destruct Hkept. apply (registry_kept_wf st); [by split|done].
  - intros rows. unfold useSoundsByIds_resolved. case_bool_decide; [done|].
    pose proof (fetched_registry_wf rows (st, []) Hwf) as Hfetched.
    destruct (foldl fetchedSound (st, []) rows) as [st1 entries]. cbn [fst] in Hfetched.
    eapply registry_kept_wf; [apply render_registry_kept|].
    apply (registry_kept_wf st1); [by split|done].
  - intros id played startTime clock. unfold handleToggle.
    destruct (memberSound st id) as [sound|]; [|done].
    destruct (audios st !! saved_audio sound) as [audio|]; [|done].
    destruct (audio_paused audio), played;
      (eapply registry_kept_wf; [apply heaps_only_registry_kept, write_audio_heaps_only|done]).
  - intros startTime clock. unfold pauseAllSounds.
    eapply registry_kept_wf; [|exact Hwf].
    apply heaps_only_registry_kept, foldl_heaps_only.
    intros. apply write_sound_audio_heaps_only.
  - intros event. unfold handleDragEnd.
    destruct (over_id event) as [overIdStr|]; [|done].
    destruct (active_data event) as [sound|savedSoundId|]; [| |done].
    + by destruct (_ && _).
    + destruct (_ && _); [done|]. case_bool_decide; [|done].
      destruct (indexOf savedSoundId (savedSoundIds st)),
        (indexOf overIdStr (savedSoundIds st)); try done.
      by case_bool_decide.
Qed.

Lemma oneClipStore_registry_wf : registry_wf oneClipStore.
Proof.
  exact (@addSound_registry_wf sampleRuntime "clip1" rain None emptyStore
           emptyStore_registry_wf).
Qed.

Lemma getOrCreateAudioElement_frame_witness :
  registry_wf
    (@getOrCreateAudioElement sampleRuntime "clip1" "https://cdn/rain-v2.mp3" oneClipStore).2.
Proof.
  refine (proj2 (proj2 (@getOrCreateAudioElement_frame sampleRuntime "clip1"
                          "https://cdn/rain-v2.mp3" oneClipStore)) _).
  exact oneClipStore_registry_wf.
Defined.

Lemma registry_wf_invariant_witness :
  registry_wf (@removeSound sampleRuntime "clip1" oneClipStore)
  ∧ registry_wf (@addSound sampleRuntime "clip2" wind None oneClipStore).
Proof.
  pose proof (@registry_wf_invariant sampleRuntime oneClipStore oneClipStore_registry_wf)
    as (Hadd & Hremove & _).
  split; [exact (Hremove "clip1")|exact (Hadd "clip2" wind None)].
Defined.

(** ** Removing a sound: the registry and the resolved map *)

Lemma applyMetadata_keeps_src master st entry :
  keeps audio_src st (applyMetadata master st entry).
Proof.
  unfold applyMetadata. destruct (savedSoundObjects st !! entry.2); [|apply keeps_refl].
  eapply keeps_trans; [|by apply write_audio_keeps].
  eapply keeps_trans; [|by apply write_audio_keeps].
  apply write_saved_keeps.
Qed.

Lemma render_keeps_src `{Runtime} changed st : keeps audio_src st (render changed st).
Proof.
  pose proof (foldl_keeps audio_src (applyMetadata (masterVolume st)) (savedSoundsMap st) st
                (applyMetadata_keeps_src _)) as Hfold.
  unfold render.
  destruct (match memoDeps st with Some _ => _ | None => _ end), changed; cbn; done.
Qed.

Lemma removeSoundFromCachedMap_audios `{Runtime} soundId currentIds st r :
  audios (removeSoundFromCachedMap soundId currentIds st) !! r =
    if bool_decide (audioElementRegistry st !! soundId = Some r)
    then audio_pause <$> audios st !! r
    else audios st !! r.
Proof.
  unfold removeSoundFromCachedMap.
  destruct (audioElementRegistry st !! soundId) as [audio|] eqn:Hreg.
  - assert (audios (if bool_decide (currentIds = []) then _ else _) =
            audios (write_audio audio_pause audio st)) as ->.
    { by case_bool_decide. }
    rewrite write_audio_lookup. case_decide as Heq.
    + subst. by rewrite bool_decide_eq_true_2.
    + rewrite bool_decide_eq_false_2; [done|]. congruence.
  - rewrite (bool_decide_eq_false_2 (None = Some r)) by done. by case_bool_decide.
Qed.

(** X13 ([removeSound], the audio element).  Removing a sound pauses the
    audio element registered for its id and keeps it registered: the
    registry is unchanged and no audio element is deleted, the registered
    element is paused and keeps its locator, and every other element keeps
    its paused flag. *)
Theorem removeSound_pauses_registered `{Runtime} (id : string) (st : Store) :
  audioElementRegistry (removeSound id st) = audioElementRegistry st
  ∧ length (audios (removeSound id st)) = length (audios st)
  ∧ (∀ audio element,
       audioElementRegistry st !! id = Some audio → audios st !! audio = Some element →
       audio_paused <$> audios (removeSound id st) !! audio = Some true
       ∧ audio_src <$> audios (removeSound id st) !! audio = Some (audio_src element))
  ∧ (∀ r, audioElementRegistry st !! id ≠ Some r →
       audio_paused <$> audios (removeSound id st) !! r = audio_paused <$> audios st !! r).
Proof.
  destruct (removeSound_registry_kept id st) as [Hreg Hlen].
  split_and!; [done|done| |].
  - intros audio element Hid Helement.
    assert (audios (removeSoundFromCachedMap id (savedSoundIds st) st) !! audio
            = Some (audio_pause element)) as Hpaused.
    { rewrite removeSoundFromCachedMap_audios, bool_decide_eq_true_2 by done.
      by rewrite Helement. }
    unfold removeSound. split.
    + rewrite render_keeps_paused. cbn. by rewrite Hpaused.
    + rewrite render_keeps_src. cbn. by rewrite Hpaused.
  - intros r Hne. unfold removeSound. rewrite render_keeps_paused. cbn.
    by rewrite removeSoundFromCachedMap_audios, bool_decide_eq_false_2.
Qed.

Lemma removeSound_pauses_registered_witness :
  audio_paused <$> audios playingStore !! 0%nat = Some false
  ∧ audio_paused <$> audios (@removeSound sampleRuntime "clip1" playingStore) !! 0%nat
    = Some true.
Proof.
  split; [vm_compute; reflexivity|].
  refine (proj1 (proj1 (proj2 (proj2 (@removeSound_pauses_registered sampleRuntime "clip1"
                                        playingStore)))
                   0%nat
                   {| audio_src := "https://cdn/rain.mp3";
                      audio_volume := effectiveVolume 40 100;
                      audio_loop := true; audio_paused := false |} _ _)).
  - vm_compute. reflexivity.
  - vm_compute. reflexivity.
Defined.

Lemma assoc_get_delete_ne {A} key other (entries : list (string * A)) :
  other ≠ key → assoc_get other (assoc_delete key entries) = assoc_get other entries.
Proof.
  intros Hne. unfold assoc_delete. induction entries as [|[k v] entries IH]; [done|].
  rewrite filter_cons. cbn. destruct (decide (k ≠ key)) as [Hk|Hk]; cbn.
  - by rewrite IH.
  - apply dec_stable in Hk. subst. by rewrite decide_False.
Qed.

Lemma assoc_get_set_eq {A} key (value : A) entries :
  assoc_get key (assoc_set key value entries) = Some value.
Proof.
  induction entries as [|[k v] entries IH]; cbn.
  - by rewrite decide_True.
  - case_decide as Hk; cbn; [by rewrite decide_True|]. by rewrite decide_False.
Qed.

Lemma assoc_get_set_ne {A} key other (value : A) entries :
  other ≠ key → assoc_get other (assoc_set key value entries) = assoc_get other entries.
Proof.
  intros Hne. induction entries as [|[k v] entries IH]; cbn.
  - by rewrite decide_False.
  - case_decide as Hk; cbn.
    + subst. by rewrite !decide_False.
    + case_decide; [done|]. apply IH.
Qed.

(** X14 ([removeSound], the resolved map).  After [removeSound(id)] the
    id is no longer resolved, and every other id resolves to the very
    [SavedSound] object it resolved to before: the map for the new sequence
    is there at once, without a fetch. *)
Theorem removeSound_keeps_others_resolved `{Runtime} (id : string) (st : Store) :
  assoc_get id (savedSoundsMap (removeSound id st)) = None
  ∧ memberSound (removeSound id st) id = None
  ∧ (∀ other, other ≠ id →
       assoc_get other (savedSoundsMap (removeSound id st))
       = assoc_get other (savedSoundsMap st))
  ∧ is_Some (savedSoundsMapData (removeSound id st)).
Proof.
  destruct (removeSound_facts id st) as (_ & Hcache & _).
  assert (savedSoundsMap (removeSound id st) = assoc_delete id (savedSoundsMap st)) as Hmap.
  { unfold savedSoundsMap at 1. unfold savedSoundsMapData.
    destruct (queryCache (removeSound id st) !! sortIds (savedSoundIds (removeSound id st)));
      cbn in *; congruence. }
  split_and!.
  - rewrite Hmap. apply assoc_get_delete.
  - unfold memberSound. by rewrite Hmap, assoc_get_delete.
  - intros other Hne. rewrite Hmap. by apply assoc_get_delete_ne.
  - unfold savedSoundsMapData.
    destruct (queryCache (removeSound id st) !! sortIds (savedSoundIds (removeSound id st)));
      [by eexists|done].
Qed.

(** ** Adding a sound: the resolved map and the registered element *)

Lemma applyMetadata_saved_identity master st entry ref :
  saved_identity <$> savedSoundObjects (applyMetadata master st entry) !! ref
  = saved_identity <$> savedSoundObjects st !! ref.
Proof.
  unfold applyMetadata. destruct (savedSoundObjects st !! entry.2) as [sound|] eqn:Hs; [|done].
  cbn. destruct (decide (entry.2 = ref)) as [<-|Hne].
  - by rewrite list_lookup_alter_eq, Hs.
  - by rewrite list_lookup_alter_ne.
Qed.

Lemma render_saved_identity `{Runtime} changed st ref :
  saved_identity <$> savedSoundObjects (render changed st) !! ref
  = saved_identity <$> savedSoundObjects st !! ref.
Proof.
  assert (∀ entries s,
            saved_identity <$> savedSoundObjects (foldl (applyMetadata (masterVolume st)) s
                                                    entries) !! ref
            = saved_identity <$> savedSoundObjects s !! ref) as Hfold.
  { induction entries as [|entry entries IH]; intros s; cbn [foldl]; [done|].
    by rewrite IH, applyMetadata_saved_identity. }
  specialize (Hfold (savedSoundsMap st) st).
  unfold render.
  destruct (match memoDeps st with Some _ => _ | None => _ end), changed; cbn; done.
Qed.

Lemma addSoundToCachedMap_fresh_registry `{Runtime} sound currentIds metadata st :
  assoc_get (sound_id sound) (cachedEntries (sortIds currentIds) st) = None →
  let st' := addSoundToCachedMap sound currentIds metadata st in
  ∃ audio,
    savedSoundObjects st' = savedSoundObjects st ++
      [{| saved_id := sound_id sound; saved_name := sound_name sound;
          saved_url := sound_url sound;
          saved_category := default EmptyString (sound_category sound);
          saved_type := default EmptyString (sound_type sound);
          saved_audio := audio;
          saved_volume := Some (default 100 (metadata ≫= md_volume)) |}]
    ∧ audio = (getOrCreateAudioElement (sound_id sound) (sound_url sound) st).1
    ∧ audioElementRegistry st' !! sound_id sound = Some audio
    ∧ (audio_src <$> audios st' !! audio = Some (sound_url sound)
       ∨ audio_src <$> audios st' !! audio = Some (resolveURL (sound_url sound)))
    ∧ map_entries <$> queryCache st' !! sortIds (currentIds ++ [sound_id sound])
      = Some (assoc_set (sound_id sound) (length (savedSoundObjects st))
                (cachedEntries (sortIds currentIds) st)).
Proof.
  intros Hfresh. unfold addSoundToCachedMap. rewrite Hfresh. cbn [mbind option_bind].
  pose proof (getOrCreateAudioElement_registered (sound_id sound) (sound_url sound) st)
    as (Hregistered & element0 & Helement & Hbound).
  pose proof (getOrCreateAudioElement_session (sound_id sound) (sound_url sound) st)
    as (_ & _ & _ & _ & Hcache & Hobjects & _).
  destruct (getOrCreateAudioElement (sound_id sound) (sound_url sound) st) as [audio st0].
  cbn in Hregistered, Helement, Hcache, Hobjects.
  assert (audio_src element0 = sound_url sound
          ∨ audio_src element0 = resolveURL (sound_url sound)) as Hsrc.
  { destruct Hbound as [?| ->]; [by left|by right]. }
  exists audio. unfold cachedEntries, setQueryData.
  case_bool_decide; cbn; rewrite ?list_lookup_alter_eq, ?Helement, ?Hobjects, ?Hcache;
    rewrite ?lookup_insert; repeat case_decide; cbn;
    (split_and!; [done..| |done]); destruct Hsrc as [->| ->]; auto.
Qed.

(** X15 ([addSound], the resolved map).  Adding a sound that the current
    map does not hold resolves it at once, without a fetch: the new id
    resolves to a new [SavedSound] object with the name and locator of the
    sound, whose audio element is the one the registry holds for the id;
    the [src] of that element is the locator or its serialised form.  When
    the registry already held an element for the id whose [src] is the
    locator as passed (left there by an earlier removal of a sound whose
    locator is in serialised form), it is that same element.  Every other id
    resolves to the object it resolved to before.  (For an insertion at an
    index the collation has to be a consistent comparator that tells the
    ids of the new sequence apart, so that the key of the new sequence is
    the key the map was stored under.  The volumes of the session are taken
    in [0, 100], so that no audio element refuses the volume written to
    it.) *)
Theorem addSound_resolves_at_once `{Runtime} (sound : Sound) (index : option Z)
    (st : Store) :
  session_in_range st →
  sound_id sound ∉ savedSoundIds st →
  assoc_get (sound_id sound) (savedSoundsMap st) = None →
  index = None
  ∨ (collation_order ∧ collation_separates (sound_id sound :: savedSoundIds st)) →
  let st' := addSound (sound_id sound) sound index st in
  (∀ other, other ≠ sound_id sound →
     assoc_get other (savedSoundsMap st') = assoc_get other (savedSoundsMap st))
  ∧ ∃ object,
      memberSound st' (sound_id sound) = Some object
      ∧ saved_id object = sound_id sound
      ∧ saved_name object = sound_name sound
      ∧ saved_url object = sound_url sound
      ∧ audioElementRegistry st' !! sound_id sound = Some (saved_audio object)
      ∧ (audio_src <$> audios st' !! saved_audio object = Some (sound_url sound)
         ∨ audio_src <$> audios st' !! saved_audio object
           = Some (resolveURL (sound_url sound)))
      ∧ (∀ audio, audioElementRegistry st !! sound_id sound = Some audio →
           audio_src <$> audios st !! audio = Some (sound_url sound) →
           saved_audio object = audio).
Proof.
  intros _ Hnew Hfresh Hcase st'.
  pose proof (addSound_key_separated (sound_id sound) sound index st Hcase Hnew) as Hkey.
  fold st' in Hkey.
  pose proof (addSoundToCachedMap_fresh_registry sound (savedSoundIds st)
                (Some (default emptyMetadata (metadataRef st !! sound_id sound))) st Hfresh)
    as (audio & Hobjects & Haudio & Hreg & Hsrc & Hcache).
  assert (∃ st2, st' = render true st2
                 ∧ savedSoundObjects st2 = savedSoundObjects
                     (addSoundToCachedMap sound (savedSoundIds st)
                        (Some (default emptyMetadata (metadataRef st !! sound_id sound))) st)
                 ∧ audios st2 = audios
                     (addSoundToCachedMap sound (savedSoundIds st)
                        (Some (default emptyMetadata (metadataRef st !! sound_id sound))) st)
                 ∧ audioElementRegistry st2 = audioElementRegistry
                     (addSoundToCachedMap sound (savedSoundIds st)
                        (Some (default emptyMetadata (metadataRef st !! sound_id sound))) st)
                 ∧ queryCache st2 = queryCache
                     (addSoundToCachedMap sound (savedSoundIds st)
                        (Some (default emptyMetadata (metadataRef st !! sound_id sound))) st))
    as (st2 & Hst' & Hobj2 & Haud2 & Hreg2 & Hcache2).
  { subst st'. unfold addSound. rewrite bool_decide_eq_false_2 by done.
    eexists. split; [reflexivity|]. done. }
  revert Hobjects Hreg Hsrc Hcache. rewrite <- Hobj2, <- Haud2, <- Hreg2, <- Hcache2.
  generalize dependent (addSoundToCachedMap sound (savedSoundIds st)
                          (Some (default emptyMetadata (metadataRef st !! sound_id sound))) st).
  intros _ _ _ _ _ Hobjects Hreg Hsrc Hcache.
  destruct (render_session true st2) as (Hids & _ & _ & Hcache' & Hreg').
  assert (savedSoundsMap st'
          = assoc_set (sound_id sound) (length (savedSoundObjects st)) (savedSoundsMap st))
    as Hmap.
  { change (cachedEntries (sortIds (savedSoundIds st)) st) with (savedSoundsMap st) in Hcache.
    unfold savedSoundsMap at 1. unfold savedSoundsMapData.
    rewrite Hkey, Hst', Hcache'.
    destruct (queryCache st2 !! sortIds (savedSoundIds st ++ [sound_id sound])); cbn in *;
      congruence. }
  split.
  - intros other Hne. rewrite Hmap. by apply assoc_get_set_ne.
  - pose proof (render_saved_identity true st2 (length (savedSoundObjects st))) as Hidentity.
    rewrite <- Hst', Hobjects, lookup_snoc_fresh in Hidentity.
    destruct (savedSoundObjects st' !! length (savedSoundObjects st)) as [object|] eqn:Hobject;
      [|done].
    injection Hidentity as Hid Hname Hurl Haudio'.
    exists object. unfold memberSound. rewrite Hmap, assoc_get_set_eq, Hobject.
    rewrite Haudio'. split_and!; try done.
    + by rewrite Hst', Hreg'.
    + rewrite Hst', render_keeps_src. done.
    + intros registered Hregistered Hbound. rewrite Haudio.
      by rewrite (getOrCreateAudioElement_hit _ _ _ _ Hregistered Hbound).
Qed.

Lemma addSound_resolves_at_once_witness :
  ∃ object,
    @memberSound sampleRuntime
      (@addSound sampleRuntime "clip2" wind (Some 0%Z) oneClipStore) "clip2"
      = Some object
    ∧ saved_id object = "clip2"
    ∧ saved_name object = "Wind"
    ∧ saved_url object = "https://cdn/wind.mp3"
    ∧ audioElementRegistry (@addSound sampleRuntime "clip2" wind (Some 0%Z) oneClipStore)
        !! "clip2"
      = Some (saved_audio object)
    ∧ (audio_src <$> audios (@addSound sampleRuntime "clip2" wind (Some 0%Z) oneClipStore)
                       !! saved_audio object
       = Some "https://cdn/wind.mp3"
       ∨ audio_src <$> audios (@addSound sampleRuntime "clip2" wind (Some 0%Z) oneClipStore)
                         !! saved_audio object
         = Some (@resolveURL sampleRuntime "https://cdn/wind.mp3"))
    ∧ (∀ audio, audioElementRegistry oneClipStore !! "clip2" = Some audio →
         audio_src <$> audios oneClipStore !! audio = Some "https://cdn/wind.mp3" →
         saved_audio object = audio).
Proof.
  refine (proj2 (@addSound_resolves_at_once sampleRuntime wind (Some 0%Z) oneClipStore
                   oneClipStore_in_range _ _ _)).
  - vm_compute. intros Hin.
    repeat (apply elem_of_cons in Hin as [Hin|Hin]; [discriminate|]).
    by apply elem_of_nil in Hin.
  - vm_compute. reflexivity.
  - right. split.
    + apply total_collation_order, sampleRuntime_total.
    + apply total_collation_separates, sampleRuntime_total.
Defined.

Lemma same_session_refl st : same_session st st.
Proof. by split. Qed.

Lemma assoc_set_keys {A} key (value : A) entries :
  (assoc_set key value entries).*1
  = if bool_decide (key ∈ entries.*1) then entries.*1 else entries.*1 ++ [key].
Proof.
  induction entries as [|[k v] entries IH]; cbn; [done|].
  destruct (decide (k = key)) as [->|Hk]; cbn.
  - rewrite bool_decide_eq_true_2; [done|apply list_elem_of_here].
  - rewrite IH. case_bool_decide as Hin.
    + rewrite bool_decide_eq_true_2; [done|by apply list_elem_of_further].
    + rewrite bool_decide_eq_false_2; [done|].
      intros [?|?]%elem_of_cons; [congruence|done].
Qed.

Lemma assoc_set_NoDup {A} key (value : A) entries :
  NoDup entries.*1 → NoDup (assoc_set key value entries).*1.
Proof.
  intros Hnodup. rewrite assoc_set_keys. case_bool_decide as Hin; [done|].
  apply NoDup_app. split_and!; [done| |apply NoDup_singleton].
  intros x Hx ->%list_elem_of_singleton. done.
Qed.

Lemma assoc_set_elem_of {A} key (value : A) entries k v :
  NoDup entries.*1 →
  (k, v) ∈ assoc_set key value entries →
  (k = key ∧ v = value) ∨ (k ≠ key ∧ (k, v) ∈ entries).
Proof.
  induction entries as [|[k0 v0] entries IH]; cbn; intros Hnodup.
  - intros [= -> ->]%list_elem_of_singleton. by left.
  - apply NoDup_cons in Hnodup as [Hnotin Hnodup]. case_decide as Hk.
    + subst. intros [[= -> ->]|Hin]%elem_of_cons; [by left|].
      right. split; [|by apply list_elem_of_further].
      intros ->. apply Hnotin. apply list_elem_of_fmap. by exists (key, v).
    + intros [[= -> ->]|Hin]%elem_of_cons.
      * right. split; [done|apply list_elem_of_here].
      * destruct (IH Hnodup Hin) as [?|[? ?]]; [by left|].
        right. split; [done|by apply list_elem_of_further].
Qed.

Lemma getOrCreateAudioElement_same_session `{Runtime} soundId url st :
  same_session st (getOrCreateAudioElement soundId url st).2.
Proof.
  unfold getOrCreateAudioElement.
  destruct (audioElementRegistry st !! soundId); [case_bool_decide|]; by split.
Qed.

(** ** The query resolves *)

Lemma fetchedSound_wf `{Runtime} st s entries row :
  same_session st s → fetched_wf s entries →
  same_session st (fetchedSound (s, entries) row).1
  ∧ fetched_wf (fetchedSound (s, entries) row).1 (fetchedSound (s, entries) row).2.
Proof.
  intros Hsame [Hregistry Hkeys Hobjects]. unfold fetchedSound. cbn [fst snd].
  pose proof (getOrCreateAudioElement_same_session (sound_id row) (sound_url row) s) as Hsame1.
  pose proof (getOrCreateAudioElement_registered (sound_id row) (sound_url row) s)
    as [Hregistered _].
  pose proof (getOrCreateAudioElement_session (sound_id row) (sound_url row) s)
    as (_ & _ & _ & _ & _ & Hobj1 & _).
  pose proof (λ other, getOrCreateAudioElement_others (sound_id row) (sound_url row) s other)
    as Hothers.
  pose proof (getOrCreateAudioElement_registry_wf (sound_id row) (sound_url row) s Hregistry)
    as Hwf1.
  destruct (getOrCreateAudioElement (sound_id row) (sound_url row) s) as [audio s1].
  cbn [fst snd] in *. split.
  - destruct Hsame, Hsame1. split; cbn; congruence.
  - split.
    + apply (registry_kept_wf s1); [by split|done].
    + by apply assoc_set_NoDup.
    + intros key ref Hin. cbn [savedSoundObjects audioElementRegistry with_savedSoundObjects].
      apply assoc_set_elem_of in Hin; [|done]. destruct Hin as [[-> ->]|[Hne Hin]].
      * eexists. rewrite lookup_snoc_fresh. split_and!; [reflexivity|done|done].
      * destruct (Hobjects key ref Hin) as (sound & Hsound & Hid & Hreg).
        exists sound. rewrite Hobj1.
        rewrite lookup_app_l by (by eapply lookup_lt_Some).
        split_and!; [done|done|]. by rewrite Hothers.
Qed.

Lemma fetched_loop_wf `{Runtime} st rows s entries :
  same_session st s → fetched_wf s entries →
  same_session st (foldl fetchedSound (s, entries) rows).1
  ∧ fetched_wf (foldl fetchedSound (s, entries) rows).1
      (foldl fetchedSound (s, entries) rows).2.
Proof.
  revert s entries. induction rows as [|row rows IH]; intros s entries Hsame Hwf;
    cbn [foldl]; [done|].
  destruct (fetchedSound_wf st s entries row Hsame Hwf) as [Hsame1 Hwf1].
  destruct (fetchedSound (s, entries) row) as [s1 entries1]. by apply IH.
Qed.

Lemma fetched_loop_keys `{Runtime} rows s entries key :
  key ∈ (foldl fetchedSound (s, entries) rows).2.*1
  ↔ key ∈ entries.*1 ∨ key ∈ sound_id <$> rows.
Proof.
  revert s entries. induction rows as [|row rows IH]; intros s entries; cbn [foldl].
  - cbn. rewrite elem_of_nil. tauto.
  - assert (∀ acc, (fetchedSound acc row).2 = assoc_set (sound_id row)
                     (length (savedSoundObjects
                                (getOrCreateAudioElement (sound_id row) (sound_url row) acc.1).2))
                     acc.2) as Hsnd.
    { intros acc. unfold fetchedSound. by destruct (getOrCreateAudioElement _ _ _). }
    destruct (fetchedSound (s, entries) row) as [s1 entries1] eqn:Hstep.
    rewrite IH. specialize (Hsnd (s, entries)). rewrite Hstep in Hsnd. cbn [snd] in Hsnd.
    rewrite Hsnd, assoc_set_keys, fmap_cons, elem_of_cons.
    case_bool_decide as Hin.
    + split; [tauto|]. intros [?|[->|?]]; auto.
    + rewrite elem_of_app, list_elem_of_singleton. tauto.
Qed.

Lemma fetched_wf_entries s entries :
  fetched_wf s entries → entries_wf entries (savedSoundObjects s).
Proof.
  intros [[_ Hdistinct] Hkeys Hobjects]. split; [done| |].
  - intros key ref Hin. destruct (Hobjects key ref Hin) as (sound & ? & ? & _). eauto.
  - intros key1 ref1 sound1 key2 ref2 sound2 Hin1 Hin2 Hs1 Hs2 Haudio.
    destruct (Hobjects key1 ref1 Hin1) as (sound1' & Hs1' & _ & Hreg1).
    destruct (Hobjects key2 ref2 Hin2) as (sound2' & Hs2' & _ & Hreg2).
    assert (sound1' = sound1) as -> by congruence.
    assert (sound2' = sound2) as -> by congruence.
    apply (Hdistinct key1 key2 (saved_audio sound1)); congruence.
Qed.

Lemma assoc_get_is_Some {A} key (entries : list (string * A)) :
  is_Some (assoc_get key entries) ↔ key ∈ entries.*1.
Proof.
  induction entries as [|[k v] entries IH]; cbn.
  - rewrite elem_of_nil. split; [by intros [? ?]|done].
  - destruct (decide (k = key)) as [->|Hne].
    + split; [intros _; apply list_elem_of_here|by eexists].
    + rewrite IH, elem_of_cons. split; [auto|]. by intros [?|?].
Qed.

(** The re-render after the query function has handed over a new map runs
    the memo again. *)
Lemma render_new_map `{Runtime} s2 identity :
  (∀ seen master, memoDeps s2 = Some (Some seen, master) → seen ≠ identity) →
  map_identity <$> savedSoundsMapData s2 = Some identity →
  render false s2
  = with_memoDeps (Some (Some identity, masterVolume s2))
      (foldl (applyMetadata (masterVolume s2)) s2 (savedSoundsMap s2)).
Proof.
  intros Hmemo Hdata. unfold render. rewrite Hdata. cbn [fst snd].
  destruct (memoDeps s2) as [[[seen|] master]|] eqn:Hdeps; try done.
  specialize (Hmemo seen master eq_refl).
  rewrite bool_decide_eq_false_2; [done|]. intros [= ->]. done.
Qed.

(** The memo run over a map as the query function builds it leaves a well
    formed resolved map. *)
Lemma memo_establishes_wf `{Runtime} master s2 t :
  fetched_wf s2 (savedSoundsMap s2) →
  savedSoundIds t = savedSoundIds s2 → queryCache t = queryCache s2 →
  metadataRef t = metadataRef s2 → audioElementRegistry t = audioElementRegistry s2 →
  savedSoundObjects t
    = savedSoundObjects (foldl (applyMetadata master) s2 (savedSoundsMap s2)) →
  audios t = audios (foldl (applyMetadata master) s2 (savedSoundsMap s2)) →
  resolved_wf t
  ∧ (∀ id sound, memberSound t id = Some sound →
       audioElementRegistry t !! id = Some (saved_audio sound))
  ∧ (∀ id audio, memberAudio t id = Some audio →
       audio_volume audio = effectiveVolume (memberVolume t id) master).
Proof.
  intros Hfetched Hids Hcache Hmd Hreg Hobjects Haudios.
  pose proof (fetched_wf_entries _ _ Hfetched) as Hentries.
  pose proof (savedSoundsMap_ext s2 t Hids Hcache) as Hmap.
  pose proof (foldl_heaps_only (applyMetadata master) (savedSoundsMap s2) s2
                (applyMetadata_heaps_only _)) as Hheaps.
  assert (∀ key ref sound, (key, ref) ∈ savedSoundsMap s2 →
            savedSoundObjects t !! ref = Some sound →
            ∃ sound0, savedSoundObjects s2 !! ref = Some sound0
                      ∧ sound = saved_set_volume
                                  (default (default 100 (saved_volume sound0))
                                     (metadataRef s2 !! key ≫= md_volume)) sound0
                      ∧ saved_id sound0 = key
                      ∧ audioElementRegistry s2 !! key = Some (saved_audio sound0))
    as Hback.
  { intros key ref sound Hin Hsound.
    destruct (fwf_objects _ _ Hfetched key ref Hin) as (sound0 & Hs0 & Hid & Hregistered).
    destruct (memo_loop master s2 Hentries key ref sound0 Hin Hs0) as [Hafter _].
    exists sound0. split_and!; try done. rewrite Hobjects, Hafter in Hsound. congruence. }
  split_and!.
  - split; rewrite ?Hmap, ?Hmd.
    + apply Hfetched.
    + intros key ref Hin.
      destruct (fwf_objects _ _ Hfetched key ref Hin) as (sound0 & Hs0 & Hid & Hregistered).
      destruct (memo_loop master s2 Hentries key ref sound0 Hin Hs0) as [Hafter _].
      eexists. rewrite Hobjects, Hafter. split_and!; [reflexivity|done|].
      cbn [saved_audio saved_set_volume]. apply lookup_lt_is_Some.
      rewrite Haudios, (ho_audios _ _ Hheaps).
      by apply (rwf_allocated _ (fwf_registry _ _ Hfetched) key).
    + intros key1 ref1 sound1 key2 ref2 sound2 Hin1 Hin2 Hs1 Hs2 Haudio.
      destruct (Hback key1 ref1 sound1 Hin1 Hs1) as (a1 & _ & -> & _ & Hr1).
      destruct (Hback key2 ref2 sound2 Hin2 Hs2) as (a2 & _ & -> & _ & Hr2).
      cbn [saved_audio saved_set_volume] in Haudio.
      apply (rwf_distinct _ (fwf_registry _ _ Hfetched) key1 key2 (saved_audio a1));
        congruence.
    + intros key ref sound volume Hin Hs Hvolume.
      destruct (Hback key ref sound Hin Hs) as (a & _ & -> & _ & _).
      cbn [saved_volume saved_set_volume]. by rewrite Hvolume.
  - intros id sound Hmember.
    destruct (memberSound_entry t id sound Hmember) as (ref & Hin & Hs).
    rewrite Hmap in Hin.
    destruct (Hback id ref sound Hin Hs) as (a & _ & -> & _ & Hr).
    by rewrite Hreg.
  - by apply (law_after_memo master s2).
Qed.

(** X16 (the query resolves).  Take a store whose master volume and
    recorded volumes are in [0, 100] (so that every volume the re-render
    applies is one an audio element accepts), whose registry is well formed
    and whose last memo run saw a map created earlier.  When the query
    function of [useSoundsByIds] resolves with the rows of the database,
    the resolved map holds exactly the ids of the rows; it is well formed;
    the audio element of every resolved sound is the element the registry
    holds for its id; and the re-render leaves every resolved audio element
    at exactly [(volume / 100) * (masterVolume / 100)], with the volume
    taken from the metadata table where it has one.  The session itself
    (sequence, metadata, master volume, stored item) is untouched. *)
Theorem useSoundsByIds_resolves `{Runtime} (rows : list Sound) (st : Store) :
  volume_in_range (masterVolume st) → metadata_in_range st →
  savedSoundIds st ≠ [] → registry_wf st → memo_behind st →
  let st' := useSoundsByIds_resolved rows st in
  resolved_wf st'
  ∧ (∀ id, is_Some (assoc_get id (savedSoundsMap st')) ↔ id ∈ sound_id <$> rows)
  ∧ (∀ id sound, memberSound st' id = Some sound →
       audioElementRegistry st' !! id = Some (saved_audio sound))
  ∧ (∀ id audio, memberAudio st' id = Some audio →
       audio_volume audio = effectiveVolume (memberVolume st' id) (masterVolume st'))
  ∧ (savedSoundIds st' = savedSoundIds st ∧ masterVolume st' = masterVolume st
     ∧ metadataRef st' = metadataRef st ∧ localStorage st' = localStorage st).
Proof.
  intros _ _ Hids Hregistry Hmemo st'. subst st'.
  unfold useSoundsByIds_resolved. rewrite bool_decide_eq_false_2 by done.
  pose proof (fetched_loop_wf st rows st [] (same_session_refl st)) as [Hsame Hfetched].
  { split; [done|constructor|by intros ?? ?%elem_of_nil]. }
  pose proof (fetched_loop_keys rows st []) as Hkeys.
  destruct (foldl fetchedSound (st, []) rows) as [st1 entries]. cbn [fst snd] in *.
  set (s2 := setQueryData _ _ _).
  assert (savedSoundsMapData s2
          = Some {| map_identity := nextIdentity st1; map_entries := entries |}) as Hdata.
  { subst s2. unfold savedSoundsMapData, setQueryData. cbn. by rewrite lookup_insert_eq. }
  assert (savedSoundsMap s2 = entries) as Hmap.
  { unfold savedSoundsMap. by rewrite Hdata. }
  assert (savedSoundIds s2 = savedSoundIds st ∧ masterVolume s2 = masterVolume st
          ∧ metadataRef s2 = metadataRef st ∧ localStorage s2 = localStorage st
          ∧ memoDeps s2 = memoDeps st
          ∧ savedSoundObjects s2 = savedSoundObjects st1 ∧ audios s2 = audios st1
          ∧ audioElementRegistry s2 = audioElementRegistry st1)
    as (Hids2 & Hmaster2 & Hmd2 & Hstorage2 & Hmemo2 & Hobj2 & Haud2 & Hreg2).
  { subst s2. destruct Hsame. by cbn. }
  assert (fetched_wf s2 (savedSoundsMap s2)) as Hfetched2.
  { rewrite Hmap. destruct Hfetched as [[Halloc Hdistinct] Hnodup Hobjects].
    split; [split|done|]; rewrite ?Hreg2, ?Haud2, ?Hobj2; done. }
  rewrite (render_new_map s2 (nextIdentity st1)); [| |by rewrite Hdata].
  2:{ intros seen master Hseen. rewrite Hmemo2 in Hseen.
      specialize (Hmemo seen master Hseen). rewrite <- (ss_identity _ _ Hsame) in Hmemo. lia. }
  pose proof (foldl_heaps_only (applyMetadata (masterVolume s2)) (savedSoundsMap s2) s2
                (applyMetadata_heaps_only _)) as Hheaps.
  clearbody s2.
  set (t := with_memoDeps _ _).
  assert (savedSoundIds t = savedSoundIds s2 ∧ queryCache t = queryCache s2
          ∧ metadataRef t = metadataRef s2 ∧ audioElementRegistry t = audioElementRegistry s2
          ∧ masterVolume t = masterVolume s2 ∧ localStorage t = localStorage s2
          ∧ savedSoundObjects t
            = savedSoundObjects (foldl (applyMetadata (masterVolume s2)) s2 (savedSoundsMap s2))
          ∧ audios t = audios (foldl (applyMetadata (masterVolume s2)) s2 (savedSoundsMap s2)))
    as (Hids' & Hcache' & Hmd' & Hreg' & Hmaster' & Hstorage' & Hobj' & Haud').
  { subst t. destruct Hheaps. by cbn. }
  clearbody t.
  destruct (memo_establishes_wf (masterVolume s2) s2 t Hfetched2 Hids' Hcache' Hmd' Hreg'
              Hobj' Haud') as (Hwf & Hlink & Hlaw).
  refine (conj Hwf (conj _ (conj Hlink (conj _ _)))).
  - intros id. rewrite (savedSoundsMap_ext s2 t Hids' Hcache'), Hmap, assoc_get_is_Some, Hkeys.
    cbn. rewrite elem_of_nil. tauto.
  - intros id audio Hmember. rewrite Hmaster'. by apply Hlaw.
  - split_and!; congruence.
Qed.

Lemma restoredStore_registry_wf : registry_wf restoredStore.
Proof.
  assert (audioElementRegistry restoredStore = ∅) as Hempty by (vm_compute; reflexivity).
  split; rewrite Hempty; intros *; by rewrite lookup_empty.
Qed.

Lemma restoredStore_memo_behind : memo_behind restoredStore.
Proof.
  assert (memoDeps restoredStore = Some (None, 50)) as Hdeps by (vm_compute; reflexivity).
  intros identity master. rewrite Hdeps. discriminate.
Qed.

Lemma restoredStore_in_range : metadata_in_range restoredStore.
Proof.
  assert (metadataRef restoredStore
          = {[ "clip1" := {| md_volume := Some 40; md_loop := Some true |} ]}) as Htable
    by (vm_compute; reflexivity).
  intros id volume. rewrite Htable.
  destruct (decide (id = "clip1")) as [->|Hne].
  - rewrite lookup_singleton_eq. cbn. intros [= <-]. split; vm_compute; discriminate.
  - by rewrite lookup_singleton_ne.
Qed.

Lemma useSoundsByIds_resolves_witness :
  @resolved_wf tunedRuntime (@useSoundsByIds_resolved tunedRuntime [rain] restoredStore).
Proof.
  refine (proj1 (@useSoundsByIds_resolves tunedRuntime [rain] restoredStore _
                   restoredStore_in_range _
                   restoredStore_registry_wf restoredStore_memo_behind)).
  - split; vm_compute; discriminate.
  - vm_compute. discriminate.
Defined.

(** ** The two per-sound setters on a resolved id *)

Lemma resolved_in_cache `{Runtime} st id ref :
  assoc_get id (savedSoundsMap st) = Some ref →
  ∃ currentMap, queryCache st !! sortIds (savedSoundIds st) = Some currentMap
                ∧ assoc_get id (map_entries currentMap) = Some ref.
Proof.
  unfold savedSoundsMap, savedSoundsMapData.
  destruct (queryCache st !! sortIds (savedSoundIds st)) as [currentMap|]; [|done]. eauto.
Qed.

(** [setSoundLoop] on a resolved id, field by field. *)
Lemma setSoundLoop_resolved `{Runtime} id loop st ref sound :
  assoc_get id (savedSoundsMap st) = Some ref →
  savedSoundObjects st !! ref = Some sound →
  setSoundLoop id loop st
  = saveToStorage
      {| storage_savedSounds := savedSoundIds st;
         storage_metadata :=
           <[id := {| md_volume := metadataRef st !! id ≫= md_volume;
                      md_loop := Some loop |}]> (metadataRef st);
         storage_masterVolume := Some (masterVolume st) |}
      (with_metadataRef
         (<[id := {| md_volume := metadataRef st !! id ≫= md_volume;
                     md_loop := Some loop |}]> (metadataRef st))
         (with_audios (alter (audio_set_loop loop) (saved_audio sound) (audios st)) st)).
Proof.
  intros Hget Hsound.
  destruct (resolved_in_cache st id ref Hget) as (currentMap & Hcache & Hentry).
  unfold setSoundLoop. rewrite Hget.
  rewrite (write_sound_audio_eq _ ref sound st Hsound).
  unfold updateCached. cbn [queryCache savedSoundIds with_metadataRef write_audio with_audios].
  rewrite Hcache, Hentry.
  rewrite (write_sound_audio_eq _ ref sound) by done.
  unfold currentStorage, saveToStorage, write_audio. cbn.
  rewrite list_alter_alter_eq.
  assert (alter (audio_set_loop loop ∘ audio_set_loop loop) (saved_audio sound) (audios st)
          = alter (audio_set_loop loop) (saved_audio sound) (audios st)) as ->; [|done].
  apply list_alter_ext; [|done..]. by intros [].
Qed.


(** X17 ([setSoundLoop] on a resolved sound).  The loop flag is written to
    the audio element of the sound and recorded in the metadata table; the
    element keeps its volume, its paused flag and its locator; the recorded
    volume of the sound is kept; and no other audio element, no other
    metadata entry, no [SavedSound] object, and neither the ordered
    sequence nor the master volume is changed. *)
Theorem setSoundLoop_sets_flag `{Runtime} (id : string) (loop : bool) (st : Store)
    (audio : Audio) :
  memberAudio st id = Some audio →
  let st' := setSoundLoop id loop st in
  memberLoop st' id = loop
  ∧ memberAudio st' id = Some (audio_set_loop loop audio)
  ∧ memberVolume st' id = memberVolume st id
  ∧ (∀ other, other ≠ id → metadataRef st' !! other = metadataRef st !! other)
  ∧ (∀ sound r, memberSound st id = Some sound → r ≠ saved_audio sound →
       audios st' !! r = audios st !! r)
  ∧ savedSoundIds st' = savedSoundIds st
  ∧ masterVolume st' = masterVolume st
  ∧ savedSoundObjects st' = savedSoundObjects st.
Proof.
  intros Hmember st'. subst st'.
  unfold memberAudio, memberSound in Hmember.
  destruct (assoc_get id (savedSoundsMap st)) as [ref|] eqn:Hget; [|done].
  destruct (savedSoundObjects st !! ref) as [sound|] eqn:Hsound; [|done].
  rewrite (setSoundLoop_resolved id loop st ref sound Hget Hsound).
  set (st' := saveToStorage _ _).
  assert (memberSound st' id = Some sound) as Hsound'.
  { unfold memberSound. by rewrite (savedSoundsMap_ext st st' eq_refl eq_refl), Hget. }
  split_and!; try done.
  - unfold memberLoop. cbn. by rewrite lookup_insert_eq.
  - unfold memberAudio. rewrite Hsound'. cbn. by rewrite list_lookup_alter_eq, Hmember.
  - unfold memberVolume. rewrite Hsound'. cbn. rewrite lookup_insert_eq. cbn.
    unfold memberSound. by rewrite Hget, Hsound.
  - intros other Hne. cbn. by rewrite lookup_insert_ne.
  - unfold memberSound. rewrite Hget, Hsound. intros sound' r [= <-] Hne. cbn.
    by rewrite list_lookup_alter_ne.
Qed.

Lemma setSoundLoop_sets_flag_witness :
  memberLoop (@setSoundLoop sampleRuntime "clip1" true oneClipStore) "clip1" = true
  ∧ @memberAudio sampleRuntime (@setSoundLoop sampleRuntime "clip1" true oneClipStore) "clip1"
    = Some (audio_set_loop true
              (audio_set_volume (effectiveVolume 100 100)
                 (@newAudio sampleRuntime "https://cdn/rain.mp3"))).
Proof.
  pose proof (@setSoundLoop_sets_flag sampleRuntime "clip1" true oneClipStore
                (audio_set_volume (effectiveVolume 100 100)
                 (@newAudio sampleRuntime "https://cdn/rain.mp3"))
                ltac:(vm_compute; reflexivity)) as (Hloop & Haudio & _).
  split; [exact Hloop|exact Haudio].
Defined.



(** ** Fades that complete and fades that do not *)

Lemma apply_writes_last writes audio :
  apply_writes writes audio = from_option (λ v, audio_set_volume v audio) audio (last writes).
Proof.
  unfold apply_writes. revert audio.
  induction writes as [|w writes IH]; intros audio; cbn [foldl]; [done|].
  rewrite IH. destruct writes as [|w' writes]; [reflexivity|].
  rewrite last_cons_cons, last_cons. by destruct (last writes).
Qed.

Lemma fadeTick_early a b startTime now :
  volume_accepted (fadeVolume a b (now - startTime)) = true →
  (now < startTime + FADE_DURATION_MS)%Z →
  fadeTick a b startTime now = ([fadeVolume a b (now - startTime)], TickAgain).
Proof.
  intros Haccepted Hearly. rewrite fadeTick_spec, Haccepted.
  destruct (Qle_bool 1 (fadeProgress (now - startTime))) eqn:Hdone; [|done].
  apply Qle_bool_iff, fadeProgress_complete in Hdone. lia.
Qed.

Lemma fadeTick_late a b startTime now :
  volume_accepted b = true →
  (startTime + FADE_DURATION_MS ≤ now)%Z →
  fadeTick a b startTime now = ([fadeVolume a b (now - startTime); b], TickResolved).
Proof.
  intros Htarget Hlate. rewrite fadeTick_spec.
  assert (1 <= fadeProgress (now - startTime)) as Hp by (apply fadeProgress_complete; lia).
  rewrite (volume_accepted_Qeq _ b (fadeVolume_complete a b _ Hp)), Htarget.
  apply Qle_bool_iff in Hp. by rewrite Hp.
Qed.

(** Before the fade is over, no firing clears the interval. *)
Lemma fadeTick_pending a b startTime now :
  (now < startTime + FADE_DURATION_MS)%Z → (fadeTick a b startTime now).2 = TickAgain.
Proof.
  intros Hearly. rewrite fadeTick_spec.
  destruct (volume_accepted (fadeVolume a b (now - startTime))); [|done].
  destruct (Qle_bool 1 (fadeProgress (now - startTime))) eqn:Hdone; [|done].
  apply Qle_bool_iff, fadeProgress_complete in Hdone. lia.
Qed.

Lemma fadeInterval_pending a b startTime clock :
  Forall (λ now, (now < startTime + FADE_DURATION_MS)%Z) clock →
  (fadeInterval a b startTime clock).2 = false.
Proof.
  induction clock as [|now later IH]; intros Hearly; cbn [fadeInterval]; [done|].
  apply Forall_cons in Hearly as [Hnow Hearly].
  pose proof (fadeTick_pending a b startTime now Hnow) as Hpending.
  destruct (fadeTick a b startTime now) as [writes tickEnd]. cbn in Hpending. subst tickEnd.
  specialize (IH Hearly). by destruct (fadeInterval a b startTime later).
Qed.

(** A fade to a volume that no element accepts never resolves. *)
Lemma fadeInterval_refused a b startTime clock :
  volume_accepted b = false → (fadeInterval a b startTime clock).2 = false.
Proof.
  intros Htarget. induction clock as [|now later IH]; cbn [fadeInterval]; [done|].
  rewrite fadeTick_spec, Htarget.
  destruct (volume_accepted (fadeVolume a b (now - startTime)));
    [destruct (Qle_bool 1 (fadeProgress (now - startTime)))|]; cbn; [done|..];
    by destruct (fadeInterval a b startTime later).
Qed.

Lemma fadeInterval_early a b startTime early :
  0 <= a <= 1 → 0 <= b <= 1 →
  Forall (λ reading, (startTime ≤ reading < startTime + FADE_DURATION_MS)%Z) early →
  fadeInterval a b startTime early
  = ((λ reading, fadeVolume a b (reading - startTime)) <$> early, false).
Proof.
  intros Ha Hb.
  induction early as [|reading early IH]; intros Hearly; cbn [fadeInterval fmap list_fmap];
    [done|].
  apply Forall_cons in Hearly as [Hreading Hearly].
  rewrite fadeTick_early; [|apply fadeVolume_accepted; [done..|lia]|lia].
  by rewrite (IH Hearly).
Qed.

Lemma fadeOutThenPause_late startTime clock audio :
  (∃ now, now ∈ clock ∧ (startTime + FADE_DURATION_MS ≤ now)%Z) →
  fadeOutThenPause startTime clock audio
  = {| audio_src := audio_src audio; audio_volume := 0;
       audio_loop := audio_loop audio; audio_paused := true |}.
Proof.
  intros Hlate. unfold fadeOutThenPause, fadeOut.
  destruct (fadeInterval_resolved (audio_volume audio) 0 startTime clock) as [Hlast Hdone].
  specialize (Hdone eq_refl Hlate). specialize (Hlast Hdone).
  destruct (fadeInterval (audio_volume audio) 0 startTime clock) as [writes resolved].
  cbn [fst snd] in *. subst resolved. rewrite apply_writes_last, Hlast. done.
Qed.

(** X19 (a fade ends at its first late tick, or not at all).  Take a fade
    between two volumes that an audio element accepts (both in [0, 1]),
    whose first readings are not before the start and earlier than
    [FADE_DURATION_MS] after it.  On those readings the fade does not
    resolve, and each tick writes exactly one volume, the linear
    interpolation for its reading.  The interval clears itself at the first
    reading that is [FADE_DURATION_MS] or more after the start: whatever
    readings would follow, the writes are the same and nothing is written
    after the target volume.  A fade to a target that no element accepts
    never resolves, whatever the clock. *)
Theorem fadeInterval_first_late_tick (a b : Q) (startTime : Z) (early : list Z) (now : Z)
    (later : list Z) :
  Forall (λ reading, (startTime ≤ reading < startTime + FADE_DURATION_MS)%Z) early →
  (0 <= a <= 1 → 0 <= b <= 1 →
     (fadeInterval a b startTime early
      = ((λ reading, fadeVolume a b (reading - startTime)) <$> early, false))
     ∧ ((startTime + FADE_DURATION_MS ≤ now)%Z →
        fadeInterval a b startTime (early ++ now :: later)
        = (((λ reading, fadeVolume a b (reading - startTime)) <$> early)
             ++ [fadeVolume a b (now - startTime); b], true)))
  ∧ (¬ (0 <= b <= 1) → ∀ clock, (fadeInterval a b startTime clock).2 = false).
Proof.
  intros Hearly. split.
  - intros Ha Hb. split; [by apply fadeInterval_early|]. intros Hlate.
    induction early as [|reading early IH]; cbn [fadeInterval app fmap list_fmap].
    + by rewrite fadeTick_late by (by apply volume_accepted_iff || done).
    + apply Forall_cons in Hearly as [Hreading Hearly].
      rewrite fadeTick_early; [|apply fadeVolume_accepted; [done..|lia]|lia].
      by rewrite (IH Hearly).
  - intros Hrefused clock. apply fadeInterval_refused.
    destruct (volume_accepted b) eqn:Htarget; [|done].
    by apply volume_accepted_iff in Htarget.
Qed.

Lemma fadeInterval_first_late_tick_witness :
  fadeInterval 1 0 1000 ([1010; 1100] ++ 1200 :: [1210; 1220])%Z
  = (((λ reading, fadeVolume 1 0 (reading - 1000)) <$> [1010; 1100]%Z)
       ++ [fadeVolume 1 0 (1200 - 1000); 0], true).
Proof.
  refine (proj2 (proj1 (fadeInterval_first_late_tick 1 0 1000 [1010; 1100]%Z 1200
                          [1210; 1220]%Z _) _ _) _).
  - repeat (constructor; [unfold FADE_DURATION_MS; lia|]). constructor.
  - split; discriminate.
  - split; discriminate.
  - unfold FADE_DURATION_MS. lia.
Defined.

(** X20 ([fadeOut] followed by [pause]).  The pause after the fade-out is
    reached exactly when the fade resolves.  If some tick comes
    [FADE_DURATION_MS] or more after the start, the element ends paused at
    volume 0, with its [src] and loop flag as before.  If every tick comes
    earlier (the timer stopped firing), the element is never paused: it
    keeps its paused flag; and when moreover no tick reads a clock before
    the start, the element (whose volume is in [0, 1]) is left at the
    volume interpolated for the last tick. *)
Theorem fadeOutThenPause_outcome (startTime : Z) (clock : list Z) (audio : Audio) :
  ((∃ now, now ∈ clock ∧ (startTime + FADE_DURATION_MS ≤ now)%Z) →
     fadeOutThenPause startTime clock audio
     = {| audio_src := audio_src audio; audio_volume := 0;
          audio_loop := audio_loop audio; audio_paused := true |})
  ∧ (Forall (λ now, (now < startTime + FADE_DURATION_MS)%Z) clock →
     audio_paused (fadeOutThenPause startTime clock audio) = audio_paused audio
     ∧ (0 <= audio_volume audio <= 1 → Forall (λ now, (startTime ≤ now)%Z) clock →
        audio_volume (fadeOutThenPause startTime clock audio)
        = default (audio_volume audio)
            (last ((λ now, fadeVolume (audio_volume audio) 0 (now - startTime)) <$> clock)))).
Proof.
  split; [apply fadeOutThenPause_late|].
  intros Hearly. split.
  - unfold fadeOutThenPause, fadeOut.
    pose proof (fadeInterval_pending (audio_volume audio) 0 startTime clock Hearly) as Hpending.
    destruct (fadeInterval (audio_volume audio) 0 startTime clock) as [writes resolved].
    cbn in Hpending. subst resolved. rewrite apply_writes_last. by destruct (last writes).
  - intros Hvolume Hafter. unfold fadeOutThenPause, fadeOut.
    rewrite (fadeInterval_early (audio_volume audio) 0 startTime clock Hvolume); cycle 1.
    { split; discriminate. }
    { apply Forall_forall. intros now Hin.
      rewrite Forall_forall in Hearly. rewrite Forall_forall in Hafter.
      split; [by apply Hafter|by apply Hearly]. }
    rewrite apply_writes_last.
    by destruct (last _).
Qed.

Lemma fadeOutThenPause_outcome_witness :
  fadeOutThenPause 1000 [1010; 1100; 1200]%Z
    {| audio_src := "https://cdn/rain.mp3"; audio_volume := 1; audio_loop := true;
       audio_paused := false |}
  = {| audio_src := "https://cdn/rain.mp3"; audio_volume := 0; audio_loop := true;
       audio_paused := true |}.
Proof.
  refine (proj1 (fadeOutThenPause_outcome 1000 [1010; 1100; 1200]%Z
                   {| audio_src := "https://cdn/rain.mp3"; audio_volume := 1;
                      audio_loop := true; audio_paused := false |}) _).
  exists 1200%Z. split; [|unfold FADE_DURATION_MS; lia].
  do 2 apply list_elem_of_further. apply list_elem_of_here.
Defined.

(** ** Pausing everything, and the toggle of a tile *)

Section SharedWrite.
(** A loop that applies the same write [g] to the audio element of every
    entry, where applying [g] twice is applying it once. *)
Variable g : Audio → Audio.
Hypothesis g_idempotent : ∀ a, g (g a) = g a.

Lemma shared_write_audios st (entries : list (string * nat)) r :
  audios (foldl (λ s entry, write_sound_audio g entry.2 s) st entries) !! r =
    if bool_decide (Exists (λ entry, saved_audio <$> savedSoundObjects st !! entry.2 = Some r)
                      entries)
    then g <$> audios st !! r
    else audios st !! r.
Proof.
  remember (savedSoundObjects st) as objects eqn:Hobjects.
  revert st Hobjects. induction entries as [|entry entries IH]; intros st ->; cbn [foldl].
  - rewrite bool_decide_eq_false_2; [done|]. by intros ?%Exists_nil.
  - assert (savedSoundObjects (write_sound_audio g entry.2 st) = savedSoundObjects st) as Hobj.
    { unfold write_sound_audio. by destruct (savedSoundObjects st !! entry.2). }
    rewrite IH by done.
    assert (audios (write_sound_audio g entry.2 st) !! r =
              if bool_decide (saved_audio <$> savedSoundObjects st !! entry.2 = Some r)
              then g <$> audios st !! r else audios st !! r) as ->.
    { unfold write_sound_audio.
      destruct (savedSoundObjects st !! entry.2) as [sound|]; [|done].
      rewrite write_audio_lookup. case_decide as Heq.
      - subst. by rewrite bool_decide_eq_true_2.
      - rewrite bool_decide_eq_false_2; [done|]. by intros [= ?]. }
    rewrite (bool_decide_ext _ _ (Exists_cons _ entry entries)).
    case_bool_decide as Hrest; case_bool_decide as Hhead; case_bool_decide as Hall;
      try done; try (destruct Hall; by eauto).
    destruct (audios st !! r); cbn; [|done]. by rewrite g_idempotent.
Qed.
End SharedWrite.

(** X21 ([pauseAllSounds]).  When the fades see a tick [FADE_DURATION_MS]
    or more after the start, every resolved sound that was playing ends
    paused at volume 0, with its locator and loop flag as before; a resolved
    sound that was already paused is left exactly as it was; an audio
    element of no resolved sound is not touched; and neither the session
    nor the stored item changes. *)
Theorem pauseAllSounds_fades_and_pauses `{Runtime} (startTime : Z) (clock : list Z)
    (st : Store) :
  (∃ now, now ∈ clock ∧ (startTime + FADE_DURATION_MS ≤ now)%Z) →
  let st' := pauseAllSounds startTime clock st in
  (∀ id sound audio,
     memberSound st id = Some sound → audios st !! saved_audio sound = Some audio →
     audios st' !! saved_audio sound
     = Some (if audio_paused audio then audio
             else {| audio_src := audio_src audio; audio_volume := 0;
                     audio_loop := audio_loop audio; audio_paused := true |}))
  ∧ (∀ r, (∀ key ref sound, (key, ref) ∈ savedSoundsMap st →
             savedSoundObjects st !! ref = Some sound → saved_audio sound ≠ r) →
       audios st' !! r = audios st !! r)
  ∧ heaps_only st st'.
Proof.
  intros Hlate st'. subst st'. unfold pauseAllSounds.
  pose proof (λ audio, fadeOutThenPause_late startTime clock audio Hlate) as Hfade.
  assert (∀ a, (λ a, if audio_paused a then a else fadeOutThenPause startTime clock a)
                 ((λ a, if audio_paused a then a else fadeOutThenPause startTime clock a) a)
               = (λ a, if audio_paused a then a else fadeOutThenPause startTime clock a) a)
    as Hidempotent.
  { intros a. cbn beta. destruct (audio_paused a) eqn:Hpaused; [by rewrite Hpaused|].
    by rewrite Hfade. }
  split_and!.
  - intros id sound audio Hsound Haudio.
    rewrite (shared_write_audios _ Hidempotent).
    destruct (memberSound_entry st id sound Hsound) as (ref & Hin & Hobject).
    rewrite bool_decide_eq_true_2.
    + rewrite Haudio. cbn. destruct (audio_paused audio); [done|]. by rewrite Hfade.
    + apply Exists_exists. exists (id, ref). split; [done|]. cbn. by rewrite Hobject.
  - intros r Hnone. rewrite (shared_write_audios _ Hidempotent).
    rewrite bool_decide_eq_false_2; [done|].
    intros ([key ref] & Hin & Href)%Exists_exists. cbn in Href.
    destruct (savedSoundObjects st !! ref) as [sound|] eqn:Hobject; [|done].
    injection Href as Href. by apply (Hnone key ref sound).
  - apply foldl_heaps_only. intros. apply write_sound_audio_heaps_only.
Qed.

Lemma pauseAllSounds_fades_and_pauses_witness :
  audios (@pauseAllSounds sampleRuntime 1000 [1010; 1200]%Z playingStore) !! 0%nat
  = Some {| audio_src := "https://cdn/rain.mp3"; audio_volume := 0;
            audio_loop := true; audio_paused := true |}.
Proof.
  refine (proj1 (@pauseAllSounds_fades_and_pauses sampleRuntime 1000 [1010; 1200]%Z
                   playingStore _)
            "clip1"
            {| saved_id := "clip1"; saved_name := "Rain"; saved_url := "https://cdn/rain.mp3";
               saved_category := ""; saved_type := ""; saved_audio := 0;
               saved_volume := Some 40 |}
            {| audio_src := "https://cdn/rain.mp3"; audio_volume := effectiveVolume 40 100;
               audio_loop := true; audio_paused := false |} _ _).
  - exists 1200%Z. split; [|unfold FADE_DURATION_MS; lia].
    apply list_elem_of_further, list_elem_of_here.
  - vm_compute. reflexivity.
  - vm_compute. reflexivity.
Defined.



(** ** What reordering and the setters never do *)

Lemma render_in_sync `{Runtime} changed st : memo_in_sync (render changed st).
Proof.
  pose proof (foldl_heaps_only (applyMetadata (masterVolume st)) (savedSoundsMap st) st
                (applyMetadata_heaps_only _)) as [Hids Hmaster _ _ _ Hcache _ _ _ _].
  unfold render, memo_in_sync, savedSoundsMapData.
  destruct (memoDeps st) as [[identity master]|] eqn:Hdeps; cbn [fst snd].
  - destruct (negb (bool_decide (identity = _)) || negb (Qeq_bool master (masterVolume st)))
      eqn:Hrerun.
    + exists (masterVolume st).
      destruct changed; cbn; rewrite Hids, Hcache, Hmaster; (split; [done|reflexivity]).
    + apply orb_false_iff in Hrerun as [Hidentity Hmaster'].
      apply negb_false_iff, bool_decide_eq_true in Hidentity.
      apply negb_false_iff, Qeq_bool_iff in Hmaster'.
      exists master. destruct changed; cbn; rewrite Hdeps, Hidentity; done.
  - exists (masterVolume st).
    destruct changed; cbn; rewrite Hids, Hcache, Hmaster; (split; [done|reflexivity]).
Qed.

Lemma render_unchanged `{Runtime} st ids :
  memo_in_sync st → sortIds ids = sortIds (savedSoundIds st) →
  render true (with_savedSoundIds ids st)
  = saveToStorage
      {| storage_savedSounds := ids; storage_metadata := metadataRef st;
         storage_masterVolume := Some (masterVolume st) |}
      (with_savedSoundIds ids st).
Proof.
  intros (master & Hdeps & Hmaster) Hkey. unfold render.
  assert (savedSoundsMapData (with_savedSoundIds ids st) = savedSoundsMapData st) as Hdata.
  { unfold savedSoundsMapData. cbn [queryCache savedSoundIds with_savedSoundIds].
    by rewrite Hkey. }
  rewrite Hdata. cbn [memoDeps with_savedSoundIds masterVolume fst snd]. rewrite Hdeps.
  rewrite bool_decide_eq_true_2 by done.
  apply Qeq_bool_iff in Hmaster. rewrite Hmaster. done.
Qed.

(** X23 ([reorderSounds] with a rearrangement).  When the collation is a
    consistent comparator that tells the ids of the session apart (no two
    different ids of the sequence rank equal), the query key does not
    depend on the order of the ids; so after a render, installing a
    rearrangement of the current sequence keeps the resolved map (nothing
    is fetched again) and writes no audio element and no [SavedSound]
    object: sounds that are playing, or in the middle of a fade, are not
    disturbed.  The new sequence is installed, and it is stored unless
    [localStorage.setItem] throws, in which case the stored item stays as
    it was. *)
Theorem reorderSounds_keeps_playback `{Runtime} (ids : list string) (st : Store) :
  collation_order → collation_separates (savedSoundIds st) →
  ids ≡ₚ savedSoundIds st → memo_in_sync st →
  let st' := reorderSounds ids st in
  let data :=
    {| storage_savedSounds := ids; storage_metadata := metadataRef st;
       storage_masterVolume := Some (masterVolume st) |} in
  sortIds ids = sortIds (savedSoundIds st)
  ∧ savedSoundsMap st' = savedSoundsMap st
  ∧ audios st' = audios st
  ∧ savedSoundObjects st' = savedSoundObjects st
  ∧ savedSoundIds st' = ids
  ∧ localStorage st'
    = (if setItem_throws (storage_json data) then localStorage st else Some data).
Proof.
  intros Horder Hseparates Hperm Hsync st' data. subst st' data.
  assert (sortIds ids = sortIds (savedSoundIds st)) as Hkey.
  { symmetry. by apply (sortIds_separated Horder). }
  unfold reorderSounds. rewrite (render_unchanged st ids Hsync Hkey).
  split_and!; try done.
  unfold savedSoundsMap, savedSoundsMapData.
  cbn [queryCache savedSoundIds with_savedSoundIds saveToStorage with_localStorage].
  by rewrite Hkey.
Qed.

Lemma abcStore_in_sync : @memo_in_sync sampleRuntime abcStore.
Proof. exists 100. split; vm_compute; reflexivity. Qed.

Lemma reorderSounds_keeps_playback_witness :
  audios (@reorderSounds sampleRuntime ["c"; "a"; "b"] abcStore) = audios abcStore
  ∧ @savedSoundsMap sampleRuntime (@reorderSounds sampleRuntime ["c"; "a"; "b"] abcStore)
    = @savedSoundsMap sampleRuntime abcStore.
Proof.
  assert (["c"; "a"; "b"] ≡ₚ savedSoundIds abcStore) as Hperm.
  { vm_compute. apply (Permutation_cons_app ["a"; "b"] [] "c"). by rewrite app_nil_r. }
  destruct (@reorderSounds_keeps_playback sampleRuntime ["c"; "a"; "b"] abcStore
              (total_collation_order sampleRuntime_total)
              (total_collation_separates _ sampleRuntime_total)
              Hperm abcStore_in_sync) as (_ & Hmap & Haudios & _).
  split; [exact Haudios|exact Hmap].
Defined.

Lemma write_sound_audio_keeps {B} (proj : Audio → B) f ref st :
  (∀ a, proj (f a) = proj a) → keeps proj st (write_sound_audio f ref st).
Proof.
  intros Hf. unfold write_sound_audio.
  destruct (savedSoundObjects st !! ref); [by apply write_audio_keeps|apply keeps_refl].
Qed.

Lemma updateCached_keeps `{Runtime} {B} (proj : Audio → B) id write st :
  (∀ ref s, keeps proj s (write ref s)) → keeps proj st (updateCached id write st).
Proof.
  intros Hw. unfold updateCached.
  destruct (queryCache st !! _); [|apply keeps_refl].
  destruct (assoc_get _ _); [apply Hw | apply keeps_refl].
Qed.

Lemma setSoundVolume_keeps `{Runtime} {B} (proj : Audio → B) id volume st :
  (∀ v a, proj (audio_set_volume v a) = proj a) →
  keeps proj st (setSoundVolume id volume st).
Proof.
  intros Hproj. unfold setSoundVolume.
  destruct (assoc_get id (savedSoundsMap st)) as [sound|]; [|apply keeps_refl].
  intros r. cbn [audios saveToStorage with_localStorage].
  rewrite (updateCached_keeps proj); cycle 1.
  { intros ref s. eapply keeps_trans; [apply write_saved_keeps|].
    by apply write_sound_audio_keeps. }
  cbn [audios with_metadataRef].
  rewrite (write_sound_audio_keeps proj) by done. done.
Qed.

Lemma setSoundLoop_keeps `{Runtime} {B} (proj : Audio → B) id loop st :
  (∀ l a, proj (audio_set_loop l a) = proj a) →
  keeps proj st (setSoundLoop id loop st).
Proof.
  intros Hproj. unfold setSoundLoop.
  destruct (assoc_get id (savedSoundsMap st)) as [sound|]; [|apply keeps_refl].
  intros r. cbn [audios saveToStorage with_localStorage].
  rewrite (updateCached_keeps proj); cycle 1.
  { intros ref s. by apply write_sound_audio_keeps. }
  cbn [audios with_metadataRef].
  rewrite (write_sound_audio_keeps proj) by done. done.
Qed.

Lemma applyMaster_keeps `{Runtime} {B} (proj : Audio → B) volume st entry :
  (∀ v a, proj (audio_set_volume v a) = proj a) →
  keeps proj st (applyMaster volume st entry).
Proof.
  intros Hproj. unfold applyMaster.
  destruct (savedSoundObjects st !! entry.2) as [sound|]; [|apply keeps_refl].
  apply (keeps_trans proj st
           (write_audio
              (audio_set_volume (effectiveVolume (default 100 (saved_volume sound)) volume))
              (saved_audio sound) st)).
  - apply write_audio_keeps. intros. apply Hproj.
  - apply updateCached_keeps. intros. by apply write_sound_audio_keeps.
Qed.

Lemma setMasterVolume_keeps `{Runtime} {B} (proj : Audio → B) volume st :
  (∀ v a, proj (audio_set_volume v a) = proj a) →
  (∀ changed s, keeps proj s (render changed s)) →
  keeps proj st (setMasterVolume volume st).
Proof.
  intros Hproj Hrender.
  assert (keeps proj st (foldl (applyMaster volume) st (savedSoundsMap st))) as Hloop.
  { apply foldl_keeps. intros. by apply applyMaster_keeps. }
  unfold setMasterVolume, setMasterVolume_handler.
  destruct (Qeq_bool _ _); [exact Hloop|].
  eapply keeps_trans; [exact Hloop|]. intros r. by rewrite Hrender.
Qed.

(** X24 (what the setters and the reordering never do).  [setSoundVolume],
    [setSoundLoop], [setMasterVolume] and [reorderSounds] never start or stop
    a sound and never rebind an audio element: the paused flag and the
    locator of every audio element are as before.  Besides, [setSoundVolume]
    writes no loop flag and [setSoundLoop] writes no volume. *)
Theorem setters_keep_playback `{Runtime} (st : Store) :
  (∀ id volume,
     keeps audio_paused st (setSoundVolume id volume st)
     ∧ keeps audio_src st (setSoundVolume id volume st)
     ∧ keeps audio_loop st (setSoundVolume id volume st))
  ∧ (∀ id loop,
       keeps audio_paused st (setSoundLoop id loop st)
       ∧ keeps audio_src st (setSoundLoop id loop st)
       ∧ keeps audio_volume st (setSoundLoop id loop st))
  ∧ (∀ volume,
       keeps audio_paused st (setMasterVolume volume st)
       ∧ keeps audio_src st (setMasterVolume volume st))
  ∧ (∀ ids,
       keeps audio_paused st (reorderSounds ids st)
       ∧ keeps audio_src st (reorderSounds ids st)).
Proof.
  split_and!.
  - intros id volume. split_and!; by apply setSoundVolume_keeps.
  - intros id loop. split_and!; by apply setSoundLoop_keeps.
  - intros volume. split.
    + apply setMasterVolume_keeps; [done|]. intros. apply render_keeps_paused.
    + apply setMasterVolume_keeps; [done|]. intros. apply render_keeps_src.
  - intros ids. unfold reorderSounds. split.
    + intros r. by rewrite render_keeps_paused.
    + intros r. by rewrite render_keeps_src.
Qed.

(** ** Adding a sound and the other audio elements *)

Lemma addSoundToCachedMap_existing `{Runtime} {B} (proj : Audio → B) sound currentIds
    metadata st r element :
  (∀ v a, proj (audio_set_volume v a) = proj a) →
  (∀ l a, proj (audio_set_loop l a) = proj a) →
  audios st !! r = Some element →
  audioElementRegistry st !! sound_id sound ≠ Some r →
  proj <$> audios (addSoundToCachedMap sound currentIds metadata st) !! r
  = Some (proj element).
Proof.
  intros Hvolume Hloop Hr Hother. unfold addSoundToCachedMap.
  assert (∀ audio volume loop st0,
            audios st0 !! r = Some element →
            proj <$> alter (audio_set_loop loop) audio
                       (alter (audio_set_volume volume) audio (audios st0)) !! r
            = Some (proj element)) as Hwrites.
  { intros audio volume loop st0 Hr0. destruct (decide (audio = r)) as [->|Hne].
    - rewrite !list_lookup_alter_eq, Hr0. cbn. by rewrite Hloop, Hvolume.
    - by rewrite !list_lookup_alter_ne, Hr0. }
  destruct (assoc_get _ _ ≫= _) as [existing|].
  - case_bool_decide; cbn; by apply Hwrites.
  - destruct (getOrCreateAudioElement_existing (sound_id sound) (sound_url sound) st r element Hr)
      as [Hkept|(Hregistered & _)]; [|done].
    destruct (getOrCreateAudioElement _ _ st) as [audio st0]. cbn [snd] in Hkept.
    case_bool_decide; cbn; by apply Hwrites.
Qed.

(** X25 ([addSound] and the other sounds).  Adding a sound never starts or
    stops another sound and never rebinds an audio element: every audio
    element that exists, other than the one registered for the id of the
    added sound, keeps its paused flag and its locator. *)
Theorem addSound_keeps_others_playing `{Runtime} (id : string) (sound : Sound)
    (index : option Z) (st : Store) (r : nat) (element : Audio) :
  audios st !! r = Some element →
  audioElementRegistry st !! sound_id sound ≠ Some r →
  audio_paused <$> audios (addSound id sound index st) !! r = Some (audio_paused element)
  ∧ audio_src <$> audios (addSound id sound index st) !! r = Some (audio_src element).
Proof.
  intros Hr Hother. unfold addSound. case_bool_decide; [by rewrite Hr|].
  rewrite render_keeps_paused, render_keeps_src. cbn [audios with_savedSoundIds].
  split; by apply addSoundToCachedMap_existing.
Qed.

Lemma addSound_keeps_others_playing_witness :
  audio_paused <$> audios (@addSound sampleRuntime "clip2" wind None playingStore) !! 0%nat
  = Some false.
Proof.
  refine (proj1 (@addSound_keeps_others_playing sampleRuntime "clip2" wind None playingStore
                   0%nat
                   {| audio_src := "https://cdn/rain.mp3";
                      audio_volume := effectiveVolume 40 100;
                      audio_loop := true; audio_paused := false |} _ _)).
  - vm_compute. reflexivity.
  - vm_compute. discriminate.
Defined.

(** ** The preview of a library item *)


Lemma library_toggle_play `{Runtime} url masterVolume startTime clock item :
  (∃ now, now ∈ clock ∧ (startTime + FADE_DURATION_MS ≤ now)%Z) →
  volume_in_range (item_volume item) → volume_in_range masterVolume →
  item_isPlaying item = false →
  LibrarySoundItem.handleToggle url masterVolume true startTime clock item
  = {| item_isPlaying := true; item_volume := item_volume item;
       item_isLooping := item_isLooping item;
       item_audio :=
         Some {| audio_src := from_option audio_src (resolveURL url) (item_audio item);
                 audio_volume := effectiveVolume (item_volume item) masterVolume;
                 audio_loop := item_isLooping item; audio_paused := false |} |}.
Proof.
  intros Hlate Hvolume Hmaster Hpaused. unfold LibrarySoundItem.handleToggle.
  rewrite Hpaused. unfold fadeIn.
  destruct (fadeInterval_resolved 0 (effectiveVolume (item_volume item) masterVolume)
              startTime clock) as [Hlast Hdone].
  specialize (Hdone ltac:(by apply volume_accepted_iff, effectiveVolume_accepted) Hlate).
  specialize (Hlast Hdone).
  destruct (fadeInterval 0 _ startTime clock) as [writes resolved].
  cbn [fst snd] in *. subst resolved. rewrite apply_writes_last, Hlast.
  unfold LibrarySoundItem.volumeEffect. cbn. by destruct (item_audio item).
Qed.

Lemma library_toggle_pause `{Runtime} url masterVolume played startTime clock item :
  (∃ now, now ∈ clock ∧ (startTime + FADE_DURATION_MS ≤ now)%Z) →
  item_isPlaying item = true →
  LibrarySoundItem.handleToggle url masterVolume played startTime clock item
  = {| item_isPlaying := false; item_volume := item_volume item;
       item_isLooping := item_isLooping item;
       item_audio :=
         Some {| audio_src := from_option audio_src (resolveURL url) (item_audio item);
                 audio_volume := 0;
                 audio_loop := item_isLooping item; audio_paused := true |} |}.
Proof.
  intros Hlate Hplaying. unfold LibrarySoundItem.handleToggle. rewrite Hplaying.
  unfold fadeOut.
  match goal with
  | |- context [fadeInterval ?a 0 startTime clock] =>
      destruct (fadeInterval_resolved a 0 startTime clock) as [Hlast Hdone];
      specialize (Hdone eq_refl Hlate); specialize (Hlast Hdone);
      destruct (fadeInterval a 0 startTime clock) as [writes resolved]
  end.
  cbn [fst snd] in *. subst resolved. rewrite apply_writes_last, Hlast.
  unfold LibrarySoundItem.volumeEffect. cbn. by destruct (item_audio item).
Qed.



(** X27 (the volume of a playing library item).  Take an item volume and
    a master volume in [0, 100].  A library item that is marked as playing
    plays at exactly its volume scaled by the master volume: the property
    holds for a new item; a toggle on a clock with a tick
    [FADE_DURATION_MS] or more after the start establishes or keeps it,
    whether [play()] resolves or is rejected; and a change to a volume in
    [0, 100], a change of the master volume to one in [0, 100] and the loop
    toggle keep it.  A volume change on an item that is not playing records
    the volume and does not touch the audio element. *)
Theorem library_item_law `{Runtime} (url : string) (masterVolume : Q) (item : LibraryItem) :
  item_law masterVolume item →
  volume_in_range masterVolume → volume_in_range (item_volume item) →
  (∀ newVolume, volume_in_range newVolume →
     item_law masterVolume
       (LibrarySoundItem.handleVolumeChange masterVolume newVolume item)
     ∧ item_volume (LibrarySoundItem.handleVolumeChange masterVolume newVolume item)
       = newVolume
     ∧ (item_isPlaying item = false →
        item_audio (LibrarySoundItem.handleVolumeChange masterVolume newVolume item)
        = item_audio item))
  ∧ (∀ newMaster, volume_in_range newMaster →
       item_law newMaster (LibrarySoundItem.volumeEffect newMaster item))
  ∧ item_law masterVolume (LibrarySoundItem.handleToggleLoop item)
  ∧ (∀ played startTime clock,
       (∃ now, now ∈ clock ∧ (startTime + FADE_DURATION_MS ≤ now)%Z) →
       item_law masterVolume
         (LibrarySoundItem.handleToggle url masterVolume played startTime clock item))
  ∧ item_law masterVolume newLibraryItem.
Proof.
  intros Hlaw Hmaster Hvolume. unfold item_law in *. split_and!.
  - intros newVolume _. unfold LibrarySoundItem.handleVolumeChange,
      LibrarySoundItem.volumeEffect.
    destruct (item_isPlaying item) eqn:Hbefore; cbn; [|done].
    destruct (Hlaw eq_refl) as (audio & -> & Hpaused & _).
    split_and!; try done. intros _. eexists. split; [reflexivity|]. done.
  - intros newMaster _. unfold LibrarySoundItem.volumeEffect.
    destruct (item_isPlaying item) eqn:Hbefore; cbn; [|intros ?; congruence].
    intros _. destruct (Hlaw eq_refl) as (audio & -> & Hpaused & _).
    eexists. split; [reflexivity|]. done.
  - unfold LibrarySoundItem.handleToggleLoop, LibrarySoundItem.loopEffect. cbn.
    intros Hplaying. destruct (Hlaw Hplaying) as (audio & -> & Hpaused & Hvolume').
    eexists. split; [reflexivity|]. done.
  - intros played startTime clock Hlate. destruct (item_isPlaying item) eqn:Hbefore.
    + by rewrite (library_toggle_pause _ _ _ _ _ _ Hlate Hbefore).
    + destruct played.
      * rewrite (library_toggle_play _ _ _ _ _ Hlate Hvolume Hmaster Hbefore). cbn.
        intros _. eexists. split; [reflexivity|]. done.
      * unfold LibrarySoundItem.handleToggle. rewrite Hbefore. cbn. done.
  - done.
Qed.

Lemma library_item_law_witness :
  item_law 50 (LibrarySoundItem.handleVolumeChange 50 40
                 (@LibrarySoundItem.handleToggle sampleRuntime "https://cdn/rain.mp3" 50 true 0
                    [10; 200]%Z newLibraryItem)).
Proof.
  refine (proj1 (proj1 (@library_item_law sampleRuntime "https://cdn/rain.mp3" 50
                          (@LibrarySoundItem.handleToggle sampleRuntime
                             "https://cdn/rain.mp3" 50 true 0 [10; 200]%Z newLibraryItem)
                          _ _ _) 40 _)).
  - intros _. vm_compute. eexists. split; [reflexivity|]. split; reflexivity.
  - split; vm_compute; discriminate.
  - split; vm_compute; discriminate.
  - split; vm_compute; discriminate.
Defined.

(** ** The master volume and the volumes of the sounds *)

Lemma memberVolume_ext `{Runtime} st t id :
  savedSoundsMap t = savedSoundsMap st → metadataRef t = metadataRef st →
  (∀ ref, assoc_get id (savedSoundsMap st) = Some ref →
     default 100 (savedSoundObjects t !! ref ≫= saved_volume)
     = default 100 (savedSoundObjects st !! ref ≫= saved_volume)
     ∨ is_Some (metadataRef st !! id ≫= md_volume)) →
  memberVolume t id = memberVolume st id.
Proof.
  intros Hmap Hmd Hobjects. unfold memberVolume, memberSound. rewrite Hmap, Hmd.
  destruct (assoc_get id (savedSoundsMap st)) as [ref|] eqn:Hget; [|done].
  destruct (Hobjects ref eq_refl) as [Heq|[volume Hvolume]].
  - by rewrite Heq.
  - by rewrite Hvolume.
Qed.

(** X29 ([setMasterVolume] and the volumes of the sounds).  On a store
    whose resolved map is well formed, [setMasterVolume] changes the volume
    of no sound: the volume every id reads is as before, as are the ordered
    sequence, the metadata table and the resolved map; only the master
    volume is new. *)
Theorem setMasterVolume_keeps_volumes `{Runtime} (volume : Q) (st : Store) :
  resolved_wf st →
  let st' := setMasterVolume volume st in
  (∀ id, memberVolume st' id = memberVolume st id)
  ∧ savedSoundIds st' = savedSoundIds st
  ∧ metadataRef st' = metadataRef st
  ∧ savedSoundsMap st' = savedSoundsMap st
  ∧ masterVolume st' == volume.
Proof.
  intros Hwf st'. subst st'.
  pose proof (setMasterVolume_handler_heaps volume st) as Hheaps.
  pose proof (master_loop_objects volume st (savedSoundsMap st)) as Hobjects.
  unfold setMasterVolume, setMasterVolume_handler.
  destruct (Qeq_bool (masterVolume st) volume) eqn:Hsame.
  - apply Qeq_bool_iff in Hsame.
    set (t := saveToStorage _ _).
    assert (savedSoundsMap t = savedSoundsMap st) as Hmap.
    { apply savedSoundsMap_ext; [apply Hheaps|apply Hheaps]. }
    assert (metadataRef t = metadataRef st) as Hmd by apply Hheaps.
    split_and!; [|apply Hheaps|done|done|].
    + intros id. apply memberVolume_ext; [done|done|].
      intros ref _. left. subst t. cbn. by rewrite Hobjects.
    + subst t. cbn. by rewrite (ho_master _ _ Hheaps).
  - set (s0 := with_masterVolume volume _).
    assert (savedSoundIds s0 = savedSoundIds st ∧ queryCache s0 = queryCache st
            ∧ metadataRef s0 = metadataRef st
            ∧ savedSoundObjects s0 = savedSoundObjects st
            ∧ masterVolume s0 = volume) as (Hids0 & Hcache0 & Hmd0 & Hobj0 & Hm0).
    { subst s0. cbn. split_and!; try done; apply Hheaps. }
    clearbody s0.
    destruct (render_session true s0) as (Hids & Hmaster & Hmd & Hcache & _).
    assert (savedSoundsMap (render true s0) = savedSoundsMap st) as Hmap.
    { apply savedSoundsMap_ext; congruence. }
    assert (savedSoundsMap s0 = savedSoundsMap st) as Hmap0.
    { apply savedSoundsMap_ext; congruence. }
    split_and!; [|congruence|congruence|done|by rewrite Hmaster, Hm0].
    intros id. apply memberVolume_ext; [done|congruence|].
    intros ref Hget. apply assoc_get_elem_of in Hget.
    destruct (wf_objects st Hwf id ref Hget) as (sound & Hsound & _ & _).
    pose proof (resolved_wf_entries st Hwf) as Hentries.
    unfold render.
    destruct (match memoDeps s0 with Some _ => _ | None => _ end).
    + assert (savedSoundObjects
                (saveToStorage
                   {| storage_savedSounds :=
                        savedSoundIds
                          (with_memoDeps
                             (Some (map_identity <$> savedSoundsMapData s0, masterVolume s0))
                             (foldl (applyMetadata (masterVolume s0)) s0 (savedSoundsMap s0)));
                      storage_metadata :=
                        metadataRef
                          (with_memoDeps
                             (Some (map_identity <$> savedSoundsMapData s0, masterVolume s0))
                             (foldl (applyMetadata (masterVolume s0)) s0 (savedSoundsMap s0)));
                      storage_masterVolume :=
                        Some (masterVolume
                                (with_memoDeps
                                   (Some (map_identity <$> savedSoundsMapData s0,
                                          masterVolume s0))
                                   (foldl (applyMetadata (masterVolume s0)) s0
                                      (savedSoundsMap s0)))) |}
                   (with_memoDeps
                      (Some (map_identity <$> savedSoundsMapData s0, masterVolume s0))
                      (foldl (applyMetadata (masterVolume s0)) s0 (savedSoundsMap s0))))
              = savedSoundObjects (foldl (applyMetadata (masterVolume s0)) s0
                                     (savedSoundsMap s0))) as -> by done.
      rewrite <- Hmap0, <- Hobj0 in Hentries. rewrite <- Hmap0 in Hget. rewrite <- Hobj0 in Hsound.
      destruct (memo_loop (masterVolume s0) s0 Hentries id ref sound Hget Hsound) as [-> _].
      rewrite Hmd0, Hobj0 in *. rewrite Hsound. cbn.
      destruct (metadataRef st !! id ≫= md_volume) as [recorded|]; [right; by eexists|].
      by left.
    + left. cbn. by rewrite Hobj0.
Qed.

Lemma setMasterVolume_keeps_volumes_witness :
  @memberVolume sampleRuntime (@setMasterVolume sampleRuntime 50 secondPausedStore) "clip2"
  = @memberVolume sampleRuntime secondPausedStore "clip2".
Proof.
  exact (proj1 (@setMasterVolume_keeps_volumes sampleRuntime 50 secondPausedStore
                  secondPausedStore_wf) "clip2").
Defined.

(** ** Running the updater of [addSound] twice *)

(** [addSoundToCachedMap], field by field. *)
Lemma addSoundToCachedMap_fields `{Runtime} sound currentIds metadata st :
  let current := cachedEntries (sortIds currentIds) st in
  let existing := cachedSound (sortIds currentIds) (sound_id sound) st in
  let chosen :=
    match existing with
    | Some found => (saved_audio found, st)
    | None => getOrCreateAudioElement (sound_id sound) (sound_url sound) st
    end in
  let volume := default (default 100 (existing ≫= saved_volume)) (metadata ≫= md_volume) in
  let loop :=
    default (from_option (λ found, from_option audio_loop false (audios st !! saved_audio found))
               false existing)
      (metadata ≫= md_loop) in
  let once := addSoundToCachedMap sound currentIds metadata st in
  audios once
  = alter (audio_set_loop loop) chosen.1
      (alter (audio_set_volume (volume / 100)) chosen.1 (audios chosen.2))
  ∧ savedSoundObjects once
    = savedSoundObjects st ++
        [{| saved_id := sound_id sound; saved_name := sound_name sound;
            saved_url := sound_url sound;
            saved_category := default EmptyString (sound_category sound);
            saved_type := default EmptyString (sound_type sound);
            saved_audio := chosen.1; saved_volume := Some volume |}]
  ∧ audioElementRegistry once = audioElementRegistry chosen.2
  ∧ cachedEntries (sortIds (currentIds ++ [sound_id sound])) once
    = assoc_set (sound_id sound) (length (savedSoundObjects st)) current
  ∧ cachedEntries (sortIds currentIds) once
    = if bool_decide (currentIds = []) then current
      else assoc_set (sound_id sound) (length (savedSoundObjects st)) current.
Proof.
  cbv zeta. unfold cachedSound, addSoundToCachedMap.
  assert (sortIds currentIds ≠ sortIds (currentIds ++ [sound_id sound])) as Hkeys.
  { intros Heq. apply (f_equal length) in Heq.
    rewrite !sortIds_Permutation, length_app in Heq. cbn in Heq. lia. }
  destruct (assoc_get (sound_id sound) (cachedEntries (sortIds currentIds) st)
              ≫= (λ ref, savedSoundObjects st !! ref)) as [found|]; cbn [mbind option_bind].
  - unfold cachedEntries, setQueryData.
    case_bool_decide; cbn; rewrite ?lookup_insert_eq, ?lookup_insert_ne by done; cbn;
      rewrite ?lookup_insert_eq; done.
  - pose proof (getOrCreateAudioElement_session (sound_id sound) (sound_url sound) st)
      as (_ & _ & _ & _ & Hcache & Hobjects & _).
    destruct (getOrCreateAudioElement (sound_id sound) (sound_url sound) st) as [audio st0].
    cbn [fst snd] in *. unfold cachedEntries, setQueryData.
    case_bool_decide; cbn; rewrite ?lookup_insert_eq, ?lookup_insert_ne by done; cbn;
      rewrite ?lookup_insert_eq, ?Hobjects, ?Hcache; done.
Qed.

Lemma audio_writes_twice volume loop audio (heap : list Audio) :
  alter (audio_set_loop loop) audio
    (alter (audio_set_volume volume) audio
       (alter (audio_set_loop loop) audio (alter (audio_set_volume volume) audio heap)))
  = alter (audio_set_loop loop) audio (alter (audio_set_volume volume) audio heap).
Proof.
  rewrite !list_alter_alter_eq. apply list_alter_ext; [|done..]. by intros [].
Qed.

(** X30 ([addSoundToCachedMap], run twice).  React may run the updater of
    [addSound] twice with the same previous sequence.  Suppose the entry
    that the current map has for the id, if it has one, refers to an
    existing object, the volumes of the session and of the metadata passed
    are in [0, 100], and the previous sequence is not empty or the locator
    of the sound is in serialised form.  (For an empty previous sequence the
    first run does not store its map under the current key, so the second
    run asks the registry again, which keeps its element only when the
    [src] of the element is the locator as passed.)  Then the second run of
    [addSoundToCachedMap] reuses the audio element of the first run: it
    allocates no audio element, leaves every audio element and the registry
    exactly as the first run left them, and the cached map for the new
    sequence holds for the id a [SavedSound] equal to that of the first run
    (same audio element, same volume) and for every other id the object it
    held before. *)
Theorem addSoundToCachedMap_twice `{Runtime} (sound : Sound) (currentIds : list string)
    (metadata : option SoundMetadata) (st : Store) :
  (∀ ref, assoc_get (sound_id sound) (cachedEntries (sortIds currentIds) st) = Some ref →
          is_Some (savedSoundObjects st !! ref)) →
  session_in_range st →
  (∀ volume, metadata ≫= md_volume = Some volume → volume_in_range volume) →
  currentIds ≠ [] ∨ resolveURL (sound_url sound) = sound_url sound →
  let newKey := sortIds (currentIds ++ [sound_id sound]) in
  let once := addSoundToCachedMap sound currentIds metadata st in
  let twice := addSoundToCachedMap sound currentIds metadata once in
  audios twice = audios once
  ∧ audioElementRegistry twice = audioElementRegistry once
  ∧ is_Some (cachedSound newKey (sound_id sound) once)
  ∧ cachedSound newKey (sound_id sound) twice = cachedSound newKey (sound_id sound) once
  ∧ (∀ other, other ≠ sound_id sound →
       assoc_get other (cachedEntries newKey twice)
       = assoc_get other (cachedEntries newKey once)).
Proof.
  intros Hallocated _ _ Hcase newKey once twice.
  destruct (addSoundToCachedMap_fields sound currentIds metadata st)
    as (Haudios1 & Hobjects1 & Hregistry1 & Hnew1 & Hcurrent1).
  destruct (addSoundToCachedMap_fields sound currentIds metadata once)
    as (Haudios2 & Hobjects2 & Hregistry2 & Hnew2 & Hcurrent2).
  fold once in Haudios1, Hobjects1, Hregistry1, Hnew1, Hcurrent1.
  fold once twice in Haudios2, Hobjects2, Hregistry2, Hnew2, Hcurrent2.
  fold newKey in Hnew1, Hnew2.
  remember (cachedSound (sortIds currentIds) (sound_id sound) st) as existing eqn:Hexisting.
  remember (match existing with
            | Some found => (saved_audio found, st)
            | None => getOrCreateAudioElement (sound_id sound) (sound_url sound) st
            end) as chosen eqn:Hchosen.
  remember (default (default 100 (existing ≫= saved_volume)) (metadata ≫= md_volume))
    as volume eqn:Hvolume.
  remember (default (from_option
                       (λ found, from_option audio_loop false (audios st !! saved_audio found))
                       false existing) (metadata ≫= md_loop)) as loop eqn:Hloop.
  remember {| saved_id := sound_id sound; saved_name := sound_name sound;
              saved_url := sound_url sound;
              saved_category := default EmptyString (sound_category sound);
              saved_type := default EmptyString (sound_type sound);
              saved_audio := chosen.1; saved_volume := Some volume |} as object1 eqn:Hobject1.
  (* the element the first run chose, after its two writes *)
  assert (audios once !! chosen.1
          = (audio_set_loop loop ∘ audio_set_volume (volume / 100)) <$> audios chosen.2 !! chosen.1)
    as Helement.
  { rewrite Haudios1, !list_lookup_alter_eq. by destruct (audios chosen.2 !! chosen.1). }
  assert (existing = None → is_Some (audios chosen.2 !! chosen.1)
                            ∧ audioElementRegistry chosen.2 !! sound_id sound = Some chosen.1
                            ∧ (resolveURL (sound_url sound) = sound_url sound →
                               audio_src <$> audios chosen.2 !! chosen.1
                               = Some (sound_url sound)))
    as Hcreated.
  { intros Hnone. rewrite Hnone in Hchosen. subst chosen.
    destruct (getOrCreateAudioElement_registered (sound_id sound) (sound_url sound) st)
      as (Hreg & element & Hcreated & Hsrc).
    split_and!; [by eexists|done|].
    intros Hserialised. rewrite Hcreated. cbn. f_equal. by destruct Hsrc as [?| ->]. }
  (* what the second run finds *)
  remember (cachedSound (sortIds currentIds) (sound_id sound) once) as existing' eqn:Hexisting'.
  assert ((existing' = Some object1 ∨ existing' = existing)
          ∧ (existing' = None → existing = None ∧ currentIds = [])) as [Hfound Hnone'].
  { rewrite Hexisting'. unfold cachedSound. rewrite Hcurrent1, Hobjects1.
    case_bool_decide.
    - assert (assoc_get (sound_id sound) (cachedEntries (sortIds currentIds) st)
                ≫= (λ ref, (savedSoundObjects st ++ [object1]) !! ref) = existing) as ->; [|auto].
      rewrite Hexisting. unfold cachedSound.
      destruct (assoc_get (sound_id sound) (cachedEntries (sortIds currentIds) st))
        as [ref|] eqn:Hget; [|done]. cbn.
      destruct (Hallocated ref eq_refl) as [found Hfound].
      by rewrite (lookup_app_l_Some _ _ _ _ Hfound).
    - rewrite assoc_get_set_eq. cbn. rewrite lookup_snoc_fresh. split; [by left|done]. }
  clear Hexisting'.
  assert (match existing' with
          | Some found => (saved_audio found, once)
          | None => getOrCreateAudioElement (sound_id sound) (sound_url sound) once
          end = (chosen.1, once)) as Hchosen'.
  { destruct existing' as [found'|].
    - destruct Hfound as [[= ->]|Hsame]; [by rewrite Hobject1|].
      rewrite Hchosen, <- Hsame. done.
    - destruct (Hnone' eq_refl) as [Hnone Hempty].
      destruct (Hcreated Hnone) as (Hsome & Hreg & Hsrc).
      destruct Hcase as [?|Hserialised]; [done|]. specialize (Hsrc Hserialised).
      apply getOrCreateAudioElement_hit; [by rewrite Hregistry1|].
      rewrite Helement. destruct (audios chosen.2 !! chosen.1); [|by destruct Hsome]. done. }
  rewrite Hchosen' in Haudios2, Hobjects2, Hregistry2. cbn [fst snd] in *.
  assert (default (default 100 (existing' ≫= saved_volume)) (metadata ≫= md_volume) = volume)
    as Hvolume'.
  { rewrite Hvolume. destruct (metadata ≫= md_volume) as [recorded|]; [done|]. cbn.
    destruct Hfound as [->| ->]; [|done]. by rewrite Hobject1, Hvolume. }
  assert (default (from_option
                     (λ found, from_option audio_loop false (audios once !! saved_audio found))
                     false existing') (metadata ≫= md_loop) = loop) as Hloop'.
  { rewrite Hloop. destruct (metadata ≫= md_loop) as [recorded|] eqn:Hrecorded; [done|].
    cbn in Hloop. cbn.
    destruct Hfound as [->| ->].
    - rewrite Hobject1. cbn. rewrite Helement.
      destruct existing as [found|]; cbn in *.
      + rewrite Hchosen. cbn. rewrite Hchosen in Helement. cbn in Helement.
        destruct (audios st !! saved_audio found); cbn; [by rewrite Hloop|done].
      + destruct (audios chosen.2 !! chosen.1); cbn; [by rewrite Hloop|done].
    - destruct existing as [found|]; cbn in *; [|done].
      rewrite Hchosen in Helement. cbn in Helement. rewrite Helement.
      destruct (audios st !! saved_audio found); cbn; [by rewrite Hloop|done]. }
  rewrite Hvolume', Hloop' in Haudios2. rewrite Hvolume' in Hobjects2.
  split_and!.
  - rewrite Haudios2, Haudios1. apply audio_writes_twice.
  - done.
  - unfold cachedSound. rewrite Hnew1, assoc_get_set_eq. cbn.
    rewrite Hobjects1, lookup_snoc_fresh. by eexists.
  - unfold cachedSound. rewrite Hnew1, Hnew2, !assoc_get_set_eq. cbn.
    rewrite Hobjects2, lookup_snoc_fresh, Hobjects1, lookup_snoc_fresh. by rewrite Hobject1.
  - intros other Hne. rewrite Hnew2, Hnew1, Hcurrent1.
    rewrite !assoc_get_set_ne by done. case_bool_decide; [done|].
    by rewrite assoc_get_set_ne.
Qed.

Lemma addSoundToCachedMap_twice_witness :
  audios (@addSoundToCachedMap sampleRuntime wind ["clip1"] None
            (@addSoundToCachedMap sampleRuntime wind ["clip1"] None oneClipStore))
  = audios (@addSoundToCachedMap sampleRuntime wind ["clip1"] None oneClipStore)
  ∧ audios (@addSoundToCachedMap sampleRuntime rain [] None
              (@addSoundToCachedMap sampleRuntime rain [] None emptyStore))
    = audios (@addSoundToCachedMap sampleRuntime rain [] None emptyStore).
Proof.
  split.
  - refine (proj1 (@addSoundToCachedMap_twice sampleRuntime wind ["clip1"] None oneClipStore
                     _ oneClipStore_in_range _ _)).
    + intros ref. vm_compute. discriminate.
    + intros volume. discriminate.
    + by left.
  - refine (proj1 (@addSoundToCachedMap_twice sampleRuntime rain [] None emptyStore
                     _ emptyStore_in_range _ _)).
    + intros ref. vm_compute. discriminate.
    + intros volume. discriminate.
    + right. reflexivity.
Defined.
